(** * NaiveRag: chunker, retriever, question classifier and answer extractor

    A shallow embedding of [naive_rag.py] and [answer_generator.py].

    Python [str] values are modelled as lists of characters ([list ascii]).
    The model covers ASCII text: [lower] maps [A-Z] to [a-z], the white-space
    characters are those of [str.isspace] below code point 128, word
    characters are letters, digits and the underscore.  Bytes above 127 are
    treated as caseless characters that are neither space, digit nor word
    character. *)

From Stdlib Require Import Ascii String.
From Stdlib Require Import DecimalString.
From Stdlib Require Import List Bool Arith ZArith Lia.
Import ListNotations.

Set Implicit Arguments.

(** ** Python strings *)

Definition pystr := list ascii.

(** A literal of the source, as a character list. *)
Definition str (s : string) : pystr := list_ascii_of_string s.

Definition code (c : ascii) : nat := nat_of_ascii c.

Definition in_range (lo hi : nat) (c : ascii) : bool :=
  (lo <=? code c) && (code c <=? hi).

(** [str.isspace] on one character: TAB, LF, VT, FF, CR, FS, GS, RS, US and
    the space. *)
Definition isspace (c : ascii) : bool :=
  in_range 9 13 c || in_range 28 32 c.

Definition isupper (c : ascii) : bool := in_range 65 90 c.
Definition islower (c : ascii) : bool := in_range 97 122 c.
Definition isdigit (c : ascii) : bool := in_range 48 57 c.
Definition isalpha (c : ascii) : bool := isupper c || islower c.

(** The class [\w]: letters, digits, underscore. *)
Definition isword (c : ascii) : bool :=
  isalpha c || isdigit c || (code c =? 95).

Definition lower_char (c : ascii) : ascii :=
  if isupper c then ascii_of_nat (code c + 32) else c.

(** [s.lower()] *)
Definition lower (s : pystr) : pystr := map lower_char s.

Fixpoint lstrip (s : pystr) : pystr :=
  match s with
  | c :: s' => if isspace c then lstrip s' else s
  | [] => []
  end.

Definition rstrip (s : pystr) : pystr := rev (lstrip (rev s)).

(** [s.strip()] *)
Definition strip (s : pystr) : pystr := rstrip (lstrip s).

Definition ascii_eqb (a b : ascii) : bool := Ascii.eqb a b.

(** [s.startswith(p)] *)
Fixpoint startswith (p s : pystr) : bool :=
  match p, s with
  | [], _ => true
  | a :: p', b :: s' => ascii_eqb a b && startswith p' s'
  | _ :: _, [] => false
  end.

(** [s.endswith(p)] *)
Definition endswith (p s : pystr) : bool := startswith (rev p) (rev s).

(** [p in s] for strings: [p] occurs as a contiguous substring of [s]. *)
Fixpoint contains (p s : pystr) : bool :=
  startswith p s ||
  match s with
  | [] => false
  | _ :: s' => contains p s'
  end.

(** [a == b] on strings. *)
Fixpoint pystr_eqb (a b : pystr) : bool :=
  match a, b with
  | [], [] => true
  | x :: a', y :: b' => ascii_eqb x y && pystr_eqb a' b'
  | _, _ => false
  end.

(** [text.split()]: maximal runs of non-space characters.  [cur] is the
    word under construction, in reading order. *)
Fixpoint split_go (cur : pystr) (s : pystr) : list pystr :=
  match s with
  | [] => match cur with [] => [] | _ => [cur] end
  | c :: s' =>
      if isspace c
      then match cur with
           | [] => split_go [] s'
           | _ => cur :: split_go [] s'
           end
      else split_go (cur ++ [c]) s'
  end.

Definition split (text : pystr) : list pystr := split_go [] text.

(** [sep.join(ws)] *)
Fixpoint join (sep : pystr) (ws : list pystr) : pystr :=
  match ws with
  | [] => []
  | [w] => w
  | w :: ws' => w ++ sep ++ join sep ws'
  end.

(** ** answer_generator.py: question classifier *)

Definition PERSON_OR_TEAM : pystr := str "PERSON_OR_TEAM".
Definition ENTITY : pystr := str "ENTITY".
Definition DATE : pystr := str "DATE".
Definition REASON : pystr := str "REASON".
Definition FACT : pystr := str "FACT".

Definition detect_question_type (question : pystr) : pystr :=
  let q := strip (lower question) in
  if startswith (str "who") q then PERSON_OR_TEAM
  else if startswith (str "which") q then ENTITY
  else if startswith (str "when") q then DATE
  else if startswith (str "why") q then REASON
  else FACT.

(** The leading word of the trimmed, lower-cased question, in the words of
    the specification: the characters up to the first white space. *)
Fixpoint first_word (s : pystr) : pystr :=
  match s with
  | [] => []
  | c :: s' => if isspace c then [] else c :: first_word s'
  end.

Definition leading_word (question : pystr) : pystr :=
  first_word (strip (lower question)).

(** ** Regular expressions of Python's [re], as far as the source uses them

    A pattern is matched by backtracking; [run r st] lists every way [r] can
    match from the position [st], in the order in which the backtracking
    matcher of [re] tries them (left alternative first, a greedy repetition
    longest first, a lazy one shortest first), so that the head of the list
    is the match [re] reports.  A position is a zipper: the characters before
    it, nearest first, and the characters after it; with it travels the
    text of capturing group 1, once set. *)

Inductive regex : Type :=
| Eps                                   (* the empty pattern *)
| Cls (p : ascii -> bool)               (* one character of a class *)
| Cat (r1 r2 : regex)                   (* r1 r2 *)
| Alt (r1 r2 : regex)                   (* r1|r2 *)
| Star (greedy : bool) (r : regex)      (* r* and r*? *)
| Grp (r : regex)                       (* ( r ), capturing group 1 *)
| Bnd                                   (* \b *)
| Eos                                   (* $ *)
| Behind (p : ascii -> bool).           (* (?<=[...]), one character *)

Record mstate : Type := MState {
  before : pystr;          (* consumed text, nearest character first *)
  rest : pystr;            (* text still to be read *)
  cap : option pystr       (* group 1 *)
}.

Definition word_at (s : pystr) : bool :=
  match s with
  | c :: _ => isword c
  | [] => false
  end.

(** [\b] holds where exactly one of the two neighbours is a word character
    (the start and the end of the text count as non-word). *)
Definition at_boundary (bef s : pystr) : bool :=
  xorb (word_at bef) (word_at s).

Definition newline : ascii := ascii_of_nat 10.

(** [$] without [re.MULTILINE]: at the end of the text, or before a newline
    that ends the text. *)
Definition at_end (s : pystr) : bool :=
  match s with
  | [] => true
  | [c] => ascii_eqb c newline
  | _ => false
  end.

Definition consumed (st st' : mstate) : pystr :=
  rev (firstn (length (before st') - length (before st)) (before st')).

Definition advances (st st' : mstate) : bool :=
  length (rest st') <? length (rest st).

(** Repetition of a body that consumes at least one character per round;
    [fuel] bounds the number of rounds by the length of the remaining text. *)
Fixpoint star_run (greedy : bool) (body : mstate -> list mstate)
    (fuel : nat) (st : mstate) : list mstate :=
  match fuel with
  | O => [st]
  | S fuel' =>
      let more :=
        flat_map (star_run greedy body fuel') (filter (advances st) (body st)) in
      if greedy then more ++ [st] else st :: more
  end.

Fixpoint run (r : regex) (st : mstate) : list mstate :=
  match r with
  | Eps => [st]
  | Cls p =>
      match rest st with
      | c :: s' => if p c then [MState (c :: before st) s' (cap st)] else []
      | [] => []
      end
  | Cat r1 r2 => flat_map (run r2) (run r1 st)
  | Alt r1 r2 => run r1 st ++ run r2 st
  | Star greedy r' => star_run greedy (run r') (length (rest st)) st
  | Grp r' =>
      map (fun st' => MState (before st') (rest st') (Some (consumed st st')))
          (run r' st)
  | Bnd => if at_boundary (before st) (rest st) then [st] else []
  | Eos => if at_end (rest st) then [st] else []
  | Behind p =>
      match before st with
      | c :: _ => if p c then [st] else []
      | [] => []
      end
  end.

(** A match object: where the match starts, its text ([m.group(0)]),
    [m.group(1)], and the position at which it ends. *)
Record rmatch : Type := RMatch {
  m_start : nat;
  group0 : pystr;
  group1 : option pystr;
  m_stop : mstate
}.

(** [re.search], scanning start positions from [st] rightwards. *)
Fixpoint search_from (r : regex) (pos : nat) (bef s : pystr) : option rmatch :=
  let st := MState bef s None in
  match run r st with
  | st' :: _ => Some (RMatch pos (consumed st st') (cap st') st')
  | [] =>
      match s with
      | [] => None
      | c :: s' => search_from r (S pos) (c :: bef) s'
      end
  end.

Definition re_search (r : regex) (s : pystr) : option rmatch :=
  search_from r 0 [] s.

(** [re.findall] for a pattern without capturing group: the texts of the
    successive non-overlapping matches.  After an empty match the scan moves
    on by one character. *)
Fixpoint findall_from (r : regex) (fuel : nat) (bef s : pystr) : list pystr :=
  match fuel with
  | O => []
  | S fuel' =>
      match search_from r 0 bef s with
      | None => []
      | Some m =>
          let st' := m_stop m in
          match group0 m, rest st' with
          | [], [] => [[]]
          | [], c :: s' => [] :: findall_from r fuel' (c :: before st') s'
          | w, s' => w :: findall_from r fuel' (before st') s'
          end
      end
  end.

Definition re_findall (r : regex) (s : pystr) : list pystr :=
  findall_from r (S (length s)) [] s.

(** [re.split] for a pattern without capturing group whose matches are
    never empty: the pieces between the successive matches. *)
Fixpoint split_from (r : regex) (fuel : nat) (bef s : pystr) : list pystr :=
  match fuel with
  | O => [s]
  | S fuel' =>
      match search_from r 0 bef s with
      | None => [s]
      | Some m =>
          firstn (m_start m) s
            :: split_from r fuel' (before (m_stop m)) (rest (m_stop m))
      end
  end.

Definition re_split (r : regex) (s : pystr) : list pystr :=
  split_from r (length s) [] s.

(** *** What a pattern matches

    [mt r bef w s]: the pattern [r] matches the text [w] when [w] stands
    between the text whose reverse is [bef] and the text [s].  The two
    contexts matter to [\b], [$] and the look-behind only. *)

Fixpoint chain (P : pystr -> pystr -> pystr -> Prop) (bef : pystr)
    (ws : list pystr) (s : pystr) : Prop :=
  match ws with
  | [] => True
  | x :: ws' =>
      x <> [] /\ P bef x (concat ws' ++ s) /\ chain P (rev x ++ bef) ws' s
  end.

Fixpoint mt (r : regex) (bef w s : pystr) : Prop :=
  match r with
  | Eps => w = []
  | Cls p => exists c, w = [c] /\ p c = true
  | Cat r1 r2 =>
      exists w1 w2,
        w = w1 ++ w2 /\ mt r1 bef w1 (w2 ++ s) /\ mt r2 (rev w1 ++ bef) w2 s
  | Alt r1 r2 => mt r1 bef w s \/ mt r2 bef w s
  | Star _ r' => exists ws, w = concat ws /\ chain (mt r') bef ws s
  | Grp r' => mt r' bef w s
  | Bnd => w = [] /\ at_boundary bef s = true
  | Eos => w = [] /\ at_end s = true
  | Behind p => w = [] /\ exists c bef', bef = c :: bef' /\ p c = true
  end.

(** The matcher consumes the text [w] in going from [st] to [st']. *)
Definition consumes (st : mstate) (w : pystr) (st' : mstate) : Prop :=
  rest st = w ++ rest st' /\ before st' = rev w ++ before st.

(** [w] occurs in [s] between [pre] and [post] as a match of [r]. *)
Definition match_at (r : regex) (s pre w post : pystr) : Prop :=
  s = pre ++ w ++ post /\ mt r (rev pre) w post.

(** *** Pattern combinators *)

Definition Chr (c : ascii) : regex := Cls (ascii_eqb c).

(** A letter under [re.IGNORECASE]. *)
Definition ChrI (c : ascii) : regex :=
  Cls (fun x => ascii_eqb (lower_char x) (lower_char c)).

Fixpoint Lit (w : pystr) : regex :=
  match w with
  | [] => Eps
  | c :: w' => Cat (Chr c) (Lit w')
  end.

Fixpoint LitI (w : pystr) : regex :=
  match w with
  | [] => Eps
  | c :: w' => Cat (ChrI c) (LitI w')
  end.

Fixpoint Alts (rs : list regex) : regex :=
  match rs with
  | [] => Cls (fun _ => false)
  | [r] => r
  | r :: rs' => Alt r (Alts rs')
  end.

Definition Opt (r : regex) : regex := Alt r Eps.          (* r? *)
Definition Plus (r : regex) : regex := Cat r (Star true r). (* r+ *)
Definition Seq (rs : list regex) : regex := fold_right Cat Eps rs.

Definition Space : regex := Cls isspace.                  (* \s *)
Definition Digit : regex := Cls isdigit.                  (* \d *)
Definition Upper : regex := Cls isupper.                  (* [A-Z] *)
Definition Lower : regex := Cls islower.                  (* [a-z] *)
Definition Alpha : regex := Cls isalpha.                  (* [A-Za-z] *)
Definition NotOf (cs : pystr) : regex :=                  (* [^...] *)
  Cls (fun x => negb (existsb (ascii_eqb x) cs)).
Definition Dot : regex :=                                 (* . *)
  Cls (fun x => negb (ascii_eqb x newline)).

(** ** answer_generator.py: the patterns *)

Definition month_names : list pystr :=
  map str ["January"; "February"; "March"; "April"; "May"; "June"; "July";
           "August"; "September"; "October"; "November"; "December";
           "Jan"; "Feb"; "Mar"; "Apr"; "Jun"; "Jul"; "Aug"; "Sep"; "Sept";
           "Oct"; "Nov"; "Dec"]%string.

(** [(?:January|...|Dec) \.? \s+ \d{1,2} , \s* \d{4}] *)
Definition MONTH_RE : regex :=
  Seq [Alts (map Lit month_names); Opt (Chr "."); Plus Space;
       Digit; Opt Digit; Chr ","; Star true Space;
       Digit; Digit; Digit; Digit].

(** [\b(co-?hosted|hosted)\b], with [re.IGNORECASE] *)
Definition HOSTED_RE : regex :=
  Seq [Bnd;
       Grp (Alt (Seq [LitI (str "co"); Opt (ChrI "-"); LitI (str "hosted")])
                (LitI (str "hosted")));
       Bnd].

(** [(?:,| from| starting|\.|$)] *)
Definition clause_end : regex :=
  Alts [Chr ","; Lit (str " from"); Lit (str " starting"); Chr "."; Eos].

(** The host phrase, [( [A-Z] [^.,]*? )] *)
Definition host_phrase : regex :=
  Grp (Cat Upper (Star false (NotOf (str ".,")))).

(** [co-?hosted \s+ by \s+ ( [A-Z] [^.,]*? ) \s* (?:,| from| starting|\.|$)] *)
Definition CO_HOSTED_BY_RE : regex :=
  Seq [Lit (str "co"); Opt (Chr "-"); Lit (str "hosted"); Plus Space;
       Lit (str "by"); Plus Space; host_phrase; Star true Space; clause_end].

(** [hosted \s+ by \s+ ( [A-Z] [^.,]*? ) \s* (?:,| from| starting|\.|$)] *)
Definition HOSTED_BY_RE : regex :=
  Seq [Lit (str "hosted"); Plus Space;
       Lit (str "by"); Plus Space; host_phrase; Star true Space; clause_end].

(** The name phrase NAME, [[A-Z] [A-Za-z]* (?: \s [A-Z] [A-Za-z]* )*]
    (patterns are shown here with blanks between their parts). *)
Definition name_phrase : regex :=
  Seq [Upper; Star true Alpha; Star true (Seq [Space; Upper; Star true Alpha])].

(** [replaced \s+ by \s+ ( NAME )] *)
Definition REPLACED_BY_RE : regex :=
  Seq [Lit (str "replaced"); Plus Space; Lit (str "by"); Plus Space;
       Grp name_phrase].

(** [(?:captain|coach|skipper)] *)
Definition role_word : regex :=
  Alts [Lit (str "captain"); Lit (str "coach"); Lit (str "skipper")].

(** [\b ( NAME ) \b [^.]* \b (?:appointed|named|as) \b [^.]* \b (?:captain|coach|skipper) \b] *)
Definition NAME_BEFORE_ROLE_RE : regex :=
  Seq [Bnd; Grp name_phrase; Bnd; Star true (NotOf (str "."));
       Bnd; Alts [Lit (str "appointed"); Lit (str "named"); Lit (str "as")];
       Bnd; Star true (NotOf (str ".")); Bnd; role_word; Bnd].

(** [\b (?:captain|coach|skipper) \b [^.]*? \b ( NAME ) \b] *)
Definition ROLE_NAME_RE : regex :=
  Seq [Bnd; role_word; Bnd; Star false (NotOf (str "."));
       Bnd; Grp name_phrase; Bnd].

(** [\b [A-Z] [a-z]+ (?: \s [A-Z] [a-z]+ )* \b] *)
Definition PROPER_NOUN_RE : regex :=
  Seq [Bnd; Upper; Plus Lower;
       Star true (Seq [Space; Upper; Plus Lower]); Bnd].

(** [\b(because|due to|following|as a result)\b], with [re.IGNORECASE] *)
Definition CAUSAL_RE : regex :=
  Seq [Bnd;
       Grp (Alts [LitI (str "because"); LitI (str "due to");
                  LitI (str "following"); LitI (str "as a result")]);
       Bnd].

(** [due to \s+ ( .*? ) (?: \. | $ )], with [re.IGNORECASE] *)
Definition DUE_TO_RE : regex :=
  Seq [LitI (str "due to"); Plus Space; Grp (Star false Dot);
       Alt (Chr ".") Eos].

(** *** The patterns in the words of the specification *)

Definition all (p : ascii -> bool) (w : pystr) : Prop := forallb p w = true.

(** A date of the form MonthName Day, Year: a full or abbreviated month
    name, optionally a period, white space, one or two digits, a comma,
    optional white space, four digits. *)
Definition is_date (d : pystr) : Prop :=
  exists month dot ws1 day ws2 year,
    d = month ++ dot ++ ws1 ++ day ++ str "," ++ ws2 ++ year
    /\ In month month_names
    /\ (dot = [] \/ dot = str ".")
    /\ ws1 <> [] /\ all isspace ws1
    /\ (length day = 1 \/ length day = 2)%nat /\ all isdigit day
    /\ all isspace ws2
    /\ length year = 4%nat /\ all isdigit year.

(** [d] is a date that stands in [s] between [pre] and [post]. *)
Definition date_at (s pre d post : pystr) : Prop :=
  s = pre ++ d ++ post /\ is_date d.

Definition has_date (s : pystr) : Prop :=
  exists pre d post, date_at s pre d post.

(** There is a word boundary between the texts [pre] and [post]. *)
Definition boundary (pre post : pystr) : Prop :=
  at_boundary (rev pre) post = true.

(** [w] stands in [s] between [pre] and [post], with a word boundary on
    each side. *)
Definition word_bounded_at (s pre w post : pystr) : Prop :=
  s = pre ++ w ++ post /\ boundary pre (w ++ post) /\ boundary (pre ++ w) post.

Definition hosting_verbs : list pystr :=
  map str ["hosted"; "cohosted"; "co-hosted"]%string.

(** The sentence contains a hosting verb, in any letter case. *)
Definition has_hosting_verb (s : pystr) : Prop :=
  exists pre w post,
    In (lower w) hosting_verbs /\ word_bounded_at s pre w post.

Definition causal_markers : list pystr :=
  map str ["because"; "due to"; "following"; "as a result"]%string.

(** The sentence contains "due to", in any letter case, delimited by word
    boundaries. *)
Definition has_bounded_due_to (s : pystr) : Prop :=
  exists pre w post,
    lower w = str "due to" /\ word_bounded_at s pre w post.

(** The sentence contains "due to", in any letter case, directly after a
    word character. *)
Definition has_unbounded_due_to (s : pystr) : Prop :=
  exists pre c w post,
    s = pre ++ [c] ++ w ++ post /\ isword c = true /\ lower w = str "due to".

(** ** answer_generator.py: the extractor *)

Definition _extract_proper_nouns (sentence : pystr) : list pystr :=
  re_findall PROPER_NOUN_RE sentence.

(** [s if s.endswith('.') else s + '.'] *)
Definition ensure_period (s : pystr) : pystr :=
  if endswith (str ".") s then s else s ++ str ".".

(** [m.group(1)]; group 1 takes part in every match of the patterns that
    have one. *)
Definition group1_text (m : rmatch) : pystr :=
  match group1 m with
  | Some w => w
  | None => []
  end.

(** Truth value of an optional string: [None] and [''] are false. *)
Definition truthy (o : option pystr) : option pystr :=
  match o with
  | Some (c :: w) => Some (c :: w)
  | _ => None
  end.

Definition is_some {A : Type} (o : option A) : bool :=
  match o with
  | Some _ => true
  | None => false
  end.

(** [max(l, key=len)] of a list headed by [best]: the first longest. *)
Fixpoint max_by_len (best : pystr) (l : list pystr) : pystr :=
  match l with
  | [] => best
  | x :: l' =>
      max_by_len (if length best <? length x then x else best) l'
  end.

(** The variable [host] of the combined block, where it is set and true
    ([if host]): the trimmed group 1 of the first match of the co-hosted
    pattern or, failing that, of the hosted pattern. *)
Definition host_capture (s : pystr) : option pystr :=
  let m_host :=
    match re_search CO_HOSTED_BY_RE s with
    | Some m => Some m
    | None => re_search HOSTED_BY_RE s
    end in
  truthy (option_map (fun m => strip (group1_text m)) m_host).

(** The variable [date] of the combined block, where it is set and true:
    the trimmed text of the first match of the date pattern. *)
Definition date_capture (s : pystr) : option pystr :=
  truthy (option_map (fun m => strip (group0 m)) (re_search MONTH_RE s)).

(** The combined host+date block at the head of [extract_short_answer]:
    [Some a] when the block returns [a], [None] when control falls through
    to the cascade on the question type. *)
Definition combined_host_date (s q : pystr) : option pystr :=
  if contains (str "host") q
     && (contains (str "when") q || contains (str "start") q)
  then
    if is_some (re_search HOSTED_RE s) && is_some (re_search MONTH_RE s)
    then Some (ensure_period s)
    else
      match host_capture s, date_capture s with
      | Some host, Some date => Some (ensure_period (host ++ str ", " ++ date))
      | Some host, None => Some (if endswith (str ".") host then host else host)
      | None, Some date => Some date
      | None, None => None
      end
  else None.

Definition extract_name (s : pystr) : pystr :=
  match re_search REPLACED_BY_RE s with
  | Some m =>
      let ans := strip (group1_text m) in
      if endswith (str ".") ans then ans else ans
  | None =>
  match re_search NAME_BEFORE_ROLE_RE s with
  | Some m =>
      let ans := strip (group1_text m) in
      if endswith (str ".") ans then ans else ans
  | None =>
  match re_search ROLE_NAME_RE s with
  | Some m =>
      let ans := strip (group1_text m) in
      if endswith (str ".") ans then ans else ans
  | None =>
  match _extract_proper_nouns s with
  | e :: ents' =>
      let ents := e :: ents' in
      let multi := filter (contains (str " ")) ents in
      let ans :=
        match multi with
        | m0 :: multi' => max_by_len m0 multi'
        | [] => max_by_len e ents'
        end in
      if endswith (str ".") ans then ans else ans
  | [] => s
  end end end end.

Definition extract_reason (s : pystr) : pystr :=
  if is_some (re_search CAUSAL_RE s) then ensure_period s
  else
    match re_search DUE_TO_RE s with
    | Some m =>
        let phrase := strip (group1_text m) in
        let ans := str "Because " ++ phrase in
        ensure_period ans
    | None => ensure_period s
    end.

Definition extract_date (s : pystr) : pystr :=
  match re_search MONTH_RE s with
  | Some m => group0 m
  | None => s
  end.

Definition extract_short_answer (sentence qtype question : pystr) : pystr :=
  let s := strip sentence in
  let q := lower question in
  match combined_host_date s q with
  | Some a => a
  | None =>
      if pystr_eqb qtype PERSON_OR_TEAM || pystr_eqb qtype ENTITY
      then extract_name s
      else if pystr_eqb qtype REASON then extract_reason s
      else if pystr_eqb qtype DATE then extract_date s
      else ensure_period s
  end.

(** ** naive_rag.py: the chunker *)

Local Open Scope Z_scope.

Definition len {A : Type} (l : list A) : Z := Z.of_nat (length l).

(** [l[start:stop]] with Python's treatment of negative and out-of-range
    bounds. *)
Definition py_slice {A : Type} (l : list A) (start stop : Z) : list A :=
  let clamp i := if i <? 0 then Z.max 0 (i + len l) else Z.min i (len l) in
  let a := clamp start in
  let b := clamp stop in
  firstn (Z.to_nat (b - a)) (skipn (Z.to_nat a) l).

(** [l[i]]: [None] stands for Python's IndexError. *)
Definition py_index {A : Type} (l : list A) (i : Z) : option A :=
  if (0 <=? i) && (i <? len l) then nth_error l (Z.to_nat i)
  else if (- len l <=? i) && (i <? 0) then nth_error l (Z.to_nat (i + len l))
  else None.

(** [range(start, stop, step)] for a positive [step]; at most [fuel]
    elements. *)
Fixpoint range_from (fuel : nat) (start stop step : Z) : list Z :=
  match fuel with
  | O => []
  | S fuel' =>
      if start <? stop
      then start :: range_from fuel' (start + step) stop step
      else []
  end.

(** [range(0, stop, step)]; the chunker calls it with [step >= 1], so that
    [stop] elements are never exceeded. *)
Definition py_range (stop step : Z) : list Z :=
  range_from (Z.to_nat stop) 0 stop step.

(** The body of the [for start in range(...)] loop of
    [sliding_window_chunk], with its two [break]s. *)
Fixpoint chunk_loop (words : list pystr) (chunk_size_words : Z)
    (starts : list Z) (chunks : list pystr) : list pystr :=
  match starts with
  | [] => chunks
  | start :: starts' =>
      let end_ := Z.min (len words) (start + chunk_size_words) in
      let chunk_words := py_slice words start end_ in
      if len chunk_words <? Z.max 30 (chunk_size_words / 4) then chunks
      else
        let chunks := chunks ++ [join (str " ") chunk_words] in
        if end_ >=? len words then chunks
        else chunk_loop words chunk_size_words starts' chunks
  end.

Definition sliding_window_chunk (text : pystr)
    (chunk_size_words overlap_words : Z) : list pystr :=
  let words := split text in
  match words with
  | [] => []
  | _ =>
      let step := Z.max 1 (chunk_size_words - overlap_words) in
      chunk_loop words chunk_size_words (py_range (len words) step) []
  end.

(** The candidate window of the chunker that starts at word offset
    [i * step]: [words[start:end]] with [end = min(len(words), start +
    chunk_size_words)]. *)
Definition window (words : list pystr) (chunk_size_words step : Z) (i : nat)
    : list pystr :=
  let start := Z.of_nat i * step in
  py_slice words start (Z.min (len words) (start + chunk_size_words)).

(** The least number of words of an emitted chunk. *)
Definition floor_words (chunk_size_words : Z) : Z :=
  Z.max 30 (chunk_size_words / 4).

(** A word as [split] produces them: not empty, no white space inside. *)
Definition is_token (w : pystr) : Prop :=
  w <> [] /\ forallb (fun c => negb (isspace c)) w = true.

(** ** naive_rag.py: the index and the retriever *)

Record Chunk : Type := mkChunk {
  doc_id : pystr;
  chunk_id : Z;
  text : pystr
}.

(** The exceptions of the model.  [ExternalError] is whatever the embedding
    model, numpy or the vector index raise. *)
Inductive exn : Type :=
| ValueError (msg : string)
| RuntimeError (msg : string)
| IndexError
| ExternalError (origin : string).

(** The error monad of a Python call that may raise. *)
Definition result (A : Type) : Type := (exn + A)%type.

Definition ret {A : Type} (a : A) : result A := inr a.
Definition raise {A : Type} (e : exn) : result A := inl e.
Definition bind {A B : Type} (m : result A) (k : A -> result B) : result B :=
  match m with
  | inl e => inl e
  | inr a => k a
  end.

Declare Scope py_scope.
Delimit Scope py_scope with py.
Notation "x <- m ;; k" := (bind m (fun x => k))
  (at level 61, m at next level, right associativity) : py_scope.
Notation "' p <- m ;; k" := (bind m (fun x => let p := x in k))
  (at level 61, p pattern, m at next level, right associativity) : py_scope.

Definition or_index_error {A : Type} (o : option A) : result A :=
  match o with
  | Some a => ret a
  | None => raise IndexError
  end.

(** The capabilities the pipeline consumes and does not implement: the
    sentence-transformer model, the FAISS flat inner-product index, and the
    numpy operations on 32-bit floats.  A call either returns or fails with
    a message; [external] turns the failure into the [ExternalError] that
    propagates through the pipeline. *)
Class Externals : Type := {
  F : Type;                                   (* np.float32 *)
  faiss_index : Type;                         (* faiss.IndexFlatIP *)
  (* np.asarray(embedder.encode(texts, normalize_embeddings=True)) *)
  encode : list pystr -> string + list (list F);
  IndexFlatIP : Z -> string + faiss_index;
  index_add : faiss_index -> list (list F) -> string + faiss_index;
  (* index.search(x, k) = (scores, ids), a row per query *)
  index_search :
    faiss_index -> list (list F) -> Z
    -> string + (list (list F) * list (list Z));
  ntotal : faiss_index -> Z;                  (* index.ntotal *)
  F_ge : F -> F -> bool;                      (* s >= min_score *)
  matvec : list (list F) -> list F -> string + list F;  (* S @ q *)
  argmax : list F -> string + Z;              (* int(np.argmax(sims)) *)
  fmt3 : F -> pystr                           (* f"{s:.3f}" *)
}.

Definition external {A : Type} (r : string + A) : result A :=
  match r with
  | inl msg => raise (ExternalError msg)
  | inr a => ret a
  end.

(** [str(n)] for an integer. *)
Definition str_of_int (n : Z) : pystr :=
  list_ascii_of_string (NilZero.string_of_int (Z.to_int n)).

(** [enumerate(l)] *)
Definition enumerate {A : Type} (l : list A) : list (Z * A) :=
  combine (map Z.of_nat (seq 0 (length l))) l.

(** The chunks of the whole corpus, as the first loop of [build_index]
    collects them: documents in the order of [docs.items()], the chunks
    of a document numbered from 0. *)
Definition collect_chunks (docs : list (pystr * pystr))
    (chunk_size_words overlap_words : Z) : list Chunk :=
  flat_map
    (fun '(doc_id, text) =>
       let pieces := sliding_window_chunk text chunk_size_words overlap_words in
       map (fun '(i, chunk_text) => mkChunk doc_id i chunk_text)
           (enumerate pieces))
    docs.

(** [text.splitlines()]: the line boundaries are LF, CR, CR LF, VT, FF, FS,
    GS and RS; no empty piece is reported after a final boundary. *)
Definition is_linebreak (c : ascii) : bool :=
  in_range 10 13 c || in_range 28 30 c.

Fixpoint splitlines_go (cur : pystr) (s : pystr) : list pystr :=
  match s with
  | [] => match cur with [] => [] | _ => [cur] end
  | c :: s' =>
      if is_linebreak c
      then
        match s' with
        | c2 :: s'' =>
            if (code c =? 13)%nat && (code c2 =? 10)%nat
            then cur :: splitlines_go [] s''
            else cur :: splitlines_go [] s'
        | [] => [cur]
        end
      else splitlines_go (cur ++ [c]) s'
  end.

Definition splitlines (text : pystr) : list pystr := splitlines_go [] text.

(** [(?<=[.!?])\s+] *)
Definition SENTENCE_END_RE : regex :=
  Cat (Behind (fun c => existsb (ascii_eqb c) (str ".!?"))) (Plus Space).

Definition is_empty {A : Type} (l : list A) : bool :=
  match l with
  | [] => true
  | _ => false
  end.

Definition _split_sentences (text : pystr) : list pystr :=
  let raw_lines := splitlines text in
  let final_sentences :=
    flat_map
      (fun line =>
         let line := strip line in
         if is_empty line then []
         else
           let pieces := re_split SENTENCE_END_RE line in
           map strip (filter (fun p => negb (is_empty (strip p))) pieces))
      raw_lines in
  match final_sentences with
  | [] => [strip text]
  | _ => final_sentences
  end.

Section Pipeline.

Context {E : Externals}.

(** The attributes of a [NaiveRAG] object that the methods assign; the
    embedder is fixed at construction and is part of [Externals]. *)
Record NaiveRAG : Type := mkNaiveRAG {
  index : option faiss_index;
  chunks : list Chunk;
  dim : option Z
}.

(** [NaiveRAG.__init__] *)
Definition init : NaiveRAG := mkNaiveRAG None [] None.

(** A method that assigns attributes of [self] and may raise: the object
    after the call is returned in both cases. *)
Definition method (A : Type) : Type := NaiveRAG -> result A * NaiveRAG.

Definition mret {A : Type} (a : A) : method A := fun self => (inr a, self).
Definition mraise {A : Type} (e : exn) : method A := fun self => (inl e, self).
Definition mbind {A B : Type} (m : method A) (k : A -> method B) : method B :=
  fun self =>
    match m self with
    | (inl e, self') => (inl e, self')
    | (inr a, self') => k a self'
    end.
Definition lift {A : Type} (r : result A) : method A := fun self => (r, self).
Definition get_self : method NaiveRAG := fun self => (inr self, self).
Definition set_chunks (cs : list Chunk) : method unit :=
  fun self => (inr tt, mkNaiveRAG (index self) cs (dim self)).
Definition set_dim (d : Z) : method unit :=
  fun self => (inr tt, mkNaiveRAG (index self) (chunks self) (Some d)).
Definition set_index (ix : faiss_index) : method unit :=
  fun self => (inr tt, mkNaiveRAG (Some ix) (chunks self) (dim self)).

Declare Scope method_scope.
Delimit Scope method_scope with method.
Notation "x <- m ;; k" := (mbind m (fun x => k))
  (at level 61, m at next level, right associativity) : method_scope.
Notation "m ;; k" := (mbind m (fun _ => k))
  (at level 61, right associativity) : method_scope.

(** [embs.shape[1]] of a two-dimensional array given by its rows. *)
Definition shape1 (embs : list (list F)) : result Z :=
  match embs with
  | row :: _ => ret (len row)
  | [] => raise IndexError
  end.

Definition no_chunks_msg : string :=
  "No chunks created. Check your documents / chunking params.".

Definition build_index (docs : list (pystr * pystr))
    (chunk_size_words overlap_words : Z) : method unit :=
  let all_chunks := collect_chunks docs chunk_size_words overlap_words in
  match all_chunks with
  | [] => mraise (ValueError no_chunks_msg)
  | _ =>
      (set_chunks all_chunks ;;
       self <- get_self ;;
       let texts := map text (chunks self) in
       embs <- lift (external (encode texts)) ;;
       d <- lift (shape1 embs) ;;
       set_dim d ;;
       ix <- lift (external (IndexFlatIP d)) ;;
       set_index ix ;;
       ix' <- lift (external (index_add ix embs)) ;;
       set_index ix')%method
  end.

Definition not_built_msg : string :=
  "Index not built. Call build_index() first.".

(** The loop of [retrieve] over [zip(ids[0], scores[0])]. *)
Fixpoint retrieve_loop (cs : list Chunk) (pairs : list (Z * F))
    (results : list (Chunk * F)) : result (list (Chunk * F)) :=
  match pairs with
  | [] => ret results
  | (idx, score) :: pairs' =>
      if idx =? -1 then retrieve_loop cs pairs' results
      else
        (c <- or_index_error (py_index cs idx) ;;
         retrieve_loop cs pairs' (results ++ [(c, score)]))%py
  end.

Definition retrieve (self : NaiveRAG) (query : pystr) (top_k : Z)
    : result (list (Chunk * F)) :=
  match index self with
  | None => raise (RuntimeError not_built_msg)
  | Some ix =>
      (q_emb <- external (encode [query]) ;;
       ' (scores, ids) <- external (index_search ix q_emb top_k) ;;
       ids0 <- or_index_error (py_index ids 0) ;;
       scores0 <- or_index_error (py_index scores 0) ;;
       retrieve_loop (chunks self) (combine ids0 scores0) [])%py
  end.

Definition _best_sentence (query text : pystr) : result pystr :=
  let sentences := _split_sentences text in
  match sentences with
  | [] => ret (strip text)
  | _ =>
      (q_emb <- external (encode [query]) ;;
       s_embs <- external (encode sentences) ;;
       q <- or_index_error (py_index q_emb 0) ;;
       sims <- external (matvec s_embs q) ;;
       best_idx <- external (argmax sims) ;;
       or_index_error (py_index sentences best_idx))%py
  end.

(** The [for c, s in retrieved] loop of [generate_extractive_answer]:
    the first pair whose score reaches [min_score], if any. *)
Fixpoint first_scoring (retrieved : list (Chunk * F)) (min_score : F)
    : option (Chunk * F) :=
  match retrieved with
  | [] => None
  | (c, s) :: retrieved' =>
      if F_ge s min_score then Some (c, s)
      else first_scoring retrieved' min_score
  end.

Definition choose (retrieved : list (Chunk * F)) (min_score : F)
    : option (Chunk * F) :=
  match first_scoring retrieved min_score with
  | Some chosen => Some chosen
  | None => nth_error retrieved 0
  end.

Definition context_entry (p : Chunk * F) : pystr :=
  let (c, s) := p in
  str "[" ++ doc_id c ++ str "#" ++ str_of_int (chunk_id c)
    ++ str " | score=" ++ fmt3 s ++ str "]" ++ [newline] ++ text c.

(** The report string: every retrieved chunk, then the chosen sentence. *)
Definition report_of (retrieved : list (Chunk * F)) (best_sentence : pystr)
    : pystr :=
  let context := join [newline; newline] (map context_entry retrieved) in
  str "Retrieved Context:" ++ [newline] ++ context
    ++ [newline; newline] ++ str "Chosen sentence: " ++ best_sentence.

(** What [generate_extractive_answer] does once [chosen] is fixed. *)
Definition answer_from (query : pystr) (retrieved : list (Chunk * F))
    (chosen : Chunk * F) : result (pystr * pystr) :=
  (best_sentence <- _best_sentence query (text (fst chosen)) ;;
   let qtype := detect_question_type query in
   let answer := extract_short_answer best_sentence qtype query in
   let report := report_of retrieved best_sentence in
   ret (answer, report))%py.

Definition generate_extractive_answer (query : pystr)
    (retrieved : list (Chunk * F)) (min_score : F) : result (pystr * pystr) :=
  match retrieved with
  | [] => ret ([], str "Retrieved Context: (none)")
  | _ =>
      (chosen <- or_index_error (choose retrieved min_score) ;;
       answer_from query retrieved chosen)%py
  end.

(** The contract of [index.search(x, k)] on the row of ids it returns for
    one query: [k] slots, each the sentinel -1 or the position of a stored
    vector, no position twice. *)
Definition search_contract (ix : faiss_index) (k : Z) (ids : list Z) : Prop :=
  len ids = k
  /\ Forall (fun i => i = -1 \/ 0 <= i < ntotal ix) ids
  /\ NoDup (filter (fun i => negb (i =? -1)) ids).

(** A slot of the search that is not the sentinel. *)
Definition real_slot (slot : Z * F) : bool := negb (fst slot =? -1).

(** The result pair that [retrieve] builds from one slot of the search. *)
Definition from_slot (cs : list Chunk) (slot : Z * F) (r : Chunk * F) : Prop :=
  fst slot <> -1 /\ py_index cs (fst slot) = Some (fst r) /\ snd r = snd slot.

End Pipeline.

(** ** A small instance of the external capabilities

    Vectors and scores are integers.  The embedder handles at most 400
    characters per call and fails on a larger batch; the index keeps its
    vectors in a list and ranks them by inner product. *)

Definition toy_embed (t : pystr) : list Z := [len t; 1].

Definition toy_encode (texts : list pystr) : string + list (list Z) :=
  if fold_right Z.add 0 (map len texts) <=? 400 then inr (map toy_embed texts)
  else inl "out of memory"%string.

Definition toy_dot (u v : list Z) : Z :=
  fold_right Z.add 0 (map (fun p => fst p * snd p) (combine u v)).

(** Insertion into a list ranked by descending score. *)
Fixpoint toy_insert (x : Z * Z) (l : list (Z * Z)) : list (Z * Z) :=
  match l with
  | [] => [x]
  | y :: l' => if fst y <? fst x then x :: l else y :: toy_insert x l'
  end.

Definition toy_rank (scored : list (Z * Z)) : list (Z * Z) :=
  fold_right toy_insert [] scored.

(** One row of a search: the best [k] of the stored vectors, padded with
    the sentinel id -1. *)
Definition toy_search_row (xb : list (list Z)) (k : Z) (q : list Z)
    : list (Z * Z) :=
  let scored := combine (map (toy_dot q) xb) (map Z.of_nat (seq 0 (length xb))) in
  let top := firstn (Z.to_nat k) (toy_rank scored) in
  top ++ repeat (- 2 ^ 100, -1) (Z.to_nat k - length top).

Definition toy_search (ix : Z * list (list Z)) (x : list (list Z)) (k : Z)
    : string + (list (list Z) * list (list Z)) :=
  if k <=? 0 then inl "k > 0"%string
  else
    let rows := map (toy_search_row (snd ix) k) x in
    inr (map (map fst) rows, map (map snd) rows).

Fixpoint toy_argmax (best : Z) (best_i i : Z) (l : list Z) : Z :=
  match l with
  | [] => best_i
  | x :: l' =>
      if best <? x then toy_argmax x i (i + 1) l'
      else toy_argmax best best_i (i + 1) l'
  end.

#[export] Instance toy : Externals := {|
  F := Z;
  faiss_index := Z * list (list Z);
  encode := toy_encode;
  IndexFlatIP := fun d => inr (d, []);
  index_add := fun ix embs => inr (fst ix, snd ix ++ embs);
  index_search := toy_search;
  ntotal := fun ix => len (snd ix);
  F_ge := Z.geb;
  matvec := fun S q => inr (map (fun row => toy_dot row q) S);
  argmax := fun sims =>
    match sims with
    | [] => inl "attempt to get argmax of an empty sequence"%string
    | x :: l => inr (toy_argmax x 0 1 l)
    end;
  fmt3 := str_of_int
|}.

(** A text of [n] copies of the word [w]. *)
Definition text_of (n : nat) (w : string) : pystr :=
  join (str " ") (repeat (str w) n).

Definition corpus_a : list (pystr * pystr) :=
  [(str "a.txt", text_of 30 "alpha"); (str "b.txt", text_of 35 "beta")].

Definition corpus_b : list (pystr * pystr) :=
  [(str "c.txt", text_of 100 "gamma")].


(** ** Further notions used to state properties *)

(** [str.isascii] on one character: the texts within the scope of the
    model are those of such characters. *)
Definition isascii (c : ascii) : bool := (code c <? 128)%nat.

(** [w] occurs in [s] as a contiguous piece. *)
Definition occurs_in {A : Type} (w s : list A) : Prop :=
  exists pre post, s = pre ++ w ++ post.

(** ** The callers of the facade *)

Section Callers.

Context {E : Externals}.

(** [[(c, s) for c, s in retrieved if s >= threshold]] *)
Definition score_filter (retrieved : list (Chunk * F)) (threshold : F)
    : list (Chunk * F) :=
  filter (fun p => F_ge (snd p) threshold) retrieved.

(** One round of the loop of [run_case_study_txt], from the retrieval to
    the call of the facade. *)
Definition case_study_answer (rag : NaiveRAG) (query : pystr) (top_k : Z)
    (min_retrieval_score : F) : result (pystr * pystr) :=
  (retrieved <- retrieve rag query top_k ;;
   let filtered := score_filter retrieved min_retrieval_score in
   generate_extractive_answer query
     (if negb (is_empty filtered) then filtered else retrieved)
     min_retrieval_score)%py.

(** The pipeline of the demo application (app.py) for one question;
    [zero] is the float 0.0, the threshold of its filter and the default
    [min_score] of the facade. *)
Definition app_answer (rag : NaiveRAG) (query : pystr) (top_k : Z) (zero : F)
    : result (pystr * pystr) :=
  (retrieved_chunks <- retrieve rag query top_k ;;
   let filtered := score_filter retrieved_chunks zero in
   generate_extractive_answer query filtered zero)%py.

(** The answer of a call of the facade, without the report. *)
Definition answer_of (r : result (pystr * pystr)) : result pystr :=
  (p <- r ;; ret (fst p))%py.

End Callers.

(** ** Notions for the properties of the extractor *)

(** The patterns that stand in a capturing group of [r]. *)
Fixpoint groups (r : regex) : list regex :=
  match r with
  | Cat r1 r2 => groups r1 ++ groups r2
  | Alt r1 r2 => groups r1 ++ groups r2
  | Star _ r' => groups r'
  | Grp r' => [r']
  | _ => []
  end.

(** Every match of [r] goes through a capturing group. *)
Fixpoint sets_group (r : regex) : bool :=
  match r with
  | Cat r1 r2 => sets_group r1 || sets_group r2
  | Alt r1 r2 => sets_group r1 && sets_group r2
  | Grp _ => true
  | _ => false
  end.

(** In going from [st] to [st'] the matcher leaves group 1 as it is, or
    sets it to a part [b] of the text it has read, matched there by one of
    the patterns [G]. *)
Definition captures_within (G : list regex) (st st' : mstate) : Prop :=
  cap st' = cap st
  \/ exists g a b c,
       In g G /\ rest st = a ++ b ++ c ++ rest st' /\ cap st' = Some b
       /\ mt g (rev a ++ before st) b (c ++ rest st').

Definition all_ascii : list ascii := map ascii_of_nat (seq 0 256).

(** Every match of [r] holds a character of the class [p]. *)
Fixpoint requires_char (p : ascii -> bool) (r : regex) : bool :=
  match r with
  | Cls q => forallb (fun c => implb (q c) (p c)) all_ascii
  | Cat r1 r2 => requires_char p r1 || requires_char p r2
  | Alt r1 r2 => requires_char p r1 && requires_char p r2
  | Grp r' => requires_char p r'
  | _ => false
  end.

(** The last character of [w] is of the class [p]. *)
Definition ends_with (p : ascii -> bool) (w : pystr) : Prop :=
  exists t e, w = t ++ [e] /\ p e = true.

(** A capitalised phrase: an upper-case letter, then letters and white
    space only. *)
Definition capitalised (a : pystr) : bool :=
  match a with
  | c :: t => isupper c && forallb (fun x => isalpha x || isspace x) t
  | [] => false
  end.

(** Line 87 of app.py, the provenance check of [dynamic_analysis]:
    [any(answer.lower() in c[0].text.lower() for c in retrieved_chunks)]. *)
Definition in_context {S : Type} (answer : pystr)
    (retrieved_chunks : list (Chunk * S)) : bool :=
  existsb (fun c => contains (lower answer) (lower (text (fst c))))
    retrieved_chunks.

(** ** answer_generator.py: normalize *)

(** [re.sub(r, repl, s)] for a pattern whose matches are never empty: the
    text with each of the successive matches replaced by [repl]. *)
Fixpoint sub_from (r : regex) (repl : pystr) (fuel : nat) (bef s : pystr)
    : pystr :=
  match fuel with
  | O => s
  | S fuel' =>
      match search_from r 0 bef s with
      | None => s
      | Some m =>
          firstn (m_start m) s ++ repl
            ++ sub_from r repl fuel' (before (m_stop m)) (rest (m_stop m))
      end
  end.

Definition re_sub (r : regex) (repl s : pystr) : pystr :=
  sub_from r repl (length s) [] s.

(** [[^\w\s]] *)
Definition PUNCT_RE : regex := Cls (fun c => negb (isword c || isspace c)).

(** [\s+] *)
Definition SPACES_RE : regex := Plus Space.

Definition normalize (text : pystr) : pystr :=
  let text := lower text in
  let text := re_sub PUNCT_RE [] text in
  strip (re_sub SPACES_RE (str " ") text).

(** The exact-match metric of [run_case_study_txt] and of evaluate.py:
    [norm_text(answer) == norm_text(expected)]. *)
Definition exact_match (answer expected : pystr) : bool :=
  pystr_eqb (normalize answer) (normalize expected).
(** ** Properties of the string operations *)

Lemma ascii_eqb_eq (a b : ascii) : ascii_eqb a b = true <-> a = b.
Proof. apply Ascii.eqb_eq. Qed.

Lemma startswith_iff (p s : pystr) :
  startswith p s = true <-> exists t, s = p ++ t.
Proof.
  revert s; induction p as [|a p IH]; intros s; simpl.
  - split; [intros _; exists s; reflexivity | reflexivity].
  - destruct s as [|b s]; simpl.
    + split; [discriminate | intros [t Ht]; discriminate].
    + rewrite andb_true_iff, ascii_eqb_eq, IH. split.
      * intros [-> [t ->]]. exists t; reflexivity.
      * intros [t Ht]. injection Ht as -> ->. split; [reflexivity | eauto].
Qed.

Lemma startswith_app (p t : pystr) : startswith p (p ++ t) = true.
Proof. apply startswith_iff; eauto. Qed.

(** ** The question classifier *)

Section Classifier.

Variable q : pystr.

Ltac clash H1 H2 :=
  apply startswith_iff in H1; apply startswith_iff in H2;
  destruct H1 as [t1 H1]; destruct H2 as [t2 H2];
  rewrite H1 in H2; discriminate H2.

Lemma who_excludes_others :
  startswith (str "who") q = true ->
  startswith (str "which") q = false /\ startswith (str "when") q = false
  /\ startswith (str "why") q = false.
Proof.
  intros H. repeat split.
  - destruct (startswith (str "which") q) eqn:H2; [clash H H2 | reflexivity].
  - destruct (startswith (str "when") q) eqn:H2; [clash H H2 | reflexivity].
  - destruct (startswith (str "why") q) eqn:H2; [clash H H2 | reflexivity].
Qed.

Lemma which_excludes_others :
  startswith (str "which") q = true ->
  startswith (str "when") q = false /\ startswith (str "why") q = false.
Proof.
  intros H. split.
  - destruct (startswith (str "when") q) eqn:H2; [clash H H2 | reflexivity].
  - destruct (startswith (str "why") q) eqn:H2; [clash H H2 | reflexivity].
Qed.

Lemma when_excludes_why :
  startswith (str "when") q = true -> startswith (str "why") q = false.
Proof.
  intros H.
  destruct (startswith (str "why") q) eqn:H2; [clash H H2 | reflexivity].
Qed.

End Classifier.

(** C2, as the code has it: the class is decided by the first characters of
    the trimmed, lower-cased question.  It is PERSON_OR_TEAM exactly when
    these are "who", ENTITY exactly when they are "which", DATE exactly when
    they are "when", REASON exactly when they are "why", and FACT exactly
    when none of the four is a prefix. *)
Theorem detect_question_type_by_prefix (question : pystr) :
  let q := strip (lower question) in
  (detect_question_type question = PERSON_OR_TEAM
     <-> startswith (str "who") q = true)
  /\ (detect_question_type question = ENTITY
     <-> startswith (str "which") q = true)
  /\ (detect_question_type question = DATE
     <-> startswith (str "when") q = true)
  /\ (detect_question_type question = REASON
     <-> startswith (str "why") q = true)
  /\ (detect_question_type question = FACT
     <-> startswith (str "who") q = false
         /\ startswith (str "which") q = false
         /\ startswith (str "when") q = false
         /\ startswith (str "why") q = false).
Proof.
  intros q. unfold detect_question_type. fold q.
  destruct (startswith (str "who") q) eqn:Hwho.
  { destruct (who_excludes_others q) as (-> & -> & ->); [assumption|].
    repeat split; intros; try discriminate; try tauto.
    destruct H as [H _]; discriminate H. }
  destruct (startswith (str "which") q) eqn:Hwhich.
  { destruct (which_excludes_others q) as (-> & ->); [assumption|].
    repeat split; intros; try discriminate; try tauto.
    destruct H as (_ & H & _); discriminate H. }
  destruct (startswith (str "when") q) eqn:Hwhen.
  { rewrite (when_excludes_why q) by assumption.
    repeat split; intros; try discriminate; try tauto.
    destruct H as (_ & _ & H & _); discriminate H. }
  destruct (startswith (str "why") q) eqn:Hwhy.
  { repeat split; intros; try discriminate; try tauto.
    destruct H as (_ & _ & _ & H); discriminate H. }
  repeat split; intros; try discriminate; try tauto.
Qed.

(** C2, as stated, fails: the leading word of "Whose bat is it?" is "whose",
    not "who", and the question is classified PERSON_OR_TEAM all the same. *)
Lemma whose_is_person_or_team :
  leading_word (str "Whose bat is it?") = str "whose"
  /\ leading_word (str "Whose bat is it?") <> str "who"
  /\ detect_question_type (str "Whose bat is it?") = PERSON_OR_TEAM.
Proof.
  repeat split; try reflexivity.
  vm_compute. discriminate.
Qed.

(** The examples of the specification. *)
Example classify_examples :
  detect_question_type (str "Who is the captain?") = PERSON_OR_TEAM
  /\ detect_question_type (str "Which group is it?") = ENTITY
  /\ detect_question_type (str "When does it start?") = DATE
  /\ detect_question_type (str "Why was it changed?") = REASON
  /\ detect_question_type (str "What time is it?") = FACT.
Proof. repeat split; reflexivity. Qed.

(** ** The chunker *)

Lemma len_nonneg {A : Type} (l : list A) : 0 <= len l.
Proof. unfold len; lia. Qed.

Lemma py_slice_inside {A : Type} (l : list A) (a b : Z) :
  0 <= a <= b -> b <= len l ->
  py_slice l a b = firstn (Z.to_nat (b - a)) (skipn (Z.to_nat a) l)
  /\ len (py_slice l a b) = b - a.
Proof.
  intros Ha Hb. unfold py_slice.
  destruct (a <? 0) eqn:Ea; [apply Z.ltb_lt in Ea; lia|].
  destruct (b <? 0) eqn:Eb; [apply Z.ltb_lt in Eb; lia|].
  rewrite !Z.min_l by lia. split; [reflexivity|].
  unfold len in *. rewrite length_firstn, length_skipn. lia.
Qed.

Lemma py_slice_len_le {A : Type} (l : list A) (a b : Z) :
  0 <= a -> 0 <= b -> len (py_slice l a b) <= Z.max 0 (b - a).
Proof.
  intros Ha Hb. unfold py_slice.
  destruct (a <? 0) eqn:Ea; [apply Z.ltb_lt in Ea; lia|].
  destruct (b <? 0) eqn:Eb; [apply Z.ltb_lt in Eb; lia|].
  unfold len. rewrite length_firstn. lia.
Qed.

Lemma In_firstn {A : Type} (n : nat) (l : list A) (x : A) :
  In x (firstn n l) -> In x l.
Proof.
  intros H. rewrite <- (firstn_skipn n l). apply in_or_app. left; exact H.
Qed.

Lemma In_skipn {A : Type} (n : nat) (l : list A) (x : A) :
  In x (skipn n l) -> In x l.
Proof.
  intros H. rewrite <- (firstn_skipn n l). apply in_or_app. right; exact H.
Qed.

Lemma py_slice_incl {A : Type} (l : list A) (a b : Z) (x : A) :
  In x (py_slice l a b) -> In x l.
Proof.
  unfold py_slice. intros H.
  apply In_firstn in H. apply In_skipn in H. exact H.
Qed.

Lemma window_len_le (words : list pystr) (size step : Z) (i : nat) :
  0 < size -> 0 <= step -> len (window words size step i) <= size.
Proof.
  intros Hs Hst. unfold window.
  pose proof (len_nonneg words).
  etransitivity; [apply py_slice_len_le; nia|]. nia.
Qed.

(** With a chunk size below 30 the first candidate window is already
    shorter than the floor, whatever the overlap. *)
Lemma sliding_window_chunk_small (text : pystr) (size overlap : Z) :
  0 < size < 30 -> sliding_window_chunk text size overlap = [].
Proof.
  intros Hs. unfold sliding_window_chunk.
  destruct (split text) as [|w ws] eqn:Hw; [reflexivity|].
  set (words := w :: ws). set (step := Z.max 1 (size - overlap)).
  unfold py_range.
  assert (Hn : 0 < len words) by (unfold len, words; simpl; lia).
  destruct (Z.to_nat (len words)) as [|f] eqn:Hf; [lia|].
  cbn [range_from].
  destruct (0 <? len words) eqn:E; [|apply Z.ltb_ge in E; lia].
  cbn [chunk_loop].
  assert (Hlen : len (py_slice words 0 (Z.min (len words) (0 + size))) <= size).
  { etransitivity; [apply py_slice_len_le; lia|]. lia. }
  destruct (len (py_slice words 0 (Z.min (len words) (0 + size)))
            <? Z.max 30 (size / 4)) eqn:E2; [reflexivity|].
  apply Z.ltb_ge in E2. lia.
Qed.

(** *** Words survive [join] and [split] *)

Lemma split_go_tokens (s cur : pystr) :
  forallb (fun c => negb (isspace c)) cur = true ->
  Forall is_token (split_go cur s).
Proof.
  revert cur; induction s as [|c s IH]; intros cur Hcur; simpl.
  - destruct cur; constructor; [split; [discriminate | assumption] | constructor].
  - destruct (isspace c) eqn:Hc.
    + destruct cur as [|c0 cur].
      * apply IH; reflexivity.
      * constructor; [split; [discriminate | assumption] | apply IH; reflexivity].
    + apply IH. rewrite forallb_app, Hcur. simpl. rewrite Hc. reflexivity.
Qed.

Lemma split_tokens (text : pystr) : Forall is_token (split text).
Proof. apply split_go_tokens; reflexivity. Qed.

Lemma split_go_word (w cur tail : pystr) :
  forallb (fun c => negb (isspace c)) w = true ->
  split_go cur (w ++ tail) = split_go (cur ++ w) tail.
Proof.
  revert cur; induction w as [|c w IH]; intros cur Hw; simpl.
  - rewrite app_nil_r; reflexivity.
  - simpl in Hw. apply andb_true_iff in Hw as [Hc Hw].
    apply negb_true_iff in Hc. rewrite Hc, IH by assumption.
    rewrite <- app_assoc. reflexivity.
Qed.

Lemma split_join (ws : list pystr) :
  Forall is_token ws -> split (join (str " ") ws) = ws.
Proof.
  unfold split. induction ws as [|w ws IH]; intros H; [reflexivity|].
  inversion H as [|? ? [Hne Hw] Hws]; subst.
  destruct ws as [|w2 ws].
  - simpl. rewrite <- (app_nil_r w) at 1.
    rewrite split_go_word by assumption. simpl.
    destruct w; [contradiction Hne; reflexivity | reflexivity].
  - change (join (str " ") (w :: w2 :: ws))
      with (w ++ str " " ++ join (str " ") (w2 :: ws)).
    rewrite split_go_word by assumption. simpl app at 1.
    change (str " " ++ join (str " ") (w2 :: ws))
      with (" "%char :: join (str " ") (w2 :: ws)).
    cbn [split_go]. change (isspace " ") with true. cbv iota.
    destruct w as [|c w]; [contradiction Hne; reflexivity|].
    f_equal. apply IH. assumption.
Qed.

Lemma window_tokens (text : pystr) (size step : Z) (i : nat) :
  Forall is_token (window (split text) size step i).
Proof.
  apply Forall_forall. intros w Hw. unfold window in Hw.
  apply py_slice_incl in Hw.
  exact (proj1 (Forall_forall _ _) (split_tokens text) w Hw).
Qed.

(** *** The scan *)

Section Scan.

Variables (words : list pystr) (size step : Z).
Hypothesis size_pos : 0 < size.
Hypothesis step_ok : 1 <= step <= size.

Lemma window_len (i : nat) :
  Z.of_nat i * step < (len words) ->
  len (window words size step i)
  = Z.min (len words) (Z.of_nat i * step + size) - Z.of_nat i * step.
Proof.
  intros Hi. unfold window. apply py_slice_inside; nia.
Qed.

(** The loop from the [k]-th start onwards, given that this start lies
    inside the document. *)
Lemma chunk_loop_scan (fuel k : nat) (acc : list pystr) :
  Z.of_nat k * step < (len words) ->
  (len words) - Z.of_nat k * step <= Z.of_nat fuel ->
  exists m : nat,
    chunk_loop words size (range_from fuel (Z.of_nat k * step) (len words) step) acc
    = acc ++ map (fun i => join (str " ") (window words size step i)) (seq k m)
    /\ (forall i, (k <= i < k + m)%nat ->
          Z.of_nat i * step < (len words)
          /\ floor_words size <= len (window words size step i))
    /\ (forall i, (k <= i)%nat -> (i + 1 < k + m)%nat ->
          Z.of_nat i * step + size < (len words))
    /\ ((Z.of_nat (k + m) * step < (len words)
         /\ len (window words size step (k + m)) < floor_words size)
        \/ ((1 <= m)%nat /\ (len words) <= Z.of_nat (k + m - 1) * step + size)).
Proof.
  revert k acc; induction fuel as [|fuel IH]; intros k acc Hk Hfuel; [lia|].
  cbn [range_from].
  destruct (Z.of_nat k * step <? len words) eqn:E; [|apply Z.ltb_ge in E; lia].
  cbn [chunk_loop]. fold (window words size step k). fold (floor_words size).
  destruct (len (window words size step k) <? floor_words size) eqn:Hshort.
  - apply Z.ltb_lt in Hshort. exists 0%nat. rewrite Nat.add_0_r.
    simpl. rewrite app_nil_r.
    refine (conj eq_refl (conj _ (conj _ _))).
    + intros i Hi; lia.
    + intros i Hi1 Hi2; lia.
    + left; split; assumption.
  - apply Z.ltb_ge in Hshort.
    destruct (Z.min (len words) (Z.of_nat k * step + size) >=? len words)
      eqn:Hend.
    + apply Z.geb_le in Hend. exists 1%nat. simpl.
      refine (conj eq_refl (conj _ (conj _ _))).
      * intros i Hi. assert (i = k) by lia. subst i. split; assumption.
      * intros i Hi1 Hi2; lia.
      * right. split; [lia|]. replace (k + 1 - 1)%nat with k by lia. lia.
    + assert (Hin : Z.of_nat k * step + size < len words).
      { destruct (Z.geb_spec (Z.min (len words) (Z.of_nat k * step + size))
                             (len words)); [discriminate | lia]. }
      replace (Z.of_nat k * step + step) with (Z.of_nat (S k) * step) by lia.
      destruct (IH (S k) (acc ++ [join (str " ") (window words size step k)]))
        as (m & Heq & Hall & Hmid & Hstop); [lia | lia |].
      exists (S m). rewrite Heq.
      refine (conj _ (conj _ (conj _ _))).
      * rewrite <- app_assoc. reflexivity.
      * intros i Hi.
        destruct (Nat.eq_dec i k) as [->|Hne]; [split; assumption|].
        apply Hall; lia.
      * intros i Hi1 Hi2.
        destruct (Nat.eq_dec i k) as [->|Hne]; [assumption|].
        apply Hmid; lia.
      * replace (k + S m)%nat with (S k + m)%nat by lia.
        destruct Hstop as [Hstop | [Hm Hstop]]; [left; exact Hstop|].
        right. split; [lia|].
        replace (S k + m - 1)%nat with (S k + m - 1)%nat by lia. exact Hstop.
Qed.

End Scan.

(** C3: for a positive chunk size and an overlap below it, a text without
    words yields no chunk; otherwise the chunks are the candidate windows
    number 0 to m-1, window i starting at word offset i * step with
    step = size - overlap, each emitted chunk holding between
    max(30, size // 4) and size words, no emitted window but the last
    reaching the end of the document, and the scan stopping either at
    candidate m, which is shorter than the floor, or at window m-1, which
    reaches the end of the document. *)
Theorem sliding_window_discipline (text : pystr) (size overlap : Z) :
  0 < size -> 0 <= overlap < size ->
  let words := split text in
  let step := size - overlap in
  (words = [] -> sliding_window_chunk text size overlap = [])
  /\ (words <> [] ->
      exists m : nat,
        sliding_window_chunk text size overlap
        = map (fun i => join (str " ") (window words size step i)) (seq 0 m)
        /\ (forall i, (i < m)%nat ->
              let chunk := join (str " ") (window words size step i) in
              Z.of_nat i * step < len words
              /\ split chunk = window words size step i
              /\ floor_words size <= len (split chunk) <= size)
        /\ (forall i, (i + 1 < m)%nat -> Z.of_nat i * step + size < len words)
        /\ ((Z.of_nat m * step < len words
             /\ len (window words size step m) < floor_words size)
            \/ ((1 <= m)%nat
                /\ len words <= Z.of_nat (m - 1) * step + size))).
Proof.
  intros Hsize Hov words step. split.
  - intros Hw. unfold sliding_window_chunk. fold words. rewrite Hw. reflexivity.
  - intros Hne. unfold sliding_window_chunk. fold words.
    destruct words as [|w ws] eqn:Hw; [contradiction Hne; reflexivity|].
    rewrite <- Hw. rewrite Z.max_r by lia. fold step. unfold py_range.
    assert (Hn : 0 < len words) by (rewrite Hw; unfold len; simpl; lia).
    destruct (chunk_loop_scan words (size := size) (step := step)
                ltac:(unfold step; lia) (Z.to_nat (len words)) 0 [])
      as (m & Heq & Hall & Hmid & Hstop); [lia | lia |].
    exists m. simpl in Heq. rewrite Heq. simpl in Hstop.
    refine (conj eq_refl (conj _ (conj _ _))).
    + intros i Hi. cbv zeta.
      set (chunk := join (str " ") (window words size step i)).
      destruct (Hall i) as [Hin Hfloor]; [lia|].
      assert (Hsplit : split chunk = window words size step i).
      { unfold chunk, words. apply split_join, window_tokens. }
      rewrite Hsplit. repeat split; try assumption.
      apply window_len_le; [assumption | unfold step; lia].
    + intros i Hi. apply Hmid; lia.
    + exact Hstop.
Qed.

Lemma sliding_window_discipline_witness :
  0 < 40 /\ 0 <= 15 < 40
  /\ exists m : nat,
       sliding_window_chunk (text_of 61 "w") 40 15
       = map (fun i =>
                join (str " ") (window (split (text_of 61 "w")) 40 (40 - 15) i))
             (seq 0 m).
Proof.
  split; [lia|]. split; [lia|].
  destruct (sliding_window_discipline (text_of 61 "w") (size := 40)
              (overlap := 15) ltac:(lia) ltac:(lia)) as [_ H].
  destruct H as (m & Heq & _); [vm_compute; discriminate|].
  exists m. exact Heq.
Defined.

(** ** The index *)

Section PipelineFacts.

Context {E : Externals}.

Lemma collect_chunks_small (docs : list (pystr * pystr)) (size overlap : Z) :
  0 < size < 30 -> collect_chunks docs size overlap = [].
Proof.
  intros Hs. unfold collect_chunks.
  induction docs as [|[d t] docs IH]; [reflexivity|].
  simpl. rewrite IH, sliding_window_chunk_small by assumption. reflexivity.
Qed.

(** When chunking yields nothing, [build_index] raises its configuration
    error and assigns no attribute. *)
Lemma build_index_no_chunks (docs : list (pystr * pystr)) (size overlap : Z)
    (self : NaiveRAG) :
  collect_chunks docs size overlap = [] ->
  build_index docs size overlap self = (inl (ValueError no_chunks_msg), self).
Proof.
  intros H. unfold build_index. rewrite H. reflexivity.
Qed.

(** C10: with a chunk size between 1 and 29 every text yields no chunk,
    whatever the overlap, and [build_index] raises its configuration error
    for every corpus. *)
Theorem small_chunk_size_builds_nothing (size overlap : Z) :
  0 < size < 30 ->
  (forall text : pystr, sliding_window_chunk text size overlap = [])
  /\ (forall (docs : list (pystr * pystr)) (self : NaiveRAG),
        build_index docs size overlap self
        = (inl (ValueError no_chunks_msg), self)).
Proof.
  intros Hs. split.
  - intros text. apply sliding_window_chunk_small; assumption.
  - intros docs self. apply build_index_no_chunks, collect_chunks_small.
    assumption.
Qed.

End PipelineFacts.

Lemma small_chunk_size_builds_nothing_witness :
  0 < 29 < 30
  /\ sliding_window_chunk (text_of 61 "w") 29 5 = []
  /\ build_index (E := toy) corpus_a 29 5 init
     = (inl (ValueError no_chunks_msg), init).
Proof.
  split; [lia|].
  destruct (small_chunk_size_builds_nothing (E := toy) (size := 29) 5
              ltac:(lia)) as [H1 H2].
  split; [apply H1 | apply H2].
Defined.

(** ** The retriever *)

Lemma filter_combine_le {A B : Type} (f : A -> bool) (l1 : list A)
    (l2 : list B) :
  (length (filter (fun p => f (fst p)) (combine l1 l2))
   <= length (filter f l1))%nat.
Proof.
  revert l2; induction l1 as [|a l1 IH]; intros l2; [simpl; lia|].
  destruct l2 as [|b l2]; [simpl; lia|].
  simpl. specialize (IH l2). destruct (f a); simpl; lia.
Qed.

Lemma filter_length_le {A : Type} (f : A -> bool) (l : list A) :
  (length (filter f l) <= length l)%nat.
Proof. induction l as [|a l IH]; simpl; [lia|]. destruct (f a); simpl; lia. Qed.

(** Pigeonhole: distinct positions below [n] are at most [n]. *)
Lemma nodup_bounded (l : list Z) (n : Z) :
  0 <= n -> NoDup l -> Forall (fun i => 0 <= i < n) l -> len l <= n.
Proof.
  intros Hn Hnd Hall.
  assert (Hincl : incl l (map Z.of_nat (seq 0 (Z.to_nat n)))).
  { intros i Hi. apply (proj1 (Forall_forall _ _) Hall) in Hi.
    cbv beta in Hi. apply in_map_iff. exists (Z.to_nat i). split; [lia|].
    apply in_seq. lia. }
  apply (NoDup_incl_length Hnd) in Hincl.
  rewrite length_map, length_seq in Hincl. unfold len. lia.
Qed.

Section RetrieverFacts.

Context {E : Externals}.

(** The loop keeps one result per slot that is not the sentinel, in the
    order of the slots. *)
Lemma retrieve_loop_ok (cs : list Chunk) (pairs : list (Z * F))
    (acc results : list (Chunk * F)) :
  retrieve_loop cs pairs acc = inr results ->
  exists new,
    results = acc ++ new
    /\ Forall2 (from_slot cs) (filter real_slot pairs) new.
Proof.
  revert acc; induction pairs as [|[idx score] pairs IH]; intros acc H.
  - injection H as <-. exists []. rewrite app_nil_r. split; constructor.
  - cbn [retrieve_loop] in H. unfold real_slot at 1. cbn [filter fst].
    destruct (idx =? -1) eqn:Hidx; cbn [negb].
    + apply IH; assumption.
    + destruct (py_index cs idx) as [c|] eqn:Hc; [|discriminate H].
      cbn in H. apply IH in H as (new & -> & Hnew).
      exists ((c, score) :: new). rewrite <- app_assoc. split; [reflexivity|].
      constructor; [|assumption].
      repeat split; [apply Z.eqb_neq; assumption | assumption].
Qed.

(** The loop cannot fail when every slot is the sentinel or a position of
    the chunk list. *)
Lemma retrieve_loop_total (cs : list Chunk) (pairs : list (Z * F))
    (acc : list (Chunk * F)) :
  Forall (fun p => fst p = -1 \/ 0 <= fst p < len cs) pairs ->
  exists results, retrieve_loop cs pairs acc = inr results.
Proof.
  revert acc; induction pairs as [|[idx score] pairs IH]; intros acc H.
  - exists acc; reflexivity.
  - inversion H as [|? ? Hidx Hrest]; subst. cbn [retrieve_loop].
    destruct (idx =? -1) eqn:E1; [apply IH; assumption|].
    apply Z.eqb_neq in E1. cbn [fst] in Hidx.
    destruct Hidx as [Hidx | Hidx]; [contradiction|].
    unfold py_index.
    destruct ((0 <=? idx) && (idx <? len cs)) eqn:E2.
    + destruct (nth_error cs (Z.to_nat idx)) as [c|] eqn:Hc.
      * cbn. apply IH; assumption.
      * apply nth_error_None in Hc. unfold len in Hidx. lia.
    + apply andb_false_iff in E2 as [E2 | E2];
        [apply Z.leb_gt in E2 | apply Z.ltb_ge in E2]; lia.
Qed.

Lemma retrieve_loop_sentinels (cs : list Chunk) (pairs : list (Z * F))
    (acc : list (Chunk * F)) :
  Forall (fun p => fst p = -1) pairs -> retrieve_loop cs pairs acc = inr acc.
Proof.
  induction pairs as [|[idx score] pairs IH]; intros H; [reflexivity|].
  inversion H as [|? ? Hidx Hrest]; subst. cbn [fst] in Hidx. subst idx.
  cbn [retrieve_loop]. change (-1 =? -1) with true. cbv iota.
  apply IH; assumption.
Qed.

Lemma Forall_combine_fst {B : Type} (P : Z -> Prop) (l1 : list Z)
    (l2 : list B) :
  Forall P l1 -> Forall (fun p => P (fst p)) (combine l1 l2).
Proof.
  revert l2; induction l1 as [|a l1 IH]; intros l2 H; [constructor|].
  destruct l2 as [|b l2]; [constructor|].
  inversion H; subst. constructor; [assumption | apply IH; assumption].
Qed.

(** What [retrieve] computes once the two external calls have returned. *)
Lemma retrieve_unfold (self : NaiveRAG) (query : pystr) (top_k : Z)
    (ix : faiss_index) (q_emb scores : list (list F)) (ids : list (list Z))
    (ids0 : list Z) (scores0 : list F) :
  index self = Some ix ->
  encode [query] = inr q_emb ->
  index_search ix q_emb top_k = inr (scores, ids) ->
  py_index ids 0 = Some ids0 ->
  py_index scores 0 = Some scores0 ->
  retrieve self query top_k
  = retrieve_loop (chunks self) (combine ids0 scores0) [].
Proof.
  intros Hix Henc Hsearch Hids Hscores. unfold retrieve.
  rewrite Hix, Henc. cbn. rewrite Hsearch. cbn.
  rewrite Hids. cbn. rewrite Hscores. reflexivity.
Qed.

Lemma filter_combine_fst {B : Type} (f : Z -> bool) (l1 : list Z)
    (l2 : list B) :
  map fst (filter (fun p => f (fst p)) (combine l1 l2))
  = filter f (firstn (length l2) l1).
Proof.
  revert l2; induction l1 as [|a l1 IH]; intros l2;
    [destruct l2; reflexivity|].
  destruct l2 as [|b l2]; [reflexivity|].
  cbn. destruct (f a); cbn; rewrite IH; reflexivity.
Qed.

Lemma NoDup_filter_firstn (f : Z -> bool) (n : nat) (l : list Z) :
  NoDup (filter f l) -> NoDup (filter f (firstn n l)).
Proof.
  intros H. rewrite <- (firstn_skipn n l), filter_app in H.
  exact (NoDup_app_remove_r _ _ H).
Qed.

Lemma py_index_some_nonneg {A : Type} (l : list A) (i : Z) (x : A) :
  0 <= i -> py_index l i = Some x -> i < len l.
Proof.
  intros Hi. unfold py_index.
  destruct ((0 <=? i) && (i <? len l)) eqn:Hb.
  - apply andb_true_iff in Hb as [_ Hb]. apply Z.ltb_lt in Hb.
    intros _; exact Hb.
  - destruct ((- len l <=? i) && (i <? 0)) eqn:Hb2; [|discriminate].
    apply andb_true_iff in Hb2 as [_ Hb2]. apply Z.ltb_lt in Hb2. lia.
Qed.

Lemma Forall2_In_l {A B : Type} (R : A -> B -> Prop) (l1 : list A)
    (l2 : list B) (a : A) :
  Forall2 R l1 l2 -> In a l1 -> exists b, In b l2 /\ R a b.
Proof.
  induction 1 as [|x y l1 l2 Hxy _ IH]; intros Hin; [destruct Hin|].
  destruct Hin as [<- | Hin].
  - exists y. split; [left; reflexivity | exact Hxy].
  - destruct (IH Hin) as (b & Hb & Hab). exists b. split; [right|]; assumption.
Qed.

(** C6: for a search whose row of ids meets the contract of the vector
    index, the sequence that [retrieve] returns has at most
    min(top_k, number of chunks) pairs, and these pairs are, in order, the
    slots of the search whose id is not the sentinel -1. *)
Theorem retrieve_result_bound (self : NaiveRAG) (query : pystr) (top_k : Z)
    (ix : faiss_index) (q_emb scores : list (list F)) (ids : list (list Z))
    (ids0 : list Z) (scores0 : list F) (results : list (Chunk * F)) :
  index self = Some ix ->
  encode [query] = inr q_emb ->
  index_search ix q_emb top_k = inr (scores, ids) ->
  py_index ids 0 = Some ids0 ->
  py_index scores 0 = Some scores0 ->
  search_contract ix top_k ids0 ->
  retrieve self query top_k = inr results ->
  len results <= Z.min top_k (len (chunks self))
  /\ Forall2 (from_slot (chunks self))
             (filter real_slot (combine ids0 scores0)) results.
Proof.
  intros Hix Henc Hsearch Hids Hscores (Hk & Hrange & Hnodup) Hres.
  rewrite (retrieve_unfold self query top_k Hix Henc Hsearch Hids Hscores)
    in Hres.
  apply retrieve_loop_ok in Hres as (new & -> & Hnew). cbn [app].
  split; [|assumption].
  set (kept := filter real_slot (combine ids0 scores0)) in *.
  assert (Hlen : length new = length (map fst kept))
    by (rewrite length_map; symmetry; exact (Forall2_length Hnew)).
  assert (Hfst : map fst kept
                 = filter (fun i => negb (i =? -1)) (firstn (length scores0) ids0))
    by apply (filter_combine_fst (fun i => negb (i =? -1))).
  assert (H1 : (length (map fst kept) <= length ids0)%nat).
  { rewrite Hfst. etransitivity; [apply filter_length_le|].
    rewrite length_firstn. lia. }
  assert (H2 : len (map fst kept) <= len (chunks self)).
  { apply nodup_bounded; [apply len_nonneg | |].
    - rewrite Hfst. apply NoDup_filter_firstn. exact Hnodup.
    - apply Forall_forall. intros i Hi.
      assert (Hi0 : In i ids0 /\ i <> -1).
      { rewrite Hfst in Hi. apply filter_In in Hi as [Hi Hreal].
        apply In_firstn in Hi. apply negb_true_iff, Z.eqb_neq in Hreal. auto. }
      destruct Hi0 as [Hi0 Hne].
      apply (proj1 (Forall_forall _ _) Hrange) in Hi0. cbv beta in Hi0.
      assert (Hge : 0 <= i) by lia. split; [exact Hge|].
      apply in_map_iff in Hi as (slot & <- & Hslot).
      destruct (@Forall2_In_l _ _ _ _ _ slot Hnew Hslot) as (r & _ & _ & Hr & _).
      eapply py_index_some_nonneg; eassumption. }
  unfold len in *. lia.
Qed.

(** C7, as the code has it: [retrieve] raises its state error exactly when
    no index has been built.  When an index exists, the two external calls
    return and the ids of the search are the sentinel or positions of the
    chunk list, [retrieve] returns a result; it is empty when every slot
    is the sentinel. *)
Theorem retrieve_raises_iff_no_index (self : NaiveRAG) (query : pystr)
    (top_k : Z) :
  ((exists msg, retrieve self query top_k = inl (RuntimeError msg))
   <-> index self = None)
  /\ (forall (ix : faiss_index) (q_emb scores : list (list F))
        (ids : list (list Z)) (ids0 : list Z) (scores0 : list F),
        index self = Some ix ->
        encode [query] = inr q_emb ->
        index_search ix q_emb top_k = inr (scores, ids) ->
        py_index ids 0 = Some ids0 ->
        py_index scores 0 = Some scores0 ->
        Forall (fun i => i = -1 \/ 0 <= i < len (chunks self)) ids0 ->
        (exists results, retrieve self query top_k = inr results)
        /\ (Forall (fun i => i = -1) ids0
            -> retrieve self query top_k = inr [])).
Proof.
  split.
  - split.
    + intros [msg H]. unfold retrieve in H.
      destruct (index self) as [ix|]; [|reflexivity]. exfalso.
      destruct (encode [query]) as [e|q_emb]; [discriminate H|]. cbn in H.
      destruct (index_search ix q_emb top_k) as [e|[scores ids]];
        [discriminate H|]. cbn in H.
      destruct (py_index ids 0) as [ids0|]; [|discriminate H]. cbn in H.
      destruct (py_index scores 0) as [scores0|]; [|discriminate H]. cbn in H.
      revert H. generalize (@nil (Chunk * F)).
      induction (combine ids0 scores0) as [|[idx score] pairs IH];
        intros acc H; [discriminate H|].
      cbn [retrieve_loop] in H.
      destruct (idx =? -1); [exact (IH _ H)|].
      destruct (py_index (chunks self) idx); [|discriminate H].
      exact (IH _ H).
    + intros H. exists not_built_msg. unfold retrieve. rewrite H. reflexivity.
  - intros ix q_emb scores ids ids0 scores0 Hix Henc Hsearch Hids Hscores Hok.
    rewrite (retrieve_unfold self query top_k Hix Henc Hsearch Hids Hscores).
    split.
    + apply retrieve_loop_total.
      apply Forall_combine_fst
        with (P := fun i => i = -1 \/ 0 <= i < len (chunks self)).
      assumption.
    + intros Hall. apply retrieve_loop_sentinels.
      apply Forall_combine_fst with (P := fun i => i = -1). assumption.
Qed.

End RetrieverFacts.

Lemma retrieve_result_bound_witness :
  let self := snd (build_index (E := toy) corpus_a 100 20 init) in
  exists results,
    retrieve self (str "alpha alpha") 3 = inr results
    /\ len results <= Z.min 3 (len (chunks self))
    /\ len results = 2.
Proof.
  intros self. eexists. split; [vm_compute; reflexivity|].
  split; [|reflexivity].
  eapply (@retrieve_result_bound toy self (str "alpha alpha") 3).
  - vm_compute; reflexivity.
  - vm_compute; reflexivity.
  - vm_compute; reflexivity.
  - vm_compute; reflexivity.
  - vm_compute; reflexivity.
  - unfold search_contract. split; [reflexivity|]. split.
    + apply Forall_forall. intros i Hi. simpl in Hi.
      destruct Hi as [<-|[<-|[<-|[]]]];
        first [left; reflexivity
              | right; split; vm_compute; [discriminate | reflexivity]].
    + vm_compute. repeat constructor; simpl; intuition discriminate.
  - vm_compute; reflexivity.
Defined.

Lemma retrieve_raises_iff_no_index_witness :
  (exists msg,
     retrieve (E := toy) init (str "alpha alpha") 3 = inl (RuntimeError msg))
  /\ (exists results,
        retrieve (snd (build_index (E := toy) corpus_a 100 20 init))
                 (str "alpha alpha") 3 = inr results).
Proof.
  split.
  - apply (proj1 (retrieve_raises_iff_no_index (E := toy) init
                    (str "alpha alpha") 3)). reflexivity.
  - eapply (proj2 (retrieve_raises_iff_no_index (E := toy)
                     (snd (build_index (E := toy) corpus_a 100 20 init))
                     (str "alpha alpha") 3)).
    + vm_compute; reflexivity.
    + vm_compute; reflexivity.
    + vm_compute; reflexivity.
    + vm_compute; reflexivity.
    + vm_compute; reflexivity.
    + apply Forall_forall. intros i Hi. simpl in Hi.
      destruct Hi as [<-|[<-|[<-|[]]]];
        first [left; reflexivity
              | right; split; vm_compute; [discriminate | reflexivity]].
Defined.

(** ** The pipeline facade *)

Section FacadeFacts.

Context {E : Externals}.

Lemma first_scoring_some (retrieved : list (Chunk * F)) (min_score : F)
    (chosen : Chunk * F) :
  first_scoring retrieved min_score = Some chosen ->
  exists pre post,
    retrieved = pre ++ chosen :: post
    /\ F_ge (snd chosen) min_score = true
    /\ Forall (fun p => F_ge (snd p) min_score = false) pre.
Proof.
  induction retrieved as [|[c s] retrieved IH]; intros H; [discriminate H|].
  cbn [first_scoring] in H. destruct (F_ge s min_score) eqn:Hs.
  - injection H as <-. exists [], retrieved. repeat split; [assumption | constructor].
  - destruct (IH H) as (pre & post & -> & Hge & Hpre).
    exists ((c, s) :: pre), post. repeat split; [assumption|].
    constructor; assumption.
Qed.

Lemma first_scoring_none (retrieved : list (Chunk * F)) (min_score : F) :
  first_scoring retrieved min_score = None ->
  Forall (fun p => F_ge (snd p) min_score = false) retrieved.
Proof.
  induction retrieved as [|[c s] retrieved IH]; intros H; [constructor|].
  cbn [first_scoring] in H. destruct (F_ge s min_score) eqn:Hs;
    [discriminate H|].
  constructor; [assumption | apply IH; assumption].
Qed.

(** C5: on an empty retrieval result the facade returns the empty answer
    and the fixed report, without error.  On a non-empty one, sentence
    selection and extraction run on the text of one chosen pair: the first
    pair, in the given order, whose score is >= min_score, or the first
    pair overall when no score qualifies. *)
Theorem generate_extractive_answer_choice (query : pystr)
    (first : Chunk * F) (others : list (Chunk * F)) (min_score : F) :
  generate_extractive_answer query [] min_score
  = inr ([], str "Retrieved Context: (none)")
  /\ let retrieved := first :: others in
     exists (chosen : Chunk * F) (pre post : list (Chunk * F)),
       retrieved = pre ++ chosen :: post
       /\ Forall (fun p => F_ge (snd p) min_score = false) pre
       /\ (F_ge (snd chosen) min_score = true
           \/ (pre = []
               /\ Forall (fun p => F_ge (snd p) min_score = false) retrieved))
       /\ generate_extractive_answer query retrieved min_score
          = bind (_best_sentence query (text (fst chosen)))
              (fun best_sentence =>
                 ret (extract_short_answer best_sentence
                        (detect_question_type query) query,
                      report_of retrieved best_sentence)).
Proof.
  split; [reflexivity|]. intros retrieved.
  unfold generate_extractive_answer, choose. fold retrieved.
  destruct (first_scoring retrieved min_score) as [chosen|] eqn:Hfs.
  - destruct (first_scoring_some _ _ Hfs) as (pre & post & Heq & Hge & Hpre).
    exists chosen, pre, post.
    refine (conj Heq (conj Hpre (conj (or_introl Hge) _))).
    rewrite Heq. destruct pre; reflexivity.
  - exists first, [], others.
    refine (conj eq_refl (conj (Forall_nil _) (conj (or_intror _) eq_refl))).
    split; [reflexivity | apply first_scoring_none; assumption].
Qed.

(** ** Building the index *)

(** A successful [build_index] leaves the new chunk list, the observed
    dimension and the index loaded with the embeddings. *)
Lemma build_index_success (docs : list (pystr * pystr)) (size overlap : Z)
    (self self' : NaiveRAG) :
  build_index docs size overlap self = (inr tt, self') ->
  exists embs d ix0 ix,
    encode (map text (collect_chunks docs size overlap)) = inr embs
    /\ IndexFlatIP d = inr ix0
    /\ index_add ix0 embs = inr ix
    /\ self' = mkNaiveRAG (Some ix) (collect_chunks docs size overlap) (Some d).
Proof.
  unfold build_index.
  destruct (collect_chunks docs size overlap) as [|c cs] eqn:Hc;
    [discriminate|].
  unfold mbind, set_chunks, get_self, lift, set_dim, set_index. cbn.
  destruct (encode (text c :: map text cs)) as [e|embs]; [discriminate|]. cbn.
  destruct embs as [|row embs]; [discriminate|]. cbn.
  destruct (IndexFlatIP (len row)) as [e|ix0] eqn:Hflat; [discriminate|]. cbn.
  destruct (index_add ix0 (row :: embs)) as [e|ix] eqn:Hadd; [discriminate|].
  cbn. intros H. injection H as <-.
  exists (row :: embs), (len row), ix0, ix. repeat split; assumption.
Qed.

(** With an index that counts what is added to it, a successful build
    yields as many vectors as chunks. *)
Lemma build_index_consistent (docs : list (pystr * pystr)) (size overlap : Z)
    (self self' : NaiveRAG) :
  (forall texts embs, encode texts = inr embs -> len embs = len texts) ->
  (forall d ix0, IndexFlatIP d = inr ix0 -> ntotal ix0 = 0) ->
  (forall ix0 embs ix,
      index_add ix0 embs = inr ix -> ntotal ix = ntotal ix0 + len embs) ->
  build_index docs size overlap self = (inr tt, self') ->
  exists ix, index self' = Some ix /\ ntotal ix = len (chunks self').
Proof.
  intros Henc Hflat Hadd H.
  apply build_index_success in H as (embs & d & ix0 & ix & H1 & H2 & H3 & ->).
  exists ix. split; [reflexivity|]. cbn.
  rewrite (Hadd _ _ _ H3), (Hflat _ _ H2), (Henc _ _ H1).
  unfold len. rewrite length_map. lia.
Qed.

End FacadeFacts.

(** C1, as stated, fails: an index is built from [corpus_a]; the rebuild
    from [corpus_b] raises in the embedding step.  After the failed call
    the index and the dimension are the old ones, but the chunk list is
    the new one. *)
Lemma failed_rebuild_overwrites_chunks :
  let before := snd (build_index (E := toy) corpus_a 100 20 init) in
  let after := snd (build_index corpus_b 100 20 before) in
  fst (build_index (E := toy) corpus_a 100 20 init) = inr tt
  /\ fst (build_index corpus_b 100 20 before)
     = inl (ExternalError "out of memory")
  /\ index after = index before
  /\ dim after = dim before
  /\ map doc_id (chunks before) = [str "a.txt"; str "b.txt"]
  /\ map doc_id (chunks after) = [str "c.txt"]
  /\ chunks after <> chunks before.
Proof.
  cbv zeta. repeat split; try (vm_compute; reflexivity).
  vm_compute. discriminate.
Qed.

(** C7, as stated, fails on the object left by that failed rebuild: it has
    an index, of two vectors, and one chunk, and [retrieve] raises an
    index error on the second slot of the search. *)
Lemma retrieve_raises_after_failed_rebuild :
  let before := snd (build_index (E := toy) corpus_a 100 20 init) in
  let after := snd (build_index corpus_b 100 20 before) in
  index after <> None
  /\ len (chunks after) = 1
  /\ option_map ntotal (index after) = Some 2
  /\ retrieve after (str "alpha alpha") 2 = inl IndexError.
Proof.
  cbv zeta. split; [vm_compute; discriminate|].
  repeat split; vm_compute; reflexivity.
Qed.

Section BuildFacts.

Context {E : Externals}.

(** C1, as the code has it: [build_index] is atomic for the configuration
    error only.  When it raises because there is no chunk, the object is
    as before the call.  When a later step raises, the new chunk list is
    already stored: with the old dimension and index when the embedding
    step fails, with the new dimension and the old index when the index
    cannot be created, with the new dimension and the fresh, empty index
    when the vectors cannot be added. *)
Theorem build_index_failure (docs : list (pystr * pystr)) (size overlap : Z)
    (self self' : NaiveRAG) (e : exn) :
  build_index docs size overlap self = (inl e, self') ->
  let all_chunks := collect_chunks docs size overlap in
  (all_chunks = [] /\ e = ValueError no_chunks_msg /\ self' = self)
  \/ (all_chunks <> []
      /\ chunks self' = all_chunks
      /\ ((external (encode (map text all_chunks)) = inl e
           /\ dim self' = dim self /\ index self' = index self)
          \/ (encode (map text all_chunks) = inr [] /\ e = IndexError
              /\ dim self' = dim self /\ index self' = index self)
          \/ (exists embs d,
                encode (map text all_chunks) = inr embs
                /\ shape1 embs = inr d
                /\ dim self' = Some d
                /\ ((external (IndexFlatIP d) = inl e
                     /\ index self' = index self)
                    \/ exists ix0,
                         IndexFlatIP d = inr ix0
                         /\ external (index_add ix0 embs) = inl e
                         /\ index self' = Some ix0)))).
Proof.
  intros H all_chunks. unfold build_index in H. fold all_chunks in H.
  destruct all_chunks as [|c cs] eqn:Hc.
  - injection H as <- <-. left. auto.
  - right. split; [discriminate|]. revert H.
    unfold mbind, set_chunks, get_self, lift, set_dim, set_index. cbn.
    destruct (encode (text c :: map text cs)) as [msg|embs] eqn:Henc; cbn.
    { intros H; injection H as <- <-. cbn. split; [reflexivity|].
      left. auto. }
    destruct embs as [|row embs]; cbn.
    { intros H; injection H as <- <-. cbn. split; [reflexivity|].
      right; left. auto. }
    destruct (IndexFlatIP (len row)) as [msg|ix0] eqn:Hflat; cbn.
    { intros H; injection H as <- <-. cbn. split; [reflexivity|].
      right; right. exists (row :: embs), (len row).
      rewrite Hflat. cbn.
      refine (conj eq_refl (conj eq_refl (conj eq_refl (or_introl _)))).
      split; reflexivity. }
    destruct (index_add ix0 (row :: embs)) as [msg|ix] eqn:Hadd; cbn.
    { intros H; injection H as <- <-. cbn. split; [reflexivity|].
      right; right. exists (row :: embs), (len row).
      refine (conj eq_refl (conj eq_refl (conj eq_refl (or_intror _)))).
      exists ix0. rewrite Hadd. cbn.
      refine (conj Hflat (conj eq_refl eq_refl)). }
    intros H; discriminate H.
Qed.

End BuildFacts.

Lemma build_index_failure_witness :
  let before := snd (build_index (E := toy) corpus_a 100 20 init) in
  let after := snd (build_index corpus_b 100 20 before) in
  build_index corpus_b 100 20 before
  = (inl (ExternalError "out of memory"), after)
  /\ chunks after = collect_chunks corpus_b 100 20
  /\ dim after = dim before
  /\ index after = index before.
Proof.
  cbv zeta. split; [vm_compute; reflexivity|].
  destruct (build_index_failure (E := toy) corpus_b 100 20
              (snd (build_index (E := toy) corpus_a 100 20 init))
              (self' := snd (build_index corpus_b 100 20
                               (snd (build_index (E := toy) corpus_a 100 20 init))))
              (e := ExternalError "out of memory"))
    as [(Hnone & _) | (_ & Hchunks & Hrest)].
  - vm_compute; reflexivity.
  - vm_compute in Hnone. discriminate Hnone.
  - split; [exact Hchunks|].
    destruct Hrest as [(_ & Hd & Hi) | [(_ & He & _) | Hlater]].
    + split; assumption.
    + discriminate He.
    + destruct Hlater as (embs & d & Henc & _). vm_compute in Henc.
      discriminate Henc.
Defined.

(** ** The matcher is sound and complete for [mt] *)

Lemma consumes_nil (st : mstate) : consumes st [] st.
Proof. split; reflexivity. Qed.

Lemma consumes_app (st st1 st2 : mstate) (w1 w2 : pystr) :
  consumes st w1 st1 -> consumes st1 w2 st2 -> consumes st (w1 ++ w2) st2.
Proof.
  intros [H1 H2] [H3 H4]. split.
  - rewrite H1, H3, app_assoc. reflexivity.
  - rewrite H4, H2, rev_app_distr, app_assoc. reflexivity.
Qed.

Lemma consumes_text (st st' : mstate) (w : pystr) :
  consumes st w st' -> consumed st st' = w.
Proof.
  intros [_ H]. unfold consumed. rewrite H, length_app, length_rev.
  replace (length w + length (before st) - length (before st))%nat
    with (length (rev w) + 0)%nat by (rewrite length_rev; lia).
  rewrite firstn_app_2, firstn_O, app_nil_r. apply rev_involutive.
Qed.

Lemma consumes_inj (st st' : mstate) (w1 w2 : pystr) :
  consumes st w1 st' -> consumes st w2 st' -> w1 = w2.
Proof.
  intros [H1 _] [H2 _]. rewrite H1 in H2. apply app_inv_tail in H2. exact H2.
Qed.

Lemma star_run_self (g : bool) (body : mstate -> list mstate) (fuel : nat)
    (st : mstate) :
  In st (star_run g body fuel st).
Proof.
  destruct fuel; simpl; [left; reflexivity|].
  destruct g; [apply in_or_app; right; left | left]; reflexivity.
Qed.

Lemma star_run_in (g : bool) (body : mstate -> list mstate) (fuel : nat)
    (st st' : mstate) :
  In st' (star_run g body (S fuel) st) <->
  st' = st
  \/ exists st1, In st1 (body st) /\ advances st st1 = true
                 /\ In st' (star_run g body fuel st1).
Proof.
  cbn [star_run].
  set (more := flat_map (star_run g body fuel) (filter (advances st) (body st))).
  assert (Hmore : In st' more <->
            exists st1, In st1 (body st) /\ advances st st1 = true
                        /\ In st' (star_run g body fuel st1)).
  { unfold more. rewrite in_flat_map. split.
    - intros (st1 & H1 & H2). apply filter_In in H1 as [H1 H3]. eauto.
    - intros (st1 & H1 & H3 & H2). exists st1. split; [|assumption].
      apply filter_In. split; assumption. }
  destruct g.
  - rewrite in_app_iff, Hmore. simpl. intuition (subst; auto).
  - simpl. rewrite Hmore. intuition (subst; auto).
Qed.

Section StarFacts.

Variables (g : bool) (body : mstate -> list mstate).
Variable P : pystr -> pystr -> pystr -> Prop.

Hypothesis body_sound : forall st st',
  In st' (body st) ->
  exists w, consumes st w st' /\ P (before st) w (rest st').

Lemma star_run_sound (fuel : nat) (st st' : mstate) :
  In st' (star_run g body fuel st) ->
  exists ws, consumes st (concat ws) st' /\ chain P (before st) ws (rest st').
Proof.
  revert st; induction fuel as [|fuel IH]; intros st H.
  - destruct H as [<-|[]]. exists []. split; [apply consumes_nil | exact I].
  - apply star_run_in in H as [-> | (st1 & H1 & Hadv & H2)].
    + exists []. split; [apply consumes_nil | exact I].
    + destruct (body_sound _ _ H1) as (x & Hx & HP).
      destruct (IH _ H2) as (ws & Hws & Hchain).
      exists (x :: ws). split; [exact (consumes_app Hx Hws)|].
      destruct Hx as [Hx1 Hx2]. destruct Hws as [Hw1 Hw2].
      cbn [chain]. rewrite <- Hw1, <- Hx2. repeat split; try assumption.
      intros ->. unfold advances in Hadv. rewrite Hx1 in Hadv.
      apply Nat.ltb_lt in Hadv. simpl in Hadv. lia.
Qed.

Hypothesis body_complete : forall bef w s c,
  P bef w s ->
  exists c', In (MState (rev w ++ bef) s c') (body (MState bef (w ++ s) c)).

Lemma star_run_complete (ws : list pystr) :
  forall (bef s : pystr) (c : option pystr) (fuel : nat),
    chain P bef ws s ->
    (length (concat ws) <= fuel)%nat ->
    exists c',
      In (MState (rev (concat ws) ++ bef) s c')
         (star_run g body fuel (MState bef (concat ws ++ s) c)).
Proof.
  induction ws as [|x ws IH]; intros bef s c fuel Hchain Hfuel.
  - exists c. apply star_run_self.
  - destruct Hchain as (Hx & HP & Hchain). cbn [concat] in *.
    rewrite length_app in Hfuel.
    destruct fuel as [|fuel];
      [destruct x; [contradiction Hx; reflexivity | simpl in Hfuel; lia]|].
    destruct (body_complete c HP) as (c1 & H1).
    destruct (IH (rev x ++ bef) s c1 fuel Hchain) as (c' & H2).
    { destruct x; [contradiction Hx; reflexivity | simpl in Hfuel; lia]. }
    exists c'. apply star_run_in. right.
    exists (MState (rev x ++ bef) (concat ws ++ s) c1).
    rewrite <- app_assoc. split; [exact H1|]. split.
    + unfold advances. cbn [rest]. apply Nat.ltb_lt.
      rewrite (length_app x). destruct x;
        [contradiction Hx; reflexivity | simpl; lia].
    + rewrite rev_app_distr, <- app_assoc. exact H2.
Qed.

End StarFacts.

Lemma run_sound (r : regex) : forall st st',
  In st' (run r st) ->
  exists w, consumes st w st' /\ mt r (before st) w (rest st').
Proof.
  induction r as [|p|r1 IH1 r2 IH2|r1 IH1 r2 IH2|g r IH|r IH| | |p];
    intros st st' H; cbn [run] in H.
  - destruct H as [<-|[]]. exists []. split; [apply consumes_nil | reflexivity].
  - destruct st as [b s c]. cbn [rest before cap] in H.
    destruct s as [|x s]; [destruct H|].
    destruct (p x) eqn:Hp; [|destruct H]. destruct H as [<-|[]].
    exists [x]. split; [split; reflexivity|]. exists x. split; auto.
  - apply in_flat_map in H as (st1 & H1 & H2).
    destruct (IH1 _ _ H1) as (w1 & Hc1 & Hm1).
    destruct (IH2 _ _ H2) as (w2 & Hc2 & Hm2).
    exists (w1 ++ w2). split; [exact (consumes_app Hc1 Hc2)|].
    exists w1, w2. destruct Hc1 as [Hr1 Hb1]. destruct Hc2 as [Hr2 Hb2].
    rewrite <- Hr2, <- Hb1. auto.
  - apply in_app_or in H as [H|H].
    + destruct (IH1 _ _ H) as (w & Hc & Hm). exists w. split; [|left]; assumption.
    + destruct (IH2 _ _ H) as (w & Hc & Hm). exists w. split; [|right]; assumption.
  - destruct (star_run_sound g (run r) (mt r) IH _ _ _ H) as (ws & Hc & Hch).
    exists (concat ws). split; [assumption|]. exists ws. auto.
  - apply in_map_iff in H as (st1 & <- & H1).
    destruct (IH _ _ H1) as (w & Hc & Hm). exists w. split; assumption.
  - destruct (at_boundary (before st) (rest st)) eqn:Hb; [|destruct H].
    destruct H as [<-|[]]. exists [].
    split; [apply consumes_nil | split; [reflexivity | assumption]].
  - destruct (at_end (rest st)) eqn:Hb; [|destruct H].
    destruct H as [<-|[]]. exists [].
    split; [apply consumes_nil | split; [reflexivity | assumption]].
  - destruct (before st) as [|x b] eqn:Hb; [destruct H|].
    destruct (p x) eqn:Hp; [|destruct H]. destruct H as [<-|[]].
    exists []. split; [apply consumes_nil|]. split; [reflexivity|].
    exists x, b. auto.
Qed.

Lemma run_complete (r : regex) : forall bef w s c,
  mt r bef w s ->
  exists c', In (MState (rev w ++ bef) s c') (run r (MState bef (w ++ s) c)).
Proof.
  induction r as [|p|r1 IH1 r2 IH2|r1 IH1 r2 IH2|g r IH|r IH| | |p];
    intros bef w s c H; cbn [mt] in H; cbn [run].
  - subst w. exists c. left; reflexivity.
  - destruct H as (x & -> & Hp). exists c. cbn. rewrite Hp. left; reflexivity.
  - destruct H as (w1 & w2 & -> & H1 & H2).
    destruct (IH1 _ _ _ c H1) as (c1 & Hin1).
    destruct (IH2 _ _ _ c1 H2) as (c2 & Hin2).
    exists c2. apply in_flat_map.
    exists (MState (rev w1 ++ bef) (w2 ++ s) c1).
    rewrite <- app_assoc. split; [exact Hin1|].
    rewrite rev_app_distr, <- app_assoc. exact Hin2.
  - destruct H as [H|H].
    + destruct (IH1 _ _ _ c H) as (c' & Hin). exists c'.
      apply in_or_app; left; exact Hin.
    + destruct (IH2 _ _ _ c H) as (c' & Hin). exists c'.
      apply in_or_app; right; exact Hin.
  - destruct H as (ws & -> & Hch). cbn [rest].
    apply (star_run_complete g (run r) (mt r) IH ws bef s c Hch).
    rewrite length_app. lia.
  - destruct (IH _ _ _ c H) as (c' & Hin).
    eexists. apply in_map_iff. eexists. split; [|exact Hin]. reflexivity.
  - destruct H as [-> Hb]. exists c. cbn. rewrite Hb. left; reflexivity.
  - destruct H as [-> Hb]. exists c. cbn. rewrite Hb. left; reflexivity.
  - destruct H as [-> (x & b & -> & Hp)]. exists c. cbn. rewrite Hp.
    left; reflexivity.
Qed.

(** ** [re.search] reports the leftmost match *)

Lemma rev_cons_app (c : ascii) (pre bef : pystr) :
  rev (c :: pre) ++ bef = rev pre ++ c :: bef.
Proof. simpl. rewrite <- app_assoc. reflexivity. Qed.

Lemma search_from_none (r : regex) (s : pystr) : forall pos bef,
  search_from r pos bef s = None ->
  forall pre w post, s = pre ++ w ++ post -> ~ mt r (rev pre ++ bef) w post.
Proof.
  induction s as [|x s IH]; intros pos bef H pre w post Hs Hm;
    cbn [search_from] in H;
    destruct (run r (MState bef _ None)) as [|st' l] eqn:Hrun;
    try discriminate H.
  - symmetry in Hs. apply app_eq_nil in Hs as [-> Hs].
    apply app_eq_nil in Hs as [-> ->].
    destruct (run_complete r _ _ _ None Hm) as (c' & Hin).
    cbn in Hin. rewrite Hrun in Hin. destruct Hin.
  - destruct pre as [|y pre].
    + cbn in Hs, Hm. destruct (run_complete r _ _ _ None Hm) as (c' & Hin).
      rewrite <- Hs, Hrun in Hin. destruct Hin.
    + injection Hs as <- Hs. rewrite rev_cons_app in Hm.
      exact (IH _ _ H pre w post Hs Hm).
Qed.

Lemma search_from_some (r : regex) (s : pystr) : forall pos bef m,
  search_from r pos bef s = Some m ->
  exists pre post,
    s = pre ++ group0 m ++ post
    /\ mt r (rev pre ++ bef) (group0 m) post
    /\ m_start m = (pos + length pre)%nat
    /\ (forall pre1 w1 post1,
          s = pre1 ++ w1 ++ post1 -> mt r (rev pre1 ++ bef) w1 post1 ->
          (length pre <= length pre1)%nat).
Proof.
  induction s as [|x s IH]; intros pos bef m H; cbn [search_from] in H;
    destruct (run r (MState bef _ None)) as [|st' l] eqn:Hrun;
    try discriminate H.
  - injection H as <-. cbn [group0 m_start].
    destruct (run_sound r (MState bef [] None) st') as (w & Hc & Hm);
      [rewrite Hrun; left; reflexivity|].
    rewrite (consumes_text Hc). destruct Hc as [Hr Hb]. cbn in Hr, Hm.
    exists [], (rest st'). cbn. repeat split; try assumption; try lia.
  - destruct (IH _ _ _ H) as (pre & post & Hs & Hm & Hpos & Hmin).
    exists (x :: pre), post. rewrite rev_cons_app. cbn [length app].
    repeat split; try assumption; try lia.
    + rewrite Hs at 1. reflexivity.
    + intros pre1 w1 post1 Hs1 Hm1. destruct pre1 as [|y pre1].
      * cbn in Hs1, Hm1.
        destruct (run_complete r _ _ _ None Hm1) as (c' & Hin).
        rewrite <- Hs1, Hrun in Hin. destruct Hin.
      * injection Hs1 as <- Hs1. rewrite rev_cons_app in Hm1.
        specialize (Hmin pre1 w1 post1 Hs1 Hm1). cbn [length]. lia.
  - injection H as <-. cbn [group0 m_start].
    destruct (run_sound r (MState bef (x :: s) None) st') as (w & Hc & Hm);
      [rewrite Hrun; left; reflexivity|].
    rewrite (consumes_text Hc). destruct Hc as [Hr Hb]. cbn in Hr, Hm.
    exists [], (rest st'). cbn. repeat split; try assumption; try lia.
Qed.

Lemma re_search_some (r : regex) (s : pystr) (m : rmatch) :
  re_search r s = Some m ->
  exists pre post,
    match_at r s pre (group0 m) post
    /\ (forall pre1 w1 post1,
          match_at r s pre1 w1 post1 -> (length pre <= length pre1)%nat).
Proof.
  intros H. apply search_from_some in H as (pre & post & Hs & Hm & _ & Hmin).
  rewrite app_nil_r in Hm. exists pre, post. split; [split; assumption|].
  intros pre1 w1 post1 [Hs1 Hm1]. apply (Hmin pre1 w1 post1 Hs1).
  rewrite app_nil_r. exact Hm1.
Qed.

Lemma re_search_none (r : regex) (s : pystr) :
  re_search r s = None -> forall pre w post, ~ match_at r s pre w post.
Proof.
  intros H pre w post [Hs Hm].
  apply (@search_from_none r s 0%nat [] H pre w post Hs).
  rewrite app_nil_r. exact Hm.
Qed.

Lemma re_search_found (r : regex) (s pre w post : pystr) :
  match_at r s pre w post -> is_some (re_search r s) = true.
Proof.
  intros H. destruct (re_search r s) eqn:Hsearch; [reflexivity|].
  exfalso. exact (@re_search_none r s Hsearch pre w post H).
Qed.

Lemma re_search_is_some (r : regex) (s : pystr) :
  is_some (re_search r s) = true <-> exists pre w post, match_at r s pre w post.
Proof.
  split.
  - destruct (re_search r s) as [m|] eqn:H; [|discriminate].
    intros _. apply re_search_some in H as (pre & post & H & _). eauto.
  - intros (pre & w & post & H). exact (@re_search_found r s pre w post H).
Qed.

(** ** What the combinators match *)

Lemma mt_Chr (c : ascii) (bef w s : pystr) : mt (Chr c) bef w s <-> w = [c].
Proof.
  unfold Chr. cbn [mt]. split.
  - intros (x & -> & H). apply ascii_eqb_eq in H. subst; reflexivity.
  - intros ->. exists c. split; [reflexivity | apply ascii_eqb_eq; reflexivity].
Qed.

Lemma mt_Lit (x bef w s : pystr) : mt (Lit x) bef w s <-> w = x.
Proof.
  revert bef w; induction x as [|c x IH]; intros bef w; cbn [Lit mt].
  - reflexivity.
  - split.
    + intros (w1 & w2 & -> & H1 & H2). apply mt_Chr in H1. apply IH in H2.
      subst; reflexivity.
    + intros ->. exists [c], x. split; [reflexivity|].
      split; [apply mt_Chr; reflexivity | apply IH; reflexivity].
Qed.

Lemma mt_LitI (x bef w s : pystr) :
  mt (LitI x) bef w s <-> lower w = lower x.
Proof.
  revert bef w; induction x as [|c x IH]; intros bef w; cbn [LitI mt].
  - split; [intros ->; reflexivity|]. destruct w; [reflexivity | discriminate].
  - split.
    + intros (w1 & w2 & -> & (y & -> & Hy) & H2). apply IH in H2.
      apply ascii_eqb_eq in Hy. cbn. rewrite Hy. f_equal. exact H2.
    + destruct w as [|y w]; [discriminate|]. cbn. intros H.
      injection H as Hy Hw. exists [y], w. split; [reflexivity|]. split.
      * exists y. split; [reflexivity|]. apply ascii_eqb_eq; assumption.
      * apply IH; assumption.
Qed.

Lemma mt_Alts (rs : list regex) (bef w s : pystr) :
  mt (Alts rs) bef w s <-> exists r, In r rs /\ mt r bef w s.
Proof.
  induction rs as [|r rs IH].
  - cbn. split; [intros (c & _ & H); discriminate H | intros (r & [] & _)].
  - destruct rs as [|r2 rs].
    + cbn [Alts]. split; [intros H; exists r; split; [left; reflexivity | exact H]|].
      intros (r' & [<-|[]] & H); exact H.
    + change (Alts (r :: r2 :: rs)) with (Alt r (Alts (r2 :: rs))).
      cbn [mt]. rewrite IH. split.
      * intros [H | (r' & Hin & H)];
          [exists r; split; [left; reflexivity | exact H]
          | exists r'; split; [right; exact Hin | exact H]].
      * intros (r' & [<- | Hin] & H); [left; exact H | right; eauto].
Qed.

Lemma mt_Alts_Lit (xs : list pystr) (bef w s : pystr) :
  mt (Alts (map Lit xs)) bef w s <-> In w xs.
Proof.
  rewrite mt_Alts. split.
  - intros (r & Hin & H). apply in_map_iff in Hin as (x & <- & Hx).
    apply mt_Lit in H. subst; assumption.
  - intros H. exists (Lit w). split; [apply in_map; assumption|].
    apply mt_Lit; reflexivity.
Qed.

Lemma mt_Alts_LitI (xs : list pystr) (bef w s : pystr) :
  mt (Alts (map LitI xs)) bef w s <-> In (lower w) (map lower xs).
Proof.
  rewrite mt_Alts. split.
  - intros (r & Hin & H). apply in_map_iff in Hin as (x & <- & Hx).
    apply mt_LitI in H. rewrite H. apply in_map; assumption.
  - intros H. apply in_map_iff in H as (x & Hx & Hin).
    exists (LitI x). split; [apply in_map; assumption|].
    apply mt_LitI. symmetry; assumption.
Qed.

Lemma mt_Opt (r : regex) (bef w s : pystr) :
  mt (Opt r) bef w s <-> mt r bef w s \/ w = [].
Proof. reflexivity. Qed.

Lemma chain_cls (p : ascii -> bool) (ws : list pystr) : forall bef s,
  chain (mt (Cls p)) bef ws s -> all p (concat ws).
Proof.
  induction ws as [|x ws IH]; intros bef s H; [reflexivity|].
  destruct H as (_ & (c & -> & Hc) & H). unfold all in *. cbn.
  rewrite Hc. exact (IH _ _ H).
Qed.

Lemma cls_chain (p : ascii -> bool) (w : pystr) : forall bef s,
  all p w -> chain (mt (Cls p)) bef (map (fun c => [c]) w) s
             /\ concat (map (fun c => [c]) w) = w.
Proof.
  induction w as [|c w IH]; intros bef s H; [split; [exact I | reflexivity]|].
  unfold all in H. cbn in H. apply andb_true_iff in H as [Hc Hw].
  destruct (IH (c :: bef) s Hw) as [H1 H2]. cbn. rewrite H2.
  repeat split; [discriminate | exists c; auto | exact H1].
Qed.

Lemma mt_Star_Cls (g : bool) (p : ascii -> bool) (bef w s : pystr) :
  mt (Star g (Cls p)) bef w s <-> all p w.
Proof.
  cbn [mt]. split.
  - intros (ws & -> & H). exact (@chain_cls p ws bef s H).
  - intros H. destruct (@cls_chain p w bef s H) as [H1 H2].
    exists (map (fun c => [c]) w). split; [symmetry|]; assumption.
Qed.

Lemma mt_Plus_Cls (p : ascii -> bool) (bef w s : pystr) :
  mt (Plus (Cls p)) bef w s <-> w <> [] /\ all p w.
Proof.
  unfold Plus. cbn [mt]. split.
  - intros (w1 & w2 & -> & (c & -> & Hc) & (ws & -> & H)).
    split; [discriminate|]. apply chain_cls in H. unfold all in *. cbn.
    rewrite Hc. exact H.
  - intros [Hne H]. destruct w as [|c w]; [contradiction Hne; reflexivity|].
    unfold all in H. cbn in H. apply andb_true_iff in H as [Hc Hw].
    exists [c], w. split; [reflexivity|]. split; [exists c; auto|].
    apply (mt_Star_Cls true p). exact Hw.
Qed.

(** A group between two [\b]. *)
Lemma mt_bounded_group (r : regex) (bef w s : pystr) :
  mt (Seq [Bnd; Grp r; Bnd]) bef w s <->
  mt r bef w s
  /\ at_boundary bef (w ++ s) = true /\ at_boundary (rev w ++ bef) s = true.
Proof.
  cbn [Seq fold_right mt]. split.
  - intros (w1 & w2 & -> & [-> Hb1] & w3 & w4 & -> & Hr & w5 & w6 & ->
            & [-> Hb2] & ->).
    cbn in *. rewrite !app_nil_r in *. auto.
  - intros (Hr & Hb1 & Hb2). exists [], w. split; [reflexivity|].
    split; [split; [reflexivity | exact Hb1]|].
    exists w, []. rewrite app_nil_r. split; [reflexivity|].
    split; [exact Hr|]. exists [], []. cbn. auto.
Qed.

Lemma match_at_bounded_group (r : regex) (s pre w post : pystr) :
  match_at (Seq [Bnd; Grp r; Bnd]) s pre w post <->
  mt r (rev pre) w post /\ word_bounded_at s pre w post.
Proof.
  unfold match_at, word_bounded_at, boundary.
  rewrite mt_bounded_group, rev_app_distr. tauto.
Qed.

Lemma mt_Seq_cons (r : regex) (rs : list regex) (bef w s : pystr) :
  mt (Seq (r :: rs)) bef w s <->
  exists w1 w2,
    w = w1 ++ w2 /\ mt r bef w1 (w2 ++ s) /\ mt (Seq rs) (rev w1 ++ bef) w2 s.
Proof. reflexivity. Qed.

Lemma mt_Seq_nil (bef w s : pystr) : mt (Seq []) bef w s <-> w = [].
Proof. reflexivity. Qed.

Lemma mt_Cls (p : ascii -> bool) (bef w s : pystr) :
  mt (Cls p) bef w s <-> exists c, w = [c] /\ p c = true.
Proof. reflexivity. Qed.

(** ** The date pattern *)

Lemma mt_MONTH_RE (bef d s : pystr) : mt MONTH_RE bef d s <-> is_date d.
Proof.
  unfold MONTH_RE, is_date. split.
  - intros H.
    apply mt_Seq_cons in H as (month & x1 & -> & Hmonth & H).
    apply mt_Seq_cons in H as (dot & x2 & -> & Hdot & H).
    apply mt_Seq_cons in H as (ws1 & x3 & -> & Hws1 & H).
    apply mt_Seq_cons in H as (d1 & x4 & -> & Hd1 & H).
    apply mt_Seq_cons in H as (d2 & x5 & -> & Hd2 & H).
    apply mt_Seq_cons in H as (comma & x6 & -> & Hcomma & H).
    apply mt_Seq_cons in H as (ws2 & x7 & -> & Hws2 & H).
    apply mt_Seq_cons in H as (y1 & x8 & -> & Hy1 & H).
    apply mt_Seq_cons in H as (y2 & x9 & -> & Hy2 & H).
    apply mt_Seq_cons in H as (y3 & x10 & -> & Hy3 & H).
    apply mt_Seq_cons in H as (y4 & x11 & -> & Hy4 & H).
    apply mt_Seq_nil in H. subst x11.
    apply mt_Alts_Lit in Hmonth.
    apply (proj1 (mt_Opt _ _ _ _)) in Hdot. rewrite mt_Chr in Hdot.
    apply (mt_Plus_Cls isspace) in Hws1 as [Hne Hws1].
    apply mt_Cls in Hd1 as (c1 & -> & Hc1).
    apply (proj1 (mt_Opt _ _ _ _)) in Hd2.
    apply mt_Chr in Hcomma. subst comma.
    apply (mt_Star_Cls true isspace) in Hws2.
    apply mt_Cls in Hy1 as (e1 & -> & He1).
    apply mt_Cls in Hy2 as (e2 & -> & He2).
    apply mt_Cls in Hy3 as (e3 & -> & He3).
    apply mt_Cls in Hy4 as (e4 & -> & He4).
    exists month, dot, ws1, ([c1] ++ d2), ws2, [e1; e2; e3; e4].
    split; [cbn; rewrite <- ?app_assoc; reflexivity|].
    split; [assumption|]. split; [tauto|].
    split; [assumption|]. split; [assumption|].
    assert (Hday : (length ([c1] ++ d2) = 1 \/ length ([c1] ++ d2) = 2)%nat
                   /\ all isdigit ([c1] ++ d2)).
    { destruct Hd2 as [Hd2 | ->].
      - apply mt_Cls in Hd2 as (c2 & -> & Hc2). split; [right; reflexivity|].
        unfold all. cbn. rewrite Hc1, Hc2. reflexivity.
      - split; [left; reflexivity|]. unfold all. cbn. rewrite Hc1. reflexivity. }
    destruct Hday as [Hlen Hday].
    split; [assumption|]. split; [assumption|]. split; [assumption|].
    split; [reflexivity|]. unfold all. cbn. rewrite He1, He2, He3, He4.
    reflexivity.
  - intros (month & dot & ws1 & day & ws2 & year & -> & Hmonth & Hdot & Hne
            & Hws1 & Hlen & Hday & Hws2 & Hylen & Hyear).
    assert (Hd : exists c1 d2, day = [c1] ++ d2 /\ isdigit c1 = true
                   /\ (mt Digit (c1 :: rev ws1 ++ rev dot ++ rev month ++ bef)
                         d2 (str "," ++ ws2 ++ year ++ s) \/ d2 = [])).
    { destruct day as [|c1 [|c2 [|c3 day]]]; cbn in Hlen; try lia;
        unfold all in Hday; cbn in Hday.
      - exists c1, []. rewrite andb_true_r in Hday. auto.
      - exists c1, [c2]. apply andb_true_iff in Hday as [H1 H2].
        rewrite andb_true_r in H2. split; [reflexivity|]. split; [assumption|].
        left. exists c2. auto. }
    destruct Hd as (c1 & d2 & -> & Hc1 & Hd2).
    destruct year as [|e1 [|e2 [|e3 [|e4 [|e5 year]]]]]; try discriminate Hylen.
    unfold all in Hyear. cbn in Hyear.
    apply andb_true_iff in Hyear as [He1 Hyear].
    apply andb_true_iff in Hyear as [He2 Hyear].
    apply andb_true_iff in Hyear as [He3 Hyear].
    apply andb_true_iff in Hyear as [He4 _].
    apply mt_Seq_cons. exists month. eexists. split; [reflexivity|].
    split; [apply mt_Alts_Lit; assumption|].
    apply mt_Seq_cons. exists dot. eexists. split; [reflexivity|].
    split; [apply mt_Opt; rewrite mt_Chr; tauto|].
    apply mt_Seq_cons. exists ws1. eexists. split; [reflexivity|].
    split; [apply (mt_Plus_Cls isspace); split; assumption|].
    apply mt_Seq_cons. exists [c1]. eexists.
    split; [rewrite <- app_assoc; reflexivity|].
    split; [exists c1; auto|].
    apply mt_Seq_cons. exists d2. eexists. split; [reflexivity|].
    split; [apply mt_Opt; cbn [rev app]; rewrite <- !app_assoc; exact Hd2|].
    apply mt_Seq_cons. exists (str ","). eexists. split; [reflexivity|].
    split; [apply mt_Chr; reflexivity|].
    apply mt_Seq_cons. exists ws2. eexists. split; [reflexivity|].
    split; [apply (mt_Star_Cls true isspace); assumption|].
    apply mt_Seq_cons. exists [e1], [e2; e3; e4]. split; [reflexivity|].
    split; [exists e1; auto|].
    apply mt_Seq_cons. exists [e2], [e3; e4]. split; [reflexivity|].
    split; [exists e2; auto|].
    apply mt_Seq_cons. exists [e3], [e4]. split; [reflexivity|].
    split; [exists e3; auto|].
    apply mt_Seq_cons. exists [e4], []. split; [reflexivity|].
    split; [exists e4; auto | reflexivity].
Qed.

Lemma match_at_MONTH_RE (s pre d post : pystr) :
  match_at MONTH_RE s pre d post <-> date_at s pre d post.
Proof. unfold match_at, date_at. rewrite mt_MONTH_RE. reflexivity. Qed.

Lemma search_date_is_some (s : pystr) :
  is_some (re_search MONTH_RE s) = true <-> has_date s.
Proof.
  rewrite re_search_is_some. unfold has_date. split;
    intros (pre & d & post & H); exists pre, d, post;
    apply match_at_MONTH_RE; exact H.
Qed.

(** ** Character classes *)

Ltac by_cases_on_char c :=
  destruct c as [[] [] [] [] [] [] [] []]; vm_compute; intros;
  solve [reflexivity | discriminate | congruence].

Lemma space_not_word (c : ascii) : isspace c = true -> isword c = false.
Proof. by_cases_on_char c. Qed.

Lemma digit_not_space (c : ascii) : isdigit c = true -> isspace c = false.
Proof. by_cases_on_char c. Qed.

Lemma digit_not_dot (c : ascii) : isdigit c = true -> ascii_eqb "." c = false.
Proof. by_cases_on_char c. Qed.

Lemma upper_not_space (c : ascii) : isupper c = true -> isspace c = false.
Proof. by_cases_on_char c. Qed.

Lemma isword_lower_char (c : ascii) : isword (lower_char c) = isword c.
Proof. by_cases_on_char c. Qed.

Lemma lower_char_dash (c : ascii) : lower_char c = "-"%char -> c = "-"%char.
Proof. by_cases_on_char c. Qed.

Lemma lower_app (a b : pystr) : lower (a ++ b) = lower a ++ lower b.
Proof. apply map_app. Qed.

Lemma lower_eq_app (w x y : pystr) :
  lower w = x ++ y -> exists a b, w = a ++ b /\ lower a = x /\ lower b = y.
Proof. apply map_eq_app. Qed.

(** The first and the last character of a text whose lower-case form is a
    given word are word characters when those of the word are. *)
Lemma word_at_lower (w : pystr) : word_at (lower w) = word_at w.
Proof. destruct w as [|c w]; [reflexivity | apply isword_lower_char]. Qed.

Lemma lower_rev (w : pystr) : lower (rev w) = rev (lower w).
Proof. apply map_rev. Qed.

Lemma word_at_app (w t : pystr) : w <> [] -> word_at (w ++ t) = word_at w.
Proof. destruct w; [intros H; contradiction H |]; reflexivity. Qed.

(** ** The hosting verb and the causal markers *)

Lemma mt_hosting_verb (bef w s : pystr) :
  mt (Alt (Seq [LitI (str "co"); Opt (ChrI "-"); LitI (str "hosted")])
          (LitI (str "hosted"))) bef w s
  <-> In (lower w) hosting_verbs.
Proof.
  cbn [mt]. split.
  - intros [H | H].
    + apply mt_Seq_cons in H as (a & x1 & -> & Ha & H).
      apply mt_Seq_cons in H as (o & x2 & -> & Ho & H).
      apply mt_Seq_cons in H as (h & x3 & -> & Hh & H).
      apply mt_Seq_nil in H. subst x3.
      apply mt_LitI in Ha. apply mt_LitI in Hh.
      rewrite app_nil_r, !lower_app, Ha, Hh.
      destruct Ho as [(c & -> & Hc) | ->].
      * apply ascii_eqb_eq, lower_char_dash in Hc. subst c.
        right; right; left; reflexivity.
      * right; left; reflexivity.
    + apply mt_LitI in H. rewrite H. left; reflexivity.
  - intros [H | [H | [H | []]]]; symmetry in H.
    + right. apply mt_LitI. exact H.
    + left. change (str "cohosted") with (str "co" ++ str "hosted") in H.
      apply lower_eq_app in H as (a & h & -> & Ha & Hh).
      apply mt_Seq_cons. exists a, h. split; [reflexivity|].
      split; [apply mt_LitI; exact Ha|].
      apply mt_Seq_cons. exists [], h. split; [reflexivity|].
      split; [right; reflexivity|].
      apply mt_Seq_cons. exists h, []. split; [rewrite app_nil_r; reflexivity|].
      split; [apply mt_LitI; exact Hh | reflexivity].
    + left. change (str "co-hosted") with (str "co" ++ str "-" ++ str "hosted") in H.
      apply lower_eq_app in H as (a & x & -> & Ha & H).
      apply lower_eq_app in H as (o & h & -> & Ho & Hh).
      apply mt_Seq_cons. exists a, (o ++ h). split; [reflexivity|].
      split; [apply mt_LitI; exact Ha|].
      apply mt_Seq_cons. exists o, h. split; [reflexivity|]. split.
      * left. destruct o as [|c [|c2 o]]; try discriminate Ho.
        exists c. split; [reflexivity|]. injection Ho as Ho.
        apply ascii_eqb_eq. rewrite Ho. reflexivity.
      * apply mt_Seq_cons. exists h, [].
        split; [rewrite app_nil_r; reflexivity|].
        split; [apply mt_LitI; exact Hh | reflexivity].
Qed.

Lemma match_at_HOSTED_RE (s pre w post : pystr) :
  match_at HOSTED_RE s pre w post <->
  In (lower w) hosting_verbs /\ word_bounded_at s pre w post.
Proof.
  unfold HOSTED_RE. rewrite match_at_bounded_group, mt_hosting_verb.
  reflexivity.
Qed.

Lemma search_hosted_is_some (s : pystr) :
  is_some (re_search HOSTED_RE s) = true <-> has_hosting_verb s.
Proof.
  rewrite re_search_is_some. unfold has_hosting_verb. split;
    intros (pre & w & post & H); exists pre, w, post;
    apply match_at_HOSTED_RE; exact H.
Qed.

Lemma match_at_CAUSAL_RE (s pre w post : pystr) :
  match_at CAUSAL_RE s pre w post <->
  In (lower w) causal_markers /\ word_bounded_at s pre w post.
Proof.
  unfold CAUSAL_RE.
  change (Alts [LitI (str "because"); LitI (str "due to");
                LitI (str "following"); LitI (str "as a result")])
    with (Alts (map LitI causal_markers)).
  rewrite match_at_bounded_group, mt_Alts_LitI. reflexivity.
Qed.

Lemma bounded_due_to_is_causal (s : pystr) :
  has_bounded_due_to s -> is_some (re_search CAUSAL_RE s) = true.
Proof.
  intros (pre & w & post & Hw & H).
  apply (@re_search_found CAUSAL_RE s pre w post).
  apply match_at_CAUSAL_RE. split; [|exact H].
  rewrite Hw. right; left; reflexivity.
Qed.

(** A match of the reconstruction pattern starts with "due to" and a white
    space. *)
Lemma mt_DUE_TO_RE (bef w s : pystr) :
  mt DUE_TO_RE bef w s ->
  exists w1 sp w2,
    w = w1 ++ sp :: w2 /\ lower w1 = str "due to" /\ isspace sp = true.
Proof.
  unfold DUE_TO_RE. intros H.
  apply mt_Seq_cons in H as (w1 & x1 & -> & H1 & H).
  apply mt_Seq_cons in H as (ws & x2 & -> & Hws & H).
  apply mt_LitI in H1. apply (mt_Plus_Cls isspace) in Hws as [Hne Hws].
  destruct ws as [|sp ws]; [contradiction Hne; reflexivity|].
  unfold all in Hws. cbn in Hws. apply andb_true_iff in Hws as [Hsp _].
  exists w1, sp, (ws ++ x2). split; [reflexivity|]. split; assumption.
Qed.

(** ** The extractor *)

Lemma due_to_shape (w : pystr) :
  lower w = str "due to" ->
  w <> [] /\ word_at w = true /\ word_at (rev w) = true.
Proof.
  intros H. split; [intros ->; discriminate H|].
  rewrite <- (word_at_lower w), <- (word_at_lower (rev w)), lower_rev, H.
  split; reflexivity.
Qed.

(** The Reason branch on a sentence that contains "due to" between word
    boundaries returns the whole sentence with a trailing period.  It
    returns something else, namely "Because X." for a captured X, only for
    a sentence in which "due to" directly follows a word character. *)
Lemma extract_reason_due_to (s : pystr) :
  (has_bounded_due_to s -> extract_reason s = ensure_period s)
  /\ (extract_reason s <> ensure_period s ->
      has_unbounded_due_to s
      /\ exists phrase, extract_reason s = ensure_period (str "Because " ++ phrase)).
Proof.
  split.
  - intros H. unfold extract_reason.
    rewrite (bounded_due_to_is_causal H). reflexivity.
  - unfold extract_reason.
    destruct (is_some (re_search CAUSAL_RE s)) eqn:Hc;
      [intros H; contradiction H; reflexivity|].
    destruct (re_search DUE_TO_RE s) as [m|] eqn:Hd;
      [|intros H; contradiction H; reflexivity].
    intros _. split; [|eexists; reflexivity].
    apply re_search_some in Hd as (pre & post & [Hs Hm] & _).
    apply mt_DUE_TO_RE in Hm as (w & sp & w2 & Hw & Hlow & Hsp).
    rewrite Hw, <- app_assoc in Hs. cbn [app] in Hs.
    destruct (due_to_shape w Hlow) as (Hne & Hfirst & Hlast).
    destruct (word_at (rev pre)) eqn:Hpre.
    + destruct (rev pre) as [|c r] eqn:Hrev; [discriminate Hpre|].
      cbn in Hpre. exists (rev r), c, w, (sp :: w2 ++ post).
      split; [|split; assumption].
      rewrite Hs, <- (rev_involutive pre), Hrev. cbn.
      rewrite <- app_assoc. reflexivity.
    + exfalso.
      assert (Hb : has_bounded_due_to s).
      { exists pre, w, (sp :: w2 ++ post). split; [assumption|].
        split; [assumption|]. unfold boundary, at_boundary. split.
        - rewrite Hpre, word_at_app, Hfirst by assumption. reflexivity.
        - rewrite rev_app_distr, word_at_app, Hlast.
          + cbn. rewrite (space_not_word sp Hsp). reflexivity.
          + intros Hr. apply (f_equal (@rev ascii)) in Hr.
            rewrite rev_involutive in Hr. contradiction. }
      rewrite (bounded_due_to_is_causal Hb) in Hc. discriminate Hc.
Qed.

(** A date starts with a letter of its month and ends with a digit. *)
Lemma is_date_ends (d : pystr) :
  is_date d ->
  (exists c d1, d = c :: d1 /\ isspace c = false)
  /\ (exists d0 e, d = d0 ++ [e] /\ isdigit e = true).
Proof.
  intros (month & dot & ws1 & day & ws2 & year & -> & Hmonth & _ & _ & _ & _
          & _ & _ & Hlen & Hyear).
  split.
  - assert (H : exists c m, month = c :: m /\ isspace c = false).
    { unfold month_names in Hmonth. cbn [map] in Hmonth.
      repeat (destruct Hmonth as [<- | Hmonth];
              [eexists; eexists; split; reflexivity|]).
      destruct Hmonth. }
    destruct H as (c & m & -> & Hc). exists c. eexists.
    split; [reflexivity | exact Hc].
  - destruct year as [|e1 [|e2 [|e3 [|e4 [|e5 year]]]]]; try discriminate Hlen.
    unfold all in Hyear. cbn in Hyear.
    do 3 (apply andb_true_iff in Hyear as [_ Hyear]).
    rewrite andb_true_r in Hyear.
    exists (month ++ dot ++ ws1 ++ day ++ str "," ++ ws2 ++ [e1; e2; e3]), e4.
    split; [|assumption]. rewrite <- !app_assoc. reflexivity.
Qed.

Lemma strip_date (d : pystr) : is_date d -> strip d = d.
Proof.
  intros H. destruct (is_date_ends H) as [(c & d1 & Hd & Hc) (d0 & e & Hd' & He)].
  unfold strip, rstrip.
  assert (Hl : lstrip d = d) by (rewrite Hd; cbn; rewrite Hc; reflexivity).
  rewrite Hl. rewrite Hd' at 1. rewrite rev_app_distr. cbn.
  rewrite (digit_not_space e He). rewrite Hd'.
  change (e :: rev d0) with (rev [e] ++ rev d0).
  rewrite <- rev_app_distr. apply rev_involutive.
Qed.

Lemma date_no_period (x d : pystr) :
  is_date d -> ensure_period (x ++ d) = x ++ d ++ str ".".
Proof.
  intros H. destruct (is_date_ends H) as [_ (d0 & e & -> & He)].
  unfold ensure_period, endswith. rewrite !rev_app_distr.
  change (str ".") with ["."%char]. cbn [rev app startswith].
  rewrite (digit_not_dot e He). cbn [andb]. rewrite <- !app_assoc.
  reflexivity.
Qed.

(** The first match of the date pattern is a date that no other date of the
    sentence precedes. *)
Lemma search_date_some (s : pystr) (m : rmatch) :
  re_search MONTH_RE s = Some m ->
  exists pre post,
    date_at s pre (group0 m) post
    /\ (forall pre1 d1 post1,
          date_at s pre1 d1 post1 -> (length pre <= length pre1)%nat).
Proof.
  intros H. apply re_search_some in H as (pre & post & Hm & Hmin).
  exists pre, post. split; [apply match_at_MONTH_RE; exact Hm|].
  intros pre1 d1 post1 H1. apply (Hmin pre1 d1 post1).
  apply match_at_MONTH_RE; exact H1.
Qed.

Lemma date_capture_some (s : pystr) (m : rmatch) :
  re_search MONTH_RE s = Some m -> date_capture s = Some (group0 m)
                                   /\ is_date (group0 m).
Proof.
  intros H. unfold date_capture. rewrite H. cbn [option_map].
  apply search_date_some in H as (pre & post & [_ Hd] & _).
  rewrite (strip_date Hd). split; [|exact Hd].
  destruct (is_date_ends Hd) as [(c & d1 & -> & _) _]. reflexivity.
Qed.

(** ** Trimming keeps what stands between non-space characters *)

Lemma lstrip_decompose (x : pystr) :
  exists l, x = l ++ lstrip x /\ all isspace l.
Proof.
  induction x as [|c x (l & Hx & Hl)]; [exists []; split; reflexivity|].
  cbn. destruct (isspace c) eqn:Hc.
  - exists (c :: l). split; [cbn; f_equal; exact Hx|].
    unfold all in *. cbn. rewrite Hc. exact Hl.
  - exists []. split; reflexivity.
Qed.

Lemma lstrip_app_nonspace (a t : pystr) (c : ascii) :
  isspace c = false -> lstrip (a ++ c :: t) = lstrip a ++ c :: t.
Proof.
  intros Hc. induction a as [|y a IH]; cbn; [rewrite Hc; reflexivity|].
  destruct (isspace y); [exact IH | reflexivity].
Qed.

Lemma rstrip_decompose (x : pystr) :
  exists r, x = rstrip x ++ r /\ all isspace r.
Proof.
  destruct (lstrip_decompose (rev x)) as (l & Hx & Hl).
  exists (rev l). split.
  - unfold rstrip. rewrite <- rev_app_distr, <- Hx, rev_involutive.
    reflexivity.
  - unfold all in *. rewrite forallb_forall in *. intros c Hc.
    apply Hl. apply in_rev. exact Hc.
Qed.

Lemma rstrip_app_nonspace (a t : pystr) (e : ascii) :
  isspace e = false -> rstrip ((a ++ [e]) ++ t) = (a ++ [e]) ++ rstrip t.
Proof.
  intros He. unfold rstrip. rewrite !rev_app_distr. cbn [rev app].
  rewrite lstrip_app_nonspace by exact He.
  rewrite rev_app_distr. cbn [rev]. rewrite rev_involutive.
  reflexivity.
Qed.

(** A text that starts and ends with a non-space character stands in the
    trimmed sentence where it stands in the sentence. *)
Lemma strip_around (pre w post : pystr) (c e : ascii) (w1 w2 : pystr) :
  w = c :: w1 -> w = w2 ++ [e] -> isspace c = false -> isspace e = false ->
  strip (pre ++ w ++ post) = lstrip pre ++ w ++ rstrip post.
Proof.
  intros Hw1 Hw2 Hc He. unfold strip.
  rewrite Hw1 at 1. cbn [app]. rewrite lstrip_app_nonspace by exact Hc.
  change (c :: w1 ++ post) with ((c :: w1) ++ post). rewrite <- Hw1, Hw2.
  rewrite !app_assoc. rewrite rstrip_app_nonspace by exact He.
  reflexivity.
Qed.

Lemma word_at_space_prefix (l : pystr) (t : pystr) :
  all isspace l -> word_at (rev (l ++ t)) = word_at (rev t).
Proof.
  intros Hl. rewrite rev_app_distr. destruct (rev t) as [|c r] eqn:Hr.
  - cbn. destruct (rev l) as [|y r'] eqn:Hl'; [reflexivity|]. cbn.
    apply space_not_word. unfold all in Hl. rewrite forallb_forall in Hl.
    apply Hl. apply in_rev. rewrite Hl'. left; reflexivity.
  - reflexivity.
Qed.

Lemma word_at_space_suffix (t r : pystr) :
  all isspace r -> word_at (t ++ r) = word_at t.
Proof.
  intros Hr. destruct t as [|c t]; [|reflexivity]. cbn.
  destruct r as [|y r]; [reflexivity|]. cbn. apply space_not_word.
  unfold all in Hr. cbn in Hr. apply andb_true_iff in Hr as [Hy _]. exact Hy.
Qed.

(** White space around the sentence does not change the word boundaries
    inside it. *)
Lemma word_bounded_at_padding (l r s pre w post : pystr) :
  all isspace l -> all isspace r ->
  (word_bounded_at (l ++ s ++ r) (l ++ pre) w (post ++ r)
   <-> word_bounded_at s pre w post).
Proof.
  intros Hl Hr. unfold word_bounded_at, boundary, at_boundary.
  rewrite <- !app_assoc, (app_assoc w post r).
  rewrite !(word_at_space_prefix _ Hl).
  rewrite !(word_at_space_suffix _ Hr).
  rewrite (app_assoc pre w post).
  split; intros (Hs & H1 & H2); (split; [|split; assumption]).
  - apply app_inv_head in Hs. rewrite !app_assoc in Hs.
    apply app_inv_tail in Hs. rewrite Hs, <- app_assoc. reflexivity.
  - rewrite Hs, <- !app_assoc. reflexivity.
Qed.

Lemma strip_decompose (x : pystr) :
  exists l r,
    x = l ++ lstrip x /\ lstrip x = strip x ++ r
    /\ all isspace l /\ all isspace r.
Proof.
  destruct (lstrip_decompose x) as (l & Hl & Hsl).
  destruct (rstrip_decompose (lstrip x)) as (r & Hr & Hsr).
  exists l, r. auto.
Qed.

Lemma strip_padding (x : pystr) :
  exists l r, x = l ++ strip x ++ r /\ all isspace l /\ all isspace r.
Proof.
  destruct (strip_decompose x) as (l & r & Hl & Hr & Hsl & Hsr).
  exists l, r. rewrite <- Hr. auto.
Qed.

Lemma isspace_lower_char (c : ascii) : isspace (lower_char c) = isspace c.
Proof. by_cases_on_char c. Qed.

Lemma lower_head (w v1 : pystr) (c' : ascii) :
  lower w = c' :: v1 -> isspace c' = false ->
  exists c w1, w = c :: w1 /\ isspace c = false.
Proof.
  destruct w as [|c w1]; [discriminate|]. cbn. intros H Hc.
  injection H as H _. exists c, w1. split; [reflexivity|].
  rewrite <- isspace_lower_char, H. exact Hc.
Qed.

Lemma lower_last (w v0 : pystr) (e' : ascii) :
  lower w = v0 ++ [e'] -> isspace e' = false ->
  exists w2 e, w = w2 ++ [e] /\ isspace e = false.
Proof.
  intros H He. apply lower_eq_app in H as (w2 & b & -> & _ & Hb).
  destruct b as [|e [|e2 b]]; try discriminate Hb. injection Hb as Hb.
  exists w2, e. split; [reflexivity|].
  rewrite <- isspace_lower_char, Hb. exact He.
Qed.

(** A hosting verb starts and ends with a letter. *)
Lemma hosting_verb_ends (w : pystr) :
  In (lower w) hosting_verbs ->
  (exists c w1, w = c :: w1 /\ isspace c = false)
  /\ (exists w2 e, w = w2 ++ [e] /\ isspace e = false).
Proof.
  intros [H | [H | [H | []]]]; symmetry in H; split.
  - exact (@lower_head w (str "osted") "h"%char H eq_refl).
  - exact (@lower_last w (str "hoste") "d"%char H eq_refl).
  - exact (@lower_head w (str "ohosted") "c"%char H eq_refl).
  - exact (@lower_last w (str "cohoste") "d"%char H eq_refl).
  - exact (@lower_head w (str "o-hosted") "c"%char H eq_refl).
  - exact (@lower_last w (str "co-hoste") "d"%char H eq_refl).
Qed.

Lemma is_date_nonspace_ends (d : pystr) :
  is_date d ->
  (exists c d1, d = c :: d1 /\ isspace c = false)
  /\ (exists d0 e, d = d0 ++ [e] /\ isspace e = false).
Proof.
  intros H. destruct (is_date_ends H) as [H1 (d0 & e & Hd & He)].
  split; [exact H1|]. exists d0, e. split; [exact Hd|].
  apply digit_not_space; exact He.
Qed.

(** The dates of a sentence are those of the trimmed sentence. *)
Lemma date_at_strip (x pre d post : pystr) :
  date_at x pre d post -> date_at (strip x) (lstrip pre) d (rstrip post).
Proof.
  intros [-> Hd]. split; [|exact Hd].
  destruct (is_date_nonspace_ends Hd)
    as [(c & d1 & Hd1 & Hc) (d0 & e & Hd0 & He)].
  exact (@strip_around pre d post c e d1 d0 Hd1 Hd0 Hc He).
Qed.

Lemma has_date_strip (x : pystr) : has_date x <-> has_date (strip x).
Proof.
  split.
  - intros (pre & d & post & H). exists (lstrip pre), d, (rstrip post).
    exact (@date_at_strip x pre d post H).
  - intros (pre & d & post & [Hs Hd]).
    destruct (strip_padding x) as (l & r & Hx & _).
    exists (l ++ pre), d, (post ++ r). split; [|exact Hd].
    rewrite Hx at 1. rewrite Hs, <- !app_assoc. reflexivity.
Qed.

(** The hosting verbs of a sentence are those of the trimmed sentence. *)
Lemma has_hosting_verb_strip (x : pystr) :
  has_hosting_verb x <-> has_hosting_verb (strip x).
Proof.
  split.
  - intros (pre & w & post & Hw & Hb).
    destruct (hosting_verb_ends w Hw)
      as [(c & w1 & Hw1 & Hc) (w2 & e & Hw2 & He)].
    destruct (lstrip_decompose pre) as (l & Hpre & Hl).
    destruct (rstrip_decompose post) as (r & Hpost & Hr).
    exists (lstrip pre), w, (rstrip post). split; [exact Hw|].
    apply (@word_bounded_at_padding l r (strip x) (lstrip pre) w
             (rstrip post) Hl Hr).
    rewrite <- Hpre, <- Hpost.
    assert (Hpad : l ++ strip x ++ r = x).
    { destruct Hb as (Hx & _). rewrite Hx at 1.
      rewrite (@strip_around pre w post c e w1 w2 Hw1 Hw2 Hc He).
      rewrite <- !app_assoc, <- Hpost.
      rewrite (app_assoc l), <- Hpre. symmetry; exact Hx. }
    rewrite Hpad. exact Hb.
  - intros (pre & w & post & Hw & Hb).
    destruct (strip_padding x) as (l & r & Hx & Hl & Hr).
    exists (l ++ pre), w, (post ++ r). split; [exact Hw|].
    rewrite Hx at 1.
    apply (@word_bounded_at_padding l r (strip x) pre w post Hl Hr). exact Hb.
Qed.

Lemma due_to_ends (w : pystr) :
  lower w = str "due to" ->
  (exists c w1, w = c :: w1 /\ isspace c = false)
  /\ (exists w2 e, w = w2 ++ [e] /\ isspace e = false).
Proof.
  intros H. split.
  - exact (@lower_head w (str "ue to") "d"%char H eq_refl).
  - exact (@lower_last w (str "due t") "o"%char H eq_refl).
Qed.

(** A word-bounded "due to" of a sentence stands in the trimmed sentence. *)
Lemma has_bounded_due_to_strip (x : pystr) :
  has_bounded_due_to x -> has_bounded_due_to (strip x).
Proof.
  intros (pre & w & post & Hw & Hb).
  destruct (due_to_ends w Hw) as [(c & w1 & Hw1 & Hc) (w2 & e & Hw2 & He)].
  destruct (lstrip_decompose pre) as (l & Hpre & Hl).
  destruct (rstrip_decompose post) as (r & Hpost & Hr).
  exists (lstrip pre), w, (rstrip post). split; [exact Hw|].
  apply (@word_bounded_at_padding l r (strip x) (lstrip pre) w
           (rstrip post) Hl Hr).
  rewrite <- Hpre, <- Hpost.
  assert (Hpad : l ++ strip x ++ r = x).
  { destruct Hb as (Hx & _). rewrite Hx at 1.
    rewrite (@strip_around pre w post c e w1 w2 Hw1 Hw2 Hc He).
    rewrite <- !app_assoc, <- Hpost.
    rewrite (app_assoc l), <- Hpre. symmetry; exact Hx. }
  rewrite Hpad. exact Hb.
Qed.

(** A "due to" after a word character in the trimmed sentence stands so in
    the sentence. *)
Lemma has_unbounded_due_to_unstrip (x : pystr) :
  has_unbounded_due_to (strip x) -> has_unbounded_due_to x.
Proof.
  intros (pre & c & w & post & Hs & Hc & Hw).
  destruct (strip_padding x) as (l & r & Hx & _).
  exists (l ++ pre), c, w, (post ++ r). split; [|split; assumption].
  rewrite Hx at 1. rewrite Hs, <- !app_assoc. reflexivity.
Qed.

(** C9, as the code has it: the Reason branch is reached only when the
    combined host+date block returns nothing, and it works on the trimmed
    sentence.  Then, for a sentence that contains "due to" between word
    boundaries, the result is the trimmed sentence with a trailing period;
    and a result other than that is "Because X." for a captured X, which
    happens only for a sentence in which "due to" directly follows a word
    character. *)
Theorem reason_due_to (sentence question : pystr) :
  combined_host_date (strip sentence) (lower question) = None ->
  let answer := extract_short_answer sentence REASON question in
  (has_bounded_due_to sentence -> answer = ensure_period (strip sentence))
  /\ (answer <> ensure_period (strip sentence) ->
      has_unbounded_due_to sentence
      /\ exists phrase, answer = ensure_period (str "Because " ++ phrase)).
Proof.
  intros Hcomb answer.
  assert (Hans : answer = extract_reason (strip sentence)).
  { unfold answer, extract_short_answer. cbv zeta. rewrite Hcomb.
    reflexivity. }
  rewrite Hans.
  destruct (extract_reason_due_to (strip sentence)) as [H1 H2]. split.
  - intros H. apply H1. apply has_bounded_due_to_strip. exact H.
  - intros H. destruct (H2 H) as [Hun Hex]. split; [|exact Hex].
    apply has_unbounded_due_to_unstrip. exact Hun.
Qed.

Lemma reason_due_to_witness :
  combined_host_date (strip (str " Play was stopped due to rain "))
                     (lower (str "Why was play stopped?")) = None
  /\ has_bounded_due_to (str " Play was stopped due to rain ")
  /\ extract_short_answer (str " Play was stopped due to rain ") REASON
       (str "Why was play stopped?")
     = str "Play was stopped due to rain."
  /\ has_unbounded_due_to (str "The match was overdue to start. Then rain").
Proof.
  assert (Hb : has_bounded_due_to (str " Play was stopped due to rain ")).
  { exists (str " Play was stopped "), (str "due to"), (str " rain ").
    repeat split; reflexivity. }
  split; [reflexivity|]. split; [exact Hb|]. split.
  - exact (proj1 (@reason_due_to (str " Play was stopped due to rain ")
                    (str "Why was play stopped?") eq_refl) Hb).
  - destruct (@reason_due_to
                (str "The match was overdue to start. Then rain")
                (str "Why was play stopped?") eq_refl) as [_ H].
    destruct H as [Hun _]; [vm_compute; discriminate | exact Hun].
Defined.

(** C9, as stated, fails in two ways.  The combined host+date block runs
    before the type cascade: for a why-question that mentions the hosts and
    a start, a sentence with a word-bounded "due to" and a date gives the
    date.  And the sentence is trimmed first: with white space around it,
    the result is not the sentence as passed with a period. *)
Lemma reason_due_to_combined_block_first :
  (let sentence := str "The final was moved due to rain on February 7, 2026" in
   let question := str "Why did the hosts start late?" in
   detect_question_type question = REASON
   /\ has_bounded_due_to sentence
   /\ extract_short_answer sentence REASON question = str "February 7, 2026"
   /\ extract_short_answer sentence REASON question <> ensure_period sentence)
  /\ (let sentence := str " Play was stopped due to rain " in
      let question := str "Why was play stopped?" in
      has_bounded_due_to sentence
      /\ extract_short_answer sentence REASON question
         = str "Play was stopped due to rain."
      /\ extract_short_answer sentence REASON question
         <> ensure_period sentence).
Proof.
  cbv zeta. split.
  - split; [reflexivity|]. split; [|split; [reflexivity|]].
    + exists (str "The final was moved "), (str "due to"),
        (str " rain on February 7, 2026").
      repeat split; reflexivity.
    + vm_compute. discriminate.
  - split; [|split; [reflexivity | vm_compute; discriminate]].
    exists (str " Play was stopped "), (str "due to"), (str " rain ").
    repeat split; reflexivity.
Qed.

(** C8, as the code has it: when the combined block returns nothing and the
    question type is DATE, the result is the first date of the sentence,
    when there is one, and otherwise the sentence trimmed of its leading
    and trailing white space. *)
Theorem date_extraction (sentence question : pystr) :
  combined_host_date (strip sentence) (lower question) = None ->
  (has_date sentence ->
   exists pre d post,
     date_at sentence pre d post
     /\ (forall pre1 d1 post1,
           date_at sentence pre1 d1 post1 -> (length pre <= length pre1)%nat)
     /\ extract_short_answer sentence DATE question = d)
  /\ (~ has_date sentence ->
      extract_short_answer sentence DATE question = strip sentence).
Proof.
  intros Hcomb. unfold extract_short_answer. cbv zeta. rewrite Hcomb.
  change (pystr_eqb DATE PERSON_OR_TEAM || pystr_eqb DATE ENTITY) with false.
  change (pystr_eqb DATE REASON) with false.
  change (pystr_eqb DATE DATE) with true. cbv iota. unfold extract_date.
  destruct (re_search MONTH_RE (strip sentence)) as [m|] eqn:Hm.
  - split.
    + intros _. apply search_date_some in Hm as (pre & post & [Hs Hd] & Hmin).
      destruct (strip_decompose sentence) as (l & r & Hl & Hr & _).
      exists (l ++ pre), (group0 m), (post ++ r). split; [|split; [|reflexivity]].
      * split; [|exact Hd].
        rewrite Hl at 1. rewrite Hr, Hs, <- !app_assoc. reflexivity.
      * intros pre1 d1 post1 H1.
        pose proof (Hmin _ _ _ (@date_at_strip sentence pre1 d1 post1 H1))
          as Hle.
        destruct H1 as [Hx1 Hd1].
        destruct (is_date_nonspace_ends Hd1) as [(c & d1' & Hc1 & Hc) _].
        destruct (lstrip_decompose pre1) as (l1 & Hpre1 & _).
        assert (Hls : lstrip sentence = lstrip pre1 ++ d1 ++ post1).
        { rewrite Hx1, Hc1. cbn [app].
          apply lstrip_app_nonspace. exact Hc. }
        apply (f_equal (@length ascii)) in Hl, Hpre1, Hx1.
        rewrite Hls in Hl. rewrite !length_app in *. lia.
    + intros Hno. contradiction Hno. apply has_date_strip.
      apply search_date_is_some. rewrite Hm. reflexivity.
  - split; [|reflexivity].
    intros Hd. apply has_date_strip, search_date_is_some in Hd.
    rewrite Hm in Hd. discriminate Hd.
Qed.

Lemma date_extraction_witness :
  combined_host_date (strip (str "  The tournament starts February 7, 2026."))
                     (lower (str "When does it start?")) = None
  /\ exists pre post,
       date_at (str "  The tournament starts February 7, 2026.") pre
               (str "February 7, 2026") post
       /\ extract_short_answer (str "  The tournament starts February 7, 2026.")
            DATE (str "When does it start?")
          = str "February 7, 2026".
Proof.
  split; [reflexivity|].
  destruct (date_extraction (str "  The tournament starts February 7, 2026.")
              (str "When does it start?") eq_refl) as [H _].
  destruct H as (pre & d & post & Hd & _ & Hres).
  - apply has_date_strip, search_date_is_some. reflexivity.
  - exists pre, post. assert (Hd' : d = str "February 7, 2026")
      by (rewrite <- Hres; reflexivity).
    rewrite <- Hd'. split; [exact Hd | exact Hres].
Defined.

(** C8, as stated, fails on a sentence with white space around it: the
    result is the trimmed sentence, not the sentence itself. *)
Lemma date_extraction_trims :
  combined_host_date (strip (str " Play begins soon "))
                     (lower (str "When does play begin?")) = None
  /\ ~ has_date (str " Play begins soon ")
  /\ extract_short_answer (str " Play begins soon ") DATE
       (str "When does play begin?") = str "Play begins soon"
  /\ extract_short_answer (str " Play begins soon ") DATE
       (str "When does play begin?") <> str " Play begins soon ".
Proof.
  split; [reflexivity|]. split; [|split; [reflexivity | vm_compute; discriminate]].
  intros H. apply has_date_strip, search_date_is_some in H.
  vm_compute in H. discriminate H.
Qed.

(** C4, as the code has it: for a question whose lower-cased text contains
    "host" and also "when" or "start", whatever the question type, a
    sentence that contains a hosting verb and a date is returned trimmed
    of its leading and trailing white space, with a trailing period
    ensured.  When the verb or the date is missing, the result is
    "host, date." when both captures are found, the host when only the
    host is found, the date when only the date is found. *)
Theorem combined_host_date_rule (sentence qtype question : pystr) :
  contains (str "host") (lower question) = true ->
  contains (str "when") (lower question) = true
  \/ contains (str "start") (lower question) = true ->
  let s := strip sentence in
  let answer := extract_short_answer sentence qtype question in
  (has_hosting_verb sentence /\ has_date sentence -> answer = ensure_period s)
  /\ (~ (has_hosting_verb sentence /\ has_date sentence) ->
      (forall host date,
          host_capture s = Some host -> date_capture s = Some date ->
          answer = host ++ str ", " ++ date ++ str ".")
      /\ (forall host,
            host_capture s = Some host -> date_capture s = None ->
            answer = host)
      /\ (forall date,
            host_capture s = None -> date_capture s = Some date ->
            answer = date)).
Proof.
  intros Hhost Hwhen s answer.
  assert (Hq : contains (str "host") (lower question)
               && (contains (str "when") (lower question)
                   || contains (str "start") (lower question)) = true).
  { rewrite Hhost. destruct Hwhen as [-> | ->];
      [reflexivity | apply orb_true_r]. }
  unfold answer, extract_short_answer. cbv zeta. fold s.
  unfold combined_host_date. rewrite Hq. split.
  - intros [Hv Hd]. apply has_hosting_verb_strip, search_hosted_is_some in Hv.
    apply has_date_strip, search_date_is_some in Hd. fold s in Hv, Hd.
    rewrite Hv, Hd. reflexivity.
  - intros Hnot.
    destruct (is_some (re_search HOSTED_RE s) && is_some (re_search MONTH_RE s))
      eqn:Hboth.
    { contradiction Hnot. apply andb_true_iff in Hboth as [Hv Hd].
      split; [apply has_hosting_verb_strip, search_hosted_is_some
             | apply has_date_strip, search_date_is_some]; assumption. }
    refine (conj _ (conj _ _)).
    + intros host date Hh Hd. rewrite Hh, Hd.
      unfold date_capture in Hd.
      destruct (re_search MONTH_RE s) as [m|] eqn:Hm; [|discriminate Hd].
      destruct (date_capture_some s Hm) as [Hcap Hdate].
      unfold date_capture in Hcap. rewrite Hm, Hd in Hcap.
      injection Hcap as ->.
      rewrite app_assoc, (date_no_period _ Hdate), <- app_assoc. reflexivity.
    + intros host Hh Hd. rewrite Hh, Hd.
      destruct (endswith (str ".") host); reflexivity.
    + intros date Hh Hd. rewrite Hh, Hd. reflexivity.
Qed.

Lemma combined_host_date_rule_witness :
  extract_short_answer
    (str "Co-hosted by India and Sri Lanka, starting February 7, 2026.")
    PERSON_OR_TEAM (str "Who is hosting it and when does it start?")
  = str "Co-hosted by India and Sri Lanka, starting February 7, 2026."
  /\ extract_short_answer
       (str "An event unhosted by India and Sri Lanka, on Sept. 17, 2026")
       FACT (str "Who is the host and when?")
     = str "India and Sri Lanka, Sept. 17, 2026.".
Proof.
  split.
  - destruct (combined_host_date_rule
                (str "Co-hosted by India and Sri Lanka, starting February 7, 2026.")
                PERSON_OR_TEAM (str "Who is hosting it and when does it start?")
                eq_refl (or_introl eq_refl)) as [H _].
    rewrite H; [reflexivity|].
    split; [apply has_hosting_verb_strip, search_hosted_is_some
           | apply has_date_strip, search_date_is_some]; reflexivity.
  - destruct (combined_host_date_rule
                (str "An event unhosted by India and Sri Lanka, on Sept. 17, 2026")
                FACT (str "Who is the host and when?")
                eq_refl (or_introl eq_refl)) as [_ H].
    destruct H as [H _].
    + intros [Hv _]. apply has_hosting_verb_strip, search_hosted_is_some in Hv.
      discriminate Hv.
    + apply (H (str "India and Sri Lanka") (str "Sept. 17, 2026"));
        reflexivity.
Defined.

(** C4, as stated, fails on a sentence with white space around it: the
    sentence holds a hosting verb and a date, the question asks for host
    and time, and the result is the trimmed sentence with a period, not
    the sentence itself with a period ensured. *)
Lemma combined_host_date_trims :
  let sentence := str " Hosted by India, starting February 7, 2026 " in
  let question := str "Who is the host and when does it start?" in
  contains (str "host") (lower question) = true
  /\ contains (str "when") (lower question) = true
  /\ has_hosting_verb sentence
  /\ has_date sentence
  /\ extract_short_answer sentence PERSON_OR_TEAM question
     = str "Hosted by India, starting February 7, 2026."
  /\ extract_short_answer sentence PERSON_OR_TEAM question
     <> ensure_period sentence
  /\ extract_short_answer sentence PERSON_OR_TEAM question <> sentence.
Proof.
  cbv zeta. split; [reflexivity|]. split; [reflexivity|].
  split; [apply has_hosting_verb_strip, search_hosted_is_some; reflexivity|].
  split; [apply has_date_strip, search_date_is_some; reflexivity|].
  split; [reflexivity|]. split; vm_compute; discriminate.
Qed.

(** ** The examples of the specification *)

Example replacement_rule :
  extract_short_answer (str "Bangladesh was replaced by Scotland.")
    (detect_question_type (str "Which team replaced Bangladesh?"))
    (str "Which team replaced Bangladesh?")
  = str "Scotland".
Proof. reflexivity. Qed.

Example name_before_role :
  extract_short_answer
    (str "Sophie Molineux has been appointed captain of the Australian team.")
    PERSON_OR_TEAM (str "Who is the new captain?")
  = str "Sophie Molineux".
Proof. reflexivity. Qed.

Example empty_retrieval :
  generate_extractive_answer (E := toy) (str "Who is the captain?") [] 0
  = inr ([], str "Retrieved Context: (none)").
Proof. reflexivity. Qed.

Example chunking_61_words :
  map (fun chunk => len (split chunk))
      (sliding_window_chunk (text_of 61 "w") 40 15)
  = [40; 36].
Proof. reflexivity. Qed.

Example nothing_below_the_floor :
  sliding_window_chunk (text_of 29 "w") 100 20 = [].
Proof. reflexivity. Qed.

(** * Further properties of the chunker *)

Lemma occurs_in_refl {A : Type} (s : list A) : occurs_in s s.
Proof. exists [], []. rewrite app_nil_r. reflexivity. Qed.

Lemma occurs_in_trans {A : Type} (a b c : list A) :
  occurs_in a b -> occurs_in b c -> occurs_in a c.
Proof.
  intros (p1 & q1 & ->) (p2 & q2 & ->). exists (p2 ++ p1), (q1 ++ q2).
  rewrite <- !app_assoc. reflexivity.
Qed.

Lemma py_slice_occurs {A : Type} (l : list A) (a b : Z) :
  occurs_in (py_slice l a b) l.
Proof.
  unfold py_slice.
  set (i := Z.to_nat (if a <? 0 then Z.max 0 (a + len l) else Z.min a (len l))).
  set (k := Z.to_nat _).
  exists (firstn i l), (skipn k (skipn i l)).
  rewrite (firstn_skipn k (skipn i l)), (firstn_skipn i l). reflexivity.
Qed.

Lemma py_slice_tokens (text : pystr) (a b : Z) :
  Forall is_token (py_slice (split text) a b).
Proof.
  apply Forall_forall. intros w Hw. apply py_slice_incl in Hw.
  exact (proj1 (Forall_forall _ _) (split_tokens text) w Hw).
Qed.

(** What the loop appends: windows of the word list that reach the floor. *)
Lemma chunk_loop_emits (text : pystr) (size : Z) (starts : list Z) :
  forall acc chunk,
    In chunk (chunk_loop (split text) size starts acc) ->
    In chunk acc
    \/ exists a b,
         chunk = join (str " ") (py_slice (split text) a b)
         /\ floor_words size <= len (py_slice (split text) a b).
Proof.
  induction starts as [|start starts IH]; intros acc chunk H; [left; exact H|].
  cbn [chunk_loop] in H. fold (floor_words size) in H.
  set (e := Z.min (len (split text)) (start + size)) in *.
  destruct (len (py_slice (split text) start e) <? floor_words size) eqn:Hlt;
    [left; exact H|].
  apply Z.ltb_ge in Hlt.
  assert (Hnew : forall c,
             In c (acc ++ [join (str " ") (py_slice (split text) start e)]) ->
             In c acc
             \/ exists a b,
                  c = join (str " ") (py_slice (split text) a b)
                  /\ floor_words size <= len (py_slice (split text) a b)).
  { intros c Hc. apply in_app_or in Hc as [Hc | [<- | []]]; [left; exact Hc|].
    right. exists start, e. split; [reflexivity | exact Hlt]. }
  destruct (e >=? len (split text)); [exact (Hnew _ H)|].
  destruct (IH _ _ H) as [Hin | Hex]; [exact (Hnew _ Hin) | right; exact Hex].
Qed.

(** The shape of a chunk. *)
Lemma sliding_window_chunk_In (text chunk : pystr) (size overlap : Z) :
  In chunk (sliding_window_chunk text size overlap) ->
  occurs_in (split chunk) (split text)
  /\ chunk = join (str " ") (split chunk)
  /\ floor_words size <= len (split chunk).
Proof.
  unfold sliding_window_chunk. intros H.
  destruct (split text) as [|w ws] eqn:Hw; [destruct H|]. rewrite <- Hw in H.
  apply chunk_loop_emits in H as [[] | (a & b & -> & Hfloor)].
  rewrite (split_join (py_slice_tokens text a b)).
  rewrite <- Hw. repeat split; [apply py_slice_occurs | exact Hfloor].
Qed.

(** X1: whatever the parameters, every chunk is a run of consecutive words
    of the text, joined by single spaces, and holds at least
    max(30, size // 4) words. *)
Theorem chunks_are_word_runs (text chunk : pystr) (size overlap : Z) :
  In chunk (sliding_window_chunk text size overlap) ->
  occurs_in (split chunk) (split text)
  /\ chunk = join (str " ") (split chunk)
  /\ floor_words size <= len (split chunk).
Proof. apply sliding_window_chunk_In. Qed.

Lemma chunks_are_word_runs_witness :
  In (text_of 36 "w") (sliding_window_chunk (text_of 61 "w") 40 15)
  /\ 30 <= len (split (text_of 36 "w")).
Proof.
  assert (H : In (text_of 36 "w") (sliding_window_chunk (text_of 61 "w") 40 15))
    by (right; left; reflexivity).
  split; [exact H|].
  destruct (chunks_are_word_runs (text_of 61 "w") (text_of 36 "w") 40 15 H)
    as (_ & _ & Hfloor).
  exact Hfloor.
Defined.

Lemma chunk_loop_extends (words : list pystr) (size : Z) (starts : list Z) :
  forall acc, exists l, chunk_loop words size starts acc = acc ++ l.
Proof.
  induction starts as [|start starts IH]; intros acc;
    [exists []; rewrite app_nil_r; reflexivity|].
  cbn [chunk_loop].
  destruct (len _ <? Z.max 30 (size / 4));
    [exists []; rewrite app_nil_r; reflexivity|].
  destruct (_ >=? len words); [eexists; reflexivity|].
  destruct (IH (acc ++ [join (str " ")
                          (py_slice words start
                             (Z.min (len words) (start + size)))]))
    as (l & ->).
  eexists. rewrite <- app_assoc. reflexivity.
Qed.

Lemma quarter_le (size : Z) : 0 <= size -> size / 4 <= size.
Proof. intros H. apply Z.div_le_upper_bound; lia. Qed.

(** When a text yields no chunk. *)
Lemma sliding_window_chunk_nil_iff (text : pystr) (size overlap : Z) :
  0 < size ->
  (sliding_window_chunk text size overlap = []
   <-> size < 30 \/ len (split text) < floor_words size).
Proof.
  intros Hsize. unfold sliding_window_chunk, floor_words.
  pose proof (quarter_le (size := size) ltac:(lia)) as Hq.
  destruct (split text) as [|w ws] eqn:Hw.
  - split; [intros _; right; cbn; lia | reflexivity].
  - rewrite <- Hw. set (words := split text).
    assert (Hn : 0 < len words) by (unfold words; rewrite Hw; unfold len; cbn; lia).
    unfold py_range.
    destruct (Z.to_nat (len words)) as [|f] eqn:Hf; [lia|].
    cbn [range_from].
    destruct (0 <? len words) eqn:E; [|apply Z.ltb_ge in E; lia].
    cbn [chunk_loop].
    destruct (py_slice_inside words (a := 0) (b := Z.min (len words) (0 + size)))
      as [_ Hlen]; [lia | lia |].
    rewrite Hlen.
    destruct (Z.min (len words) (0 + size) - 0 <? Z.max 30 (size / 4)) eqn:Hlt.
    + apply Z.ltb_lt in Hlt. split; [intros _; lia | reflexivity].
    + apply Z.ltb_ge in Hlt. split; [|lia]. intros Hnil. exfalso.
      destruct (_ >=? len words); [discriminate Hnil|].
      destruct (chunk_loop_extends words size
                  (range_from f (0 + Z.max 1 (size - overlap)) (len words)
                     (Z.max 1 (size - overlap)))
                  ([] ++ [join (str " ")
                            (py_slice words 0 (Z.min (len words) (0 + size)))]))
        as (l & Hl).
      rewrite Hl in Hnil. discriminate Hnil.
Qed.

(** X2: for a positive chunk size, a text yields no chunk exactly when the
    chunk size is below 30 or the text has fewer than max(30, size // 4)
    words; the overlap plays no part. *)
Theorem no_chunk_iff_short (text : pystr) (size overlap : Z) :
  0 < size ->
  (sliding_window_chunk text size overlap = []
   <-> size < 30 \/ len (split text) < floor_words size).
Proof. apply sliding_window_chunk_nil_iff. Qed.

Lemma no_chunk_iff_short_witness :
  0 < 100
  /\ sliding_window_chunk (text_of 29 "w") 100 20 = []
  /\ (100 < 30 \/ len (split (text_of 29 "w")) < floor_words 100).
Proof.
  split; [lia|]. split; [reflexivity|].
  apply (proj1 (no_chunk_iff_short (text_of 29 "w") (size := 100) 20
                  ltac:(lia))).
  reflexivity.
Defined.

(** X3: a text whose word count lies between the floor and the chunk size
    is one chunk: all its words, joined by single spaces. *)
Theorem one_window_one_chunk (text : pystr) (size overlap : Z) :
  floor_words size <= len (split text) <= size ->
  sliding_window_chunk text size overlap = [join (str " ") (split text)].
Proof.
  intros [Hlo Hhi]. unfold sliding_window_chunk.
  assert (H30 : 30 <= len (split text)) by (unfold floor_words in Hlo; lia).
  destruct (split text) as [|w ws] eqn:Hw; [cbn in H30; lia|].
  rewrite <- Hw in *. set (words := split text) in *.
  unfold py_range.
  destruct (Z.to_nat (len words)) as [|f] eqn:Hf; [lia|].
  cbn [range_from].
  destruct (0 <? len words) eqn:E; [|apply Z.ltb_ge in E; lia].
  cbn [chunk_loop].
  destruct (py_slice_inside words (a := 0) (b := Z.min (len words) (0 + size)))
    as [Hsl Hlen]; [lia | lia |].
  rewrite Hlen. fold (floor_words size).
  destruct (Z.min (len words) (0 + size) - 0 <? floor_words size) eqn:Hlt;
    [apply Z.ltb_lt in Hlt; lia|].
  destruct (Z.min (len words) (0 + size) >=? len words) eqn:Hge.
  - rewrite Hsl. replace (Z.to_nat (Z.min (len words) (0 + size) - 0))
      with (length words) by (unfold len in *; lia).
    cbn [Z.to_nat skipn app]. rewrite firstn_all. reflexivity.
  - destruct (Z.geb_spec (Z.min (len words) (0 + size)) (len words)); [discriminate|lia].
Qed.

Lemma one_window_one_chunk_witness :
  floor_words 100 <= len (split (text_of 35 "w")) <= 100
  /\ sliding_window_chunk (text_of 35 "w") 100 20 = [text_of 35 "w"].
Proof.
  assert (H : floor_words 100 <= len (split (text_of 35 "w")) <= 100)
    by (vm_compute; split; discriminate).
  split; [exact H|].
  rewrite (one_window_one_chunk (text_of 35 "w") 20 H). reflexivity.
Defined.

Section ScanStrict.

Variables (words : list pystr) (size step : Z).
Hypothesis step_ok : 1 <= step <= size.

(** The scan as in [chunk_loop_scan], recording in addition that the loop
    went past every window when it stops at a short candidate. *)
Lemma chunk_loop_scan_strict (fuel k : nat) (acc : list pystr) :
  Z.of_nat k * step < len words ->
  len words - Z.of_nat k * step <= Z.of_nat fuel ->
  exists m : nat,
    chunk_loop words size (range_from fuel (Z.of_nat k * step) (len words) step)
      acc
    = acc ++ map (fun i => join (str " ") (window words size step i)) (seq k m)
    /\ (forall i, (k <= i < k + m)%nat ->
          floor_words size <= len (window words size step i))
    /\ (((forall i, (k <= i < k + m)%nat ->
            Z.of_nat i * step + size < len words)
         /\ Z.of_nat (k + m) * step < len words
         /\ len (window words size step (k + m)) < floor_words size)
        \/ ((1 <= m)%nat
            /\ (forall i, (k <= i)%nat -> (i + 1 < k + m)%nat ->
                  Z.of_nat i * step + size < len words)
            /\ len words <= Z.of_nat (k + m - 1) * step + size)).
Proof.
  revert k acc; induction fuel as [|fuel IH]; intros k acc Hk Hfuel; [lia|].
  cbn [range_from].
  destruct (Z.of_nat k * step <? len words) eqn:E; [|apply Z.ltb_ge in E; lia].
  cbn [chunk_loop]. fold (window words size step k). fold (floor_words size).
  destruct (len (window words size step k) <? floor_words size) eqn:Hshort.
  - apply Z.ltb_lt in Hshort. exists 0%nat. rewrite Nat.add_0_r.
    simpl. rewrite app_nil_r.
    refine (conj eq_refl (conj _ (or_introl (conj _ (conj Hk Hshort))))).
    + intros i Hi; lia.
    + intros i Hi; lia.
  - apply Z.ltb_ge in Hshort.
    destruct (Z.min (len words) (Z.of_nat k * step + size) >=? len words)
      eqn:Hend.
    + apply Z.geb_le in Hend. exists 1%nat. simpl.
      refine (conj eq_refl (conj _ (or_intror (conj _ (conj _ _))))).
      * intros i Hi. assert (i = k) by lia. subst i. assumption.
      * lia.
      * intros i Hi1 Hi2; lia.
      * replace (k + 1 - 1)%nat with k by lia. lia.
    + assert (Hin : Z.of_nat k * step + size < len words).
      { destruct (Z.geb_spec (Z.min (len words) (Z.of_nat k * step + size))
                             (len words)); [discriminate | lia]. }
      replace (Z.of_nat k * step + step) with (Z.of_nat (S k) * step) by lia.
      destruct (IH (S k) (acc ++ [join (str " ") (window words size step k)]))
        as (m & Heq & Hall & Hstop); [lia | lia |].
      exists (S m). rewrite Heq.
      replace (k + S m)%nat with (S k + m)%nat by lia.
      refine (conj _ (conj _ _)).
      * rewrite <- app_assoc. reflexivity.
      * intros i Hi.
        destruct (Nat.eq_dec i k) as [->|Hne]; [assumption|].
        apply Hall; lia.
      * destruct Hstop as [(Hpast & Hm & Hs) | (Hm & Hmid & Hs)].
        -- left. refine (conj _ (conj Hm Hs)). intros i Hi.
           destruct (Nat.eq_dec i k) as [->|Hne]; [assumption|].
           apply Hpast; lia.
        -- right. refine (conj _ (conj _ Hs)); [lia|]. intros i Hi1 Hi2.
           destruct (Nat.eq_dec i k) as [->|Hne]; [assumption|].
           apply Hmid; lia.
Qed.

End ScanStrict.

(** The chunks of a text with words, for a positive size and a
    non-negative overlap: the candidate windows 0 to m-1 at offsets
    i * step, where step = max(1, size - overlap). *)
Lemma sliding_window_chunk_scan (text : pystr) (size overlap : Z) :
  0 < size -> 0 <= overlap -> split text <> [] ->
  let words := split text in
  let step := Z.max 1 (size - overlap) in
  exists m : nat,
    sliding_window_chunk text size overlap
    = map (fun i => join (str " ") (window words size step i)) (seq 0 m)
    /\ (forall i, (i < m)%nat ->
          floor_words size <= len (window words size step i))
    /\ (((forall i, (i < m)%nat -> Z.of_nat i * step + size < len words)
         /\ Z.of_nat m * step < len words
         /\ len (window words size step m) < floor_words size)
        \/ ((1 <= m)%nat
            /\ (forall i, (i + 1 < m)%nat ->
                  Z.of_nat i * step + size < len words)
            /\ len words <= Z.of_nat (m - 1) * step + size)).
Proof.
  intros Hsize Hov Hne words step. unfold sliding_window_chunk. fold words.
  destruct words as [|w ws] eqn:Hw; [contradiction Hne; reflexivity|].
  rewrite <- Hw. fold step. unfold py_range.
  assert (Hn : 0 < len words) by (rewrite Hw; unfold len; simpl; lia).
  destruct (chunk_loop_scan_strict words (size := size) (step := step)
              ltac:(unfold step; lia) (Z.to_nat (len words)) 0 [])
    as (m & Heq & Hall & Hstop); [lia | lia |].
  exists m. simpl in Heq. rewrite Heq. simpl in Hstop.
  refine (conj eq_refl (conj _ _)).
  - intros i Hi. apply Hall; lia.
  - destruct Hstop as [(Hpast & Hm & Hs) | (Hm & Hmid & Hs)].
    + left. refine (conj _ (conj Hm Hs)). intros i Hi. apply Hpast; lia.
    + right. refine (conj Hm (conj _ Hs)). intros i Hi. apply Hmid; lia.
Qed.

Lemma nth_error_py_slice {A : Type} (l : list A) (a b j : Z) :
  0 <= a <= j -> j < b -> b <= len l ->
  nth_error (py_slice l a b) (Z.to_nat (j - a)) = nth_error l (Z.to_nat j).
Proof.
  intros Ha Hj Hb.
  destruct (py_slice_inside l (a := a) (b := b)) as [-> _]; [lia | lia |].
  rewrite nth_error_firstn.
  destruct (Nat.ltb_spec (Z.to_nat (j - a)) (Z.to_nat (b - a))); [|lia].
  rewrite nth_error_skipn. f_equal. lia.
Qed.

Lemma nth_error_map_seq {A : Type} (f : nat -> A) (m i : nat) :
  (i < m)%nat -> nth_error (map f (seq 0 m)) i = Some (f i).
Proof.
  intros Hi. rewrite nth_error_map, nth_error_seq.
  destruct (Nat.ltb_spec i m); [reflexivity | lia].
Qed.

(** X4: for a positive size and an overlap below it, when a text yields
    chunks they cover its words from the first up to the end of the last
    window: word j of the text is word j - i * step of some chunk i.  The
    words behind the last window are dropped, and they are at most
    max(30, size // 4) - overlap - 1; none is dropped when the overlap
    reaches the floor. *)
Theorem chunks_cover_all_but_tail (text : pystr) (size overlap : Z) :
  0 < size -> 0 <= overlap < size ->
  sliding_window_chunk text size overlap <> [] ->
  let words := split text in
  let chunks := sliding_window_chunk text size overlap in
  let step := size - overlap in
  let covered :=
    Z.min (len words) ((len chunks - 1) * step + size) in
  (forall j, 0 <= j < covered ->
     exists (i : nat) (chunk : pystr),
       nth_error chunks i = Some chunk
       /\ Z.of_nat i * step <= j
       /\ nth_error (split chunk) (Z.to_nat (j - Z.of_nat i * step))
          = nth_error words (Z.to_nat j))
  /\ 0 <= len words - covered <= Z.max 0 (floor_words size - overlap - 1).
Proof.
  intros Hsize Hov Hne words chunks step covered.
  assert (Hwords : split text <> []).
  { intros Hnil. apply Hne. unfold sliding_window_chunk. rewrite Hnil.
    reflexivity. }
  destruct (sliding_window_chunk_scan text Hsize (proj1 Hov) Hwords)
    as (m & Heq & Hall & Hstop).
  fold words in Heq, Hall, Hstop. fold chunks in Heq, Hne.
  replace (Z.max 1 (size - overlap)) with step in * by (unfold step; lia).
  assert (Hm : (1 <= m)%nat).
  { destruct m; [|lia]. contradiction Hne. }
  assert (Hlen : len chunks = Z.of_nat m).
  { unfold len. rewrite Heq, length_map, length_seq. reflexivity. }
  assert (Hstep : 1 <= step <= size) by (unfold step; lia).
  assert (Hfs : floor_words size <= size).
  { specialize (Hall 0%nat ltac:(lia)).
    pose proof (window_len_le words (size := size) (step := step) 0
                  ltac:(lia) ltac:(lia)). lia. }
  assert (Hwin : forall i : nat, (i < m)%nat -> Z.of_nat i * step < len words).
  { intros i Hi.
    destruct Hstop as [(Hpast & _) | (_ & Hmid & Hs)].
    - specialize (Hpast i Hi). lia.
    - destruct (Nat.eq_dec (i + 1) m) as [Hlast | Hnl].
      + specialize (Hall i Hi). unfold window in Hall.
        pose proof (py_slice_len_le words (a := Z.of_nat i * step)
                      (b := Z.min (len words) (Z.of_nat i * step + size))
                      ltac:(lia) ltac:(pose proof (len_nonneg words); lia)).
        unfold floor_words in Hall. lia.
      + specialize (Hmid i ltac:(lia)). lia. }
  subst covered. rewrite Hlen. split.
  - intros j Hj.
    set (i := Z.to_nat (Z.min (j / step) (Z.of_nat m - 1))).
    assert (Hdiv1 : step * (j / step) <= j) by (apply Z.mul_div_le; lia).
    assert (Hdiv2 : j < step * Z.succ (j / step))
      by (apply Z.mul_succ_div_gt; lia).
    assert (Hdiv0 : 0 <= j / step) by (apply Z.div_pos; lia).
    assert (Hi : (i < m)%nat) by (unfold i; lia).
    assert (Hlo : Z.of_nat i * step <= j) by (unfold i; nia).
    assert (Hhi : j < Z.min (len words) (Z.of_nat i * step + size)).
    { unfold i. destruct (Z.le_gt_cases (j / step) (Z.of_nat m - 1)).
      - rewrite (Z.min_l (j / step)) by lia. rewrite Z2Nat.id by lia. nia.
      - rewrite (Z.min_r (j / step)) by lia. rewrite Z2Nat.id by lia. lia. }
    exists i, (join (str " ") (window words size step i)).
    split.
    { rewrite Heq.
      exact (@nth_error_map_seq _
               (fun i => join (str " ") (window words size step i)) m i Hi). }
    split; [exact Hlo|].
    unfold words at 1. rewrite (split_join (window_tokens text size step i)).
    fold words. unfold window.
    apply nth_error_py_slice; [lia | lia | lia].
  - destruct Hstop as [(Hpast & Hmlt & Hs) | (_ & _ & Hs)].
    + specialize (Hpast (m - 1)%nat ltac:(lia)).
      rewrite (@window_len words size step Hstep m Hmlt) in Hs.
      replace (Z.of_nat (m - 1)) with (Z.of_nat m - 1) in Hpast by lia.
      unfold step in *. lia.
    + replace (Z.of_nat (m - 1)) with (Z.of_nat m - 1) in Hs by lia.
      unfold floor_words. lia.
Qed.

Lemma chunks_cover_all_but_tail_witness :
  0 < 40 /\ 0 <= 15 < 40
  /\ sliding_window_chunk (text_of 61 "w") 40 15 <> []
  /\ 0 <= len (split (text_of 61 "w"))
          - Z.min (len (split (text_of 61 "w")))
                  ((len (sliding_window_chunk (text_of 61 "w") 40 15) - 1)
                   * (40 - 15) + 40)
       <= Z.max 0 (floor_words 40 - 15 - 1).
Proof.
  split; [lia|]. split; [lia|].
  assert (H : sliding_window_chunk (text_of 61 "w") 40 15 <> [])
    by (vm_compute; discriminate).
  split; [exact H|].
  exact (proj2 (chunks_cover_all_but_tail (text_of 61 "w") (size := 40)
                  (overlap := 15) ltac:(lia) ltac:(lia) H)).
Defined.

(** X5: an overlap that is not below the chunk size makes the step 1: a
    text of n >= size >= 30 words yields n - size + 1 chunks, chunk i
    holding the words i to i + size - 1. *)
Theorem dense_chunks_when_overlap_reaches_size (text : pystr)
    (size overlap : Z) :
  30 <= size -> size <= overlap -> size <= len (split text) ->
  let words := split text in
  let chunks := sliding_window_chunk text size overlap in
  len chunks = len words - size + 1
  /\ forall i : nat,
       Z.of_nat i < len chunks ->
       nth_error chunks i
       = Some (join (str " ")
                 (py_slice words (Z.of_nat i) (Z.of_nat i + size))).
Proof.
  intros Hsize Hov Hn words chunks.
  assert (Hwords : split text <> []).
  { intros Hnil. rewrite Hnil in Hn. cbn in Hn. lia. }
  destruct (sliding_window_chunk_scan text (size := size) (overlap := overlap)
              ltac:(lia) ltac:(lia) Hwords) as (m & Heq & Hall & Hstop).
  fold words in Heq, Hall, Hstop, Hn. fold chunks in Heq.
  replace (Z.max 1 (size - overlap)) with 1 in * by lia.
  assert (Hfs : floor_words size <= size).
  { unfold floor_words. pose proof (quarter_le (size := size) ltac:(lia)). lia. }
  assert (Hlen : len chunks = Z.of_nat m).
  { unfold len. rewrite Heq, length_map, length_seq. reflexivity. }
  assert (Hm : Z.of_nat m = len words - size + 1).
  { destruct Hstop as [(Hpast & Hmlt & Hs) | (Hm1 & Hmid & Hs)].
    - exfalso.
      rewrite (@window_len words size 1 ltac:(lia) m Hmlt) in Hs.
      destruct m as [|m']; [lia|].
      specialize (Hpast m' ltac:(lia)). lia.
    - destruct (Nat.eq_dec m 1) as [-> | Hm2]; [cbn in Hs; lia|].
      specialize (Hmid (m - 2)%nat ltac:(lia)). lia. }
  split; [lia|]. intros i Hi. rewrite Heq.
  rewrite (@nth_error_map_seq _
             (fun i => join (str " ") (window words size 1 i)) m i ltac:(lia)).
  unfold window. rewrite Z.mul_1_r, Z.min_r by lia. reflexivity.
Qed.

Lemma dense_chunks_when_overlap_reaches_size_witness :
  30 <= 30 /\ 30 <= 30 /\ 30 <= len (split (text_of 33 "w"))
  /\ len (sliding_window_chunk (text_of 33 "w") 30 30) = 4.
Proof.
  assert (H : 30 <= len (split (text_of 33 "w")))
    by (vm_compute; discriminate).
  split; [lia|]. split; [lia|]. split; [exact H|].
  rewrite (proj1 (dense_chunks_when_overlap_reaches_size (text_of 33 "w")
                    (size := 30) (overlap := 30) ltac:(lia) ltac:(lia) H)).
  reflexivity.
Defined.

(** * Further properties of the index and the retriever *)

Lemma enumerate_In {A : Type} (l : list A) (i : Z) (x : A) :
  In (i, x) (enumerate l) ->
  0 <= i /\ nth_error l (Z.to_nat i) = Some x.
Proof.
  unfold enumerate. intros H.
  assert (G : forall (k : nat) (l : list A),
             In (i, x) (combine (map Z.of_nat (seq k (length l))) l) ->
             Z.of_nat k <= i /\ nth_error l (Z.to_nat i - k) = Some x).
  { clear. intros k l; revert k; induction l as [|y l IH]; intros k H;
      [destruct H|].
    cbn in H. destruct H as [H | H].
    - injection H as <- <-. split; [lia|].
      replace (Z.to_nat (Z.of_nat k) - k)%nat with 0%nat by lia. reflexivity.
    - destruct (IH (S k) H) as [Hk Hn]. split; [lia|].
      replace (Z.to_nat i - k)%nat with (S (Z.to_nat i - S k)) by lia.
      exact Hn. }
  destruct (G 0%nat l H) as [H0 Hn]. split; [lia|].
  rewrite Nat.sub_0_r in Hn. exact Hn.
Qed.

(** Where a chunk of the corpus comes from. *)
Lemma collect_chunks_In (docs : list (pystr * pystr)) (size overlap : Z)
    (c : Chunk) :
  In c (collect_chunks docs size overlap) ->
  exists txt,
    In (doc_id c, txt) docs
    /\ 0 <= chunk_id c
    /\ nth_error (sliding_window_chunk txt size overlap)
         (Z.to_nat (chunk_id c)) = Some (text c).
Proof.
  unfold collect_chunks. intros H.
  apply in_flat_map in H as ([d txt] & Hd & H).
  apply in_map_iff in H as ([i ct] & <- & H). cbn.
  apply enumerate_In in H as [Hi Hn]. exists txt. auto.
Qed.

(** X6: every chunk collected for the index belongs to one document of the
    corpus, which its [doc_id] names, and its [chunk_id] is its position,
    counted from 0, among the chunks of that document. *)
Theorem chunk_ids_are_positions (docs : list (pystr * pystr))
    (size overlap : Z) (c : Chunk) :
  In c (collect_chunks docs size overlap) ->
  exists txt,
    In (doc_id c, txt) docs
    /\ 0 <= chunk_id c
    /\ nth_error (sliding_window_chunk txt size overlap)
         (Z.to_nat (chunk_id c)) = Some (text c).
Proof. apply collect_chunks_In. Qed.

Lemma chunk_ids_are_positions_witness :
  exists c txt,
    In c (collect_chunks corpus_a 100 20)
    /\ In (doc_id c, txt) corpus_a
    /\ nth_error (sliding_window_chunk txt 100 20) (Z.to_nat (chunk_id c))
       = Some (text c).
Proof.
  set (c := mkChunk (str "b.txt") 0 (text_of 35 "beta")).
  assert (H : In c (collect_chunks corpus_a 100 20))
    by (right; left; reflexivity).
  destruct (chunk_ids_are_positions corpus_a 100 20 c H) as (txt & H1 & _ & H3).
  exists c, txt. exact (conj H (conj H1 H3)).
Defined.

Lemma py_index_In {A : Type} (l : list A) (i : Z) (x : A) :
  py_index l i = Some x -> In x l.
Proof.
  unfold py_index.
  destruct ((0 <=? i) && (i <? len l)); [apply nth_error_In|].
  destruct ((- len l <=? i) && (i <? 0)); [apply nth_error_In | discriminate].
Qed.

Section IndexFacts.

Context {E : Externals}.

Lemma retrieve_loop_stored (cs : list Chunk) (pairs : list (Z * F)) :
  forall acc results,
    retrieve_loop cs pairs acc = inr results ->
    Forall (fun p => In (fst p) cs) acc ->
    Forall (fun p => In (fst p) cs) results.
Proof.
  induction pairs as [|[idx score] pairs IH]; intros acc results H Hacc.
  - injection H as <-. exact Hacc.
  - cbn [retrieve_loop] in H.
    destruct (idx =? -1); [eapply IH; [exact H | exact Hacc]|].
    destruct (py_index cs idx) as [c|] eqn:Hc; [|discriminate H]. cbn in H.
    eapply IH; [exact H|]. apply Forall_app. split; [exact Hacc|].
    constructor; [|constructor]. exact (py_index_In _ _ Hc).
Qed.

Lemma retrieve_stored (self : NaiveRAG) (query : pystr) (top_k : Z)
    (results : list (Chunk * F)) :
  retrieve self query top_k = inr results ->
  Forall (fun p => In (fst p) (chunks self)) results.
Proof.
  unfold retrieve. destruct (index self) as [ix|]; [|discriminate].
  destruct (encode [query]) as [e|q_emb]; [discriminate|]. cbn.
  destruct (index_search ix q_emb top_k) as [e|[scores ids]];
    [discriminate|]. cbn.
  destruct (py_index ids 0) as [ids0|]; [|discriminate]. cbn.
  destruct (py_index scores 0) as [scores0|]; [|discriminate]. cbn.
  intros H. eapply retrieve_loop_stored; [exact H | constructor].
Qed.

(** X7: whatever the vector index answers, every chunk that [retrieve]
    returns is one of the stored chunks. *)
Theorem retrieve_returns_stored_chunks (self : NaiveRAG) (query : pystr)
    (top_k : Z) (results : list (Chunk * F)) :
  retrieve self query top_k = inr results ->
  forall c score, In (c, score) results -> In c (chunks self).
Proof.
  intros H c score Hin. apply retrieve_stored in H.
  exact (proj1 (Forall_forall _ _) H (c, score) Hin).
Qed.

(** X8: after a successful [build_index], every chunk that [retrieve]
    returns is a chunk of a document of the corpus the index was built
    from, with that document's identifier. *)
Theorem retrieved_chunks_come_from_corpus (docs : list (pystr * pystr))
    (size overlap : Z) (self self' : NaiveRAG) (query : pystr) (top_k : Z)
    (results : list (Chunk * F)) :
  build_index docs size overlap self = (inr tt, self') ->
  retrieve self' query top_k = inr results ->
  forall c score,
    In (c, score) results ->
    exists txt,
      In (doc_id c, txt) docs
      /\ In (text c) (sliding_window_chunk txt size overlap).
Proof.
  intros Hbuild Hret c score Hin.
  apply build_index_success in Hbuild as (embs & d & ix0 & ix & _ & _ & _ & ->).
  apply retrieve_stored in Hret.
  pose proof (proj1 (Forall_forall _ _) Hret (c, score) Hin) as Hc.
  cbn in Hc. apply collect_chunks_In in Hc as (txt & Hdoc & _ & Hn).
  exists txt. split; [exact Hdoc|]. exact (nth_error_In _ _ Hn).
Qed.


End IndexFacts.

Lemma retrieve_returns_stored_chunks_witness :
  let self := snd (build_index (E := toy) corpus_a 100 20 init) in
  exists results c score,
    retrieve self (str "alpha alpha") 3 = inr results
    /\ In (c, score) results /\ In c (chunks self).
Proof.
  intros self.
  destruct (retrieve self (str "alpha alpha") 3) as [e|results] eqn:H;
    [vm_compute in H; discriminate H|].
  destruct results as [|[c score] results]; [vm_compute in H; discriminate H|].
  exists ((c, score) :: results), c, score.
  split; [reflexivity|]. split; [left; reflexivity|].
  exact (retrieve_returns_stored_chunks self (str "alpha alpha") 3 H c score
           (or_introl eq_refl)).
Defined.

Lemma retrieved_chunks_come_from_corpus_witness :
  exists self' results c score txt,
    build_index (E := toy) corpus_a 100 20 init = (inr tt, self')
    /\ retrieve self' (str "alpha alpha") 3 = inr results
    /\ In (c, score) results
    /\ In (doc_id c, txt) corpus_a
    /\ In (text c) (sliding_window_chunk txt 100 20).
Proof.
  set (self' := snd (build_index (E := toy) corpus_a 100 20 init)).
  assert (Hb : build_index (E := toy) corpus_a 100 20 init = (inr tt, self'))
    by (vm_compute; reflexivity).
  destruct (retrieve self' (str "alpha alpha") 3) as [e|results] eqn:H;
    [vm_compute in H; discriminate H|].
  destruct results as [|[c score] results]; [vm_compute in H; discriminate H|].
  destruct (retrieved_chunks_come_from_corpus corpus_a 100 20 init
              (str "alpha alpha") 3 Hb H c score (or_introl eq_refl))
    as (txt & H1 & H2).
  exists self', ((c, score) :: results), c, score, txt.
  exact (conj Hb (conj H (conj (or_introl eq_refl) (conj H1 H2)))).
Defined.


Section BuildFacts.

Context {E : Externals}.

Lemma collect_chunks_nil_iff (docs : list (pystr * pystr)) (size overlap : Z) :
  collect_chunks docs size overlap = []
  <-> forall d t, In (d, t) docs -> sliding_window_chunk t size overlap = [].
Proof.
  unfold collect_chunks. induction docs as [|[d t] docs IH].
  - split; [intros _ d t [] | reflexivity].
  - cbn [flat_map]. split.
    + intros H. apply app_eq_nil in H as [H1 H2].
      intros d' t' [Heq | Hin].
      * injection Heq as <- <-.
        destruct (sliding_window_chunk t size overlap); [reflexivity|].
        discriminate H1.
      * exact (proj1 IH H2 d' t' Hin).
    + intros H. rewrite (H d t (or_introl eq_refl)). cbn.
      apply IH. intros d' t' Hin. apply (H d' t'). right. exact Hin.
Qed.

Lemma build_index_value_error (docs : list (pystr * pystr)) (size overlap : Z)
    (self self' : NaiveRAG) (msg : string) :
  build_index docs size overlap self = (inl (ValueError msg), self') ->
  collect_chunks docs size overlap = [].
Proof.
  unfold build_index.
  destruct (collect_chunks docs size overlap) as [|c cs]; [reflexivity|].
  unfold mbind, set_chunks, get_self, lift, set_dim, set_index. cbn.
  destruct (encode (text c :: map text cs)) as [e|embs]; [discriminate|]. cbn.
  destruct embs as [|row embs]; [discriminate|]. cbn.
  destruct (IndexFlatIP (len row)) as [e|ix0]; [discriminate|]. cbn.
  destruct (index_add ix0 (row :: embs)) as [e|ix]; discriminate.
Qed.

(** X10: for a positive chunk size, [build_index] raises its ValueError
    exactly when the chunk size is below 30 or every document of the corpus
    has fewer than max(30, size // 4) words (so also for an empty corpus);
    the object is then left as it was. *)
Theorem build_index_value_error_iff (docs : list (pystr * pystr))
    (size overlap : Z) (self : NaiveRAG) :
  0 < size ->
  ((exists msg self',
      build_index docs size overlap self = (inl (ValueError msg), self'))
   <-> (size < 30
        \/ forall d t, In (d, t) docs -> len (split t) < floor_words size))
  /\ (forall msg self',
        build_index docs size overlap self = (inl (ValueError msg), self') ->
        self' = self).
Proof.
  intros Hsize. split; [split|].
  - intros (msg & self' & H). apply build_index_value_error in H.
    destruct (Z.ltb_spec size 30) as [Hlt | Hge]; [left; exact Hlt | right].
    intros d t Hin.
    pose proof (proj1 (collect_chunks_nil_iff docs size overlap) H d t Hin)
      as Hnil.
    apply (proj1 (sliding_window_chunk_nil_iff t overlap Hsize)) in Hnil.
    destruct Hnil as [Hlt | Hshort]; [lia | exact Hshort].
  - intros H. exists no_chunks_msg, self. apply build_index_no_chunks.
    apply collect_chunks_nil_iff. intros d t Hin.
    apply (proj2 (sliding_window_chunk_nil_iff t overlap Hsize)).
    destruct H as [H | H]; [left; exact H | right; exact (H d t Hin)].
  - intros msg self' H.
    pose proof (build_index_value_error _ _ _ _ H) as Hnil.
    rewrite (build_index_no_chunks _ _ _ self Hnil) in H.
    injection H as _ <-. reflexivity.
Qed.

(** X11: when the embedder returns a row per text, a new index is empty and
    adding rows raises the count by their number, a successful
    [build_index] leaves an index with as many vectors as chunks; a search
    over it whose ids are the sentinel or positions of stored vectors then
    makes [retrieve] return, never raise. *)
Theorem retrieve_after_build_returns (docs : list (pystr * pystr))
    (size overlap : Z) (self self' : NaiveRAG) :
  (forall texts embs, encode texts = inr embs -> len embs = len texts) ->
  (forall d ix0, IndexFlatIP d = inr ix0 -> ntotal ix0 = 0) ->
  (forall ix0 embs ix,
      index_add ix0 embs = inr ix -> ntotal ix = ntotal ix0 + len embs) ->
  build_index docs size overlap self = (inr tt, self') ->
  exists ix,
    index self' = Some ix
    /\ ntotal ix = len (chunks self')
    /\ forall (query : pystr) (top_k : Z) (q_emb scores : list (list F))
         (ids : list (list Z)) (ids0 : list Z) (scores0 : list F),
         encode [query] = inr q_emb ->
         index_search ix q_emb top_k = inr (scores, ids) ->
         py_index ids 0 = Some ids0 ->
         py_index scores 0 = Some scores0 ->
         Forall (fun i => i = -1 \/ 0 <= i < ntotal ix) ids0 ->
         exists results, retrieve self' query top_k = inr results.
Proof.
  intros Henc Hflat Hadd Hbuild.
  destruct (build_index_consistent _ _ _ _ Henc Hflat Hadd Hbuild)
    as (ix & Hix & Hn).
  exists ix. refine (conj Hix (conj Hn _)).
  intros query top_k q_emb scores ids ids0 scores0 Hq Hsearch Hids Hscores Hok.
  rewrite (retrieve_unfold self' query top_k Hix Hq Hsearch Hids Hscores).
  apply retrieve_loop_total.
  apply Forall_combine_fst
    with (P := fun i => i = -1 \/ 0 <= i < len (chunks self')).
  rewrite <- Hn. exact Hok.
Qed.

End BuildFacts.

Lemma build_index_value_error_iff_witness :
  0 < 100
  /\ exists msg self',
       build_index (E := toy) [(str "a.txt", text_of 29 "alpha")] 100 20 init
       = (inl (ValueError msg), self').
Proof.
  split; [lia|].
  destruct (build_index_value_error_iff (E := toy)
              [(str "a.txt", text_of 29 "alpha")] 20 init
              (size := 100) ltac:(lia)) as [[_ H] _].
  apply H. right. intros d t [Heq | []]. injection Heq as <- <-.
  vm_compute. reflexivity.
Defined.

Lemma toy_encode_rows (texts : list pystr) (embs : list (list Z)) :
  toy_encode texts = inr embs -> len embs = len texts.
Proof.
  unfold toy_encode. destruct (_ <=? 400); [|discriminate].
  intros H. injection H as <-. unfold len. rewrite length_map. reflexivity.
Qed.

Lemma retrieve_after_build_returns_witness :
  let built := snd (build_index (E := toy) corpus_a 100 20 init) in
  exists ix, index built = Some ix /\ ntotal ix = len (chunks built).
Proof.
  intros built.
  assert (Hb : build_index (E := toy) corpus_a 100 20 init = (inr tt, built))
    by (vm_compute; reflexivity).
  destruct (retrieve_after_build_returns (E := toy) corpus_a 100 20 init)
    with (self' := built) as (ix & Hix & Hn & _).
  - exact toy_encode_rows.
  - intros d ix0 H. injection H as <-. reflexivity.
  - intros ix0 embs ix H. injection H as <-. cbn. unfold len.
    rewrite length_app. lia.
  - exact Hb.
  - exists ix. split; assumption.
Defined.

(** * The callers of the facade *)

Section CallerFacts.

Context {E : Externals}.

Lemma first_scoring_filter (retrieved : list (Chunk * F)) (m : F) :
  first_scoring (score_filter retrieved m) m = first_scoring retrieved m.
Proof.
  unfold score_filter. induction retrieved as [|[c s] retrieved IH];
    [reflexivity|].
  cbn [filter first_scoring snd]. destruct (F_ge s m) eqn:Hs; [|exact IH].
  cbn [first_scoring]. rewrite Hs. reflexivity.
Qed.

Lemma first_scoring_filter_head (retrieved : list (Chunk * F)) (m : F)
    (p : Chunk * F) (l : list (Chunk * F)) :
  score_filter retrieved m = p :: l ->
  first_scoring retrieved m = Some p.
Proof.
  intros H. rewrite <- first_scoring_filter, H.
  assert (Hin : In p (score_filter retrieved m)) by (rewrite H; left; reflexivity).
  apply filter_In in Hin as [_ Hp]. destruct p as [c s]. cbn in *.
  rewrite Hp. reflexivity.
Qed.

Lemma answer_of_answer_from (query : pystr) (r1 r2 : list (Chunk * F))
    (chosen : Chunk * F) :
  answer_of (answer_from query r1 chosen)
  = answer_of (answer_from query r2 chosen).
Proof.
  unfold answer_of, answer_from.
  destruct (_best_sentence query (text (fst chosen))); reflexivity.
Qed.

(** The answer of the facade on a non-empty list is that of its first
    qualifying pair. *)
Lemma answer_of_generate_some (query : pystr) (retrieved : list (Chunk * F))
    (m : F) (chosen : Chunk * F) :
  first_scoring retrieved m = Some chosen ->
  answer_of (generate_extractive_answer query retrieved m)
  = answer_of (answer_from query [] chosen).
Proof.
  intros H. unfold generate_extractive_answer, choose.
  destruct retrieved as [|p l]; [discriminate H|].
  rewrite H. cbn [or_index_error bind ret]. apply answer_of_answer_from.
Qed.

(** X12: the pre-filter of [run_case_study_txt] (only the pairs whose score
    reaches the threshold, or all of them when there is none) does not
    change the answer: it is the answer the facade gives, with the same
    threshold, on the unfiltered retrieval result. *)
Theorem case_study_filter_keeps_answer (rag : NaiveRAG) (query : pystr)
    (top_k : Z) (min_retrieval_score : F) :
  answer_of (case_study_answer rag query top_k min_retrieval_score)
  = answer_of
      (retrieved <- retrieve rag query top_k ;;
       generate_extractive_answer query retrieved min_retrieval_score)%py.
Proof.
  unfold case_study_answer.
  destruct (retrieve rag query top_k) as [e|retrieved]; [reflexivity|].
  cbn [bind].
  destruct (score_filter retrieved min_retrieval_score) as [|p l] eqn:Hf;
    [reflexivity|].
  cbn [is_empty negb].
  pose proof (first_scoring_filter_head _ _ Hf) as Hfirst.
  transitivity (answer_of (answer_from query [] p)).
  - apply answer_of_generate_some.
    rewrite <- Hf, first_scoring_filter. exact Hfirst.
  - symmetry. apply answer_of_generate_some. exact Hfirst.
Qed.

(** X13: the demo application filters the retrieval result by score >= 0.0
    before it calls the facade.  When no score reaches 0.0 it gets the
    empty answer and the fixed report, also for a non-empty retrieval
    result; otherwise its answer is the one the facade gives on the
    unfiltered result. *)
Theorem app_answer_cases (rag : NaiveRAG) (query : pystr) (top_k : Z)
    (zero : F) (retrieved : list (Chunk * F)) :
  retrieve rag query top_k = inr retrieved ->
  (Forall (fun p => F_ge (snd p) zero = false) retrieved ->
   app_answer rag query top_k zero = inr ([], str "Retrieved Context: (none)"))
  /\ (Exists (fun p => F_ge (snd p) zero = true) retrieved ->
      answer_of (app_answer rag query top_k zero)
      = answer_of (generate_extractive_answer query retrieved zero)).
Proof.
  intros Hret. unfold app_answer. rewrite Hret. cbn [bind]. split.
  - intros Hall.
    assert (Hnil : score_filter retrieved zero = []).
    { clear Hret. unfold score_filter.
      induction Hall as [|p l Hp _ IH]; [reflexivity|].
      cbn [filter]. rewrite Hp. exact IH. }
    rewrite Hnil. reflexivity.
  - intros Hex.
    destruct (score_filter retrieved zero) as [|p l] eqn:Hf.
    + exfalso. apply Exists_exists in Hex as (p & Hin & Hp).
      assert (Hin' : In p (score_filter retrieved zero))
        by (apply filter_In; split; assumption).
      rewrite Hf in Hin'. destruct Hin'.
    + pose proof (first_scoring_filter_head _ _ Hf) as Hfirst.
      transitivity (answer_of (answer_from query [] p)).
      * apply answer_of_generate_some.
        rewrite <- Hf, first_scoring_filter. exact Hfirst.
      * symmetry. apply answer_of_generate_some. exact Hfirst.
Qed.

End CallerFacts.

Lemma app_answer_cases_witness :
  let rag := snd (build_index (E := toy) corpus_a 100 20 init) in
  exists retrieved,
    retrieve rag (str "alpha alpha") 3 = inr retrieved
    /\ answer_of (app_answer rag (str "alpha alpha") 3 0)
       = answer_of (generate_extractive_answer (str "alpha alpha") retrieved 0).
Proof.
  intros rag.
  destruct (retrieve rag (str "alpha alpha") 3) as [e|retrieved] eqn:H;
    [vm_compute in H; discriminate H|].
  exists retrieved. split; [reflexivity|].
  destruct (app_answer_cases (E := toy) rag (str "alpha alpha") 3 0 H)
    as [_ Hsome].
  apply Hsome. vm_compute in H. injection H as <-.
  apply Exists_cons_hd. vm_compute. reflexivity.
Defined.

(** * Sentences *)

Lemma all_app (p : ascii -> bool) (a b : pystr) :
  all p (a ++ b) <-> all p a /\ all p b.
Proof. unfold all. rewrite forallb_app. apply andb_true_iff. Qed.

Lemma all_occurs (p : ascii -> bool) (w s : pystr) :
  all p s -> occurs_in w s -> all p w.
Proof.
  intros Hs (pre & post & ->).
  apply all_app in Hs as [_ Hs]. apply all_app in Hs as [Hs _]. exact Hs.
Qed.

Lemma occurs_in_app_l {A : Type} (p w s : list A) :
  occurs_in w s -> occurs_in w (p ++ s).
Proof.
  intros (pre & post & ->). exists (p ++ pre), post.
  rewrite <- app_assoc. reflexivity.
Qed.

Lemma occurs_in_app_r {A : Type} (p w s : list A) :
  occurs_in w s -> occurs_in w (s ++ p).
Proof.
  intros (pre & post & ->). exists pre, (post ++ p).
  rewrite <- !app_assoc. reflexivity.
Qed.

Lemma contains_iff (p s : pystr) : contains p s = true <-> occurs_in p s.
Proof.
  induction s as [|c s IH]; cbn [contains].
  - rewrite orb_false_r, startswith_iff. split.
    + intros [t Ht]. exists [], t. exact Ht.
    + intros (pre & post & H). symmetry in H.
      apply app_eq_nil in H as [-> H]. exists post. symmetry. exact H.
  - rewrite orb_true_iff, startswith_iff, IH. split.
    + intros [[t Ht] | H].
      * exists [], t. exact Ht.
      * exact (occurs_in_app_l [c] H).
    + intros (pre & post & H). destruct pre as [|y pre].
      * left. exists post. exact H.
      * right. injection H as _ H. exists pre, post. exact H.
Qed.

(** ** Trimming *)

Lemma lstrip_blank (x : pystr) : all isspace x -> lstrip x = [].
Proof.
  unfold all. induction x as [|c x IH]; [reflexivity|]. cbn.
  intros H. apply andb_true_iff in H as [Hc Hx]. rewrite Hc. exact (IH Hx).
Qed.

Lemma strip_blank (x : pystr) : all isspace x -> strip x = [].
Proof. intros H. unfold strip. rewrite (@lstrip_blank x H). reflexivity. Qed.

Lemma strip_nil_blank (x : pystr) : strip x = [] -> all isspace x.
Proof.
  intros H. destruct (strip_padding x) as (l & r & Hx & Hl & Hr).
  rewrite H in Hx. rewrite Hx. apply all_app. split; assumption.
Qed.

Lemma strip_occurs (x : pystr) : occurs_in (strip x) x.
Proof.
  destruct (strip_padding x) as (l & r & Hx & _). exists l, r. exact Hx.
Qed.

Lemma lstrip_head (x : pystr) :
  lstrip x = [] \/ exists c t, lstrip x = c :: t /\ isspace c = false.
Proof.
  induction x as [|c x IH]; [left; reflexivity|]. cbn.
  destruct (isspace c) eqn:Hc; [exact IH | right; eauto].
Qed.

Lemma rstrip_last (x : pystr) :
  rstrip x = [] \/ exists t e, rstrip x = t ++ [e] /\ isspace e = false.
Proof.
  unfold rstrip. destruct (lstrip_head (rev x)) as [-> | (c & t & -> & Hc)];
    [left; reflexivity | right].
  exists (rev t), c. split; [reflexivity | exact Hc].
Qed.

Lemma rstrip_cons_nonspace (c : ascii) (t : pystr) :
  isspace c = false -> rstrip (c :: t) = c :: rstrip t.
Proof.
  intros Hc. unfold rstrip. cbn [rev].
  rewrite lstrip_app_nonspace by exact Hc.
  rewrite rev_app_distr. reflexivity.
Qed.

(** A trimmed text is empty or has no white space at either end. *)
Lemma strip_ends (x : pystr) :
  strip x = []
  \/ exists c t t' e,
       strip x = c :: t /\ isspace c = false
       /\ strip x = t' ++ [e] /\ isspace e = false.
Proof.
  unfold strip. destruct (lstrip_head x) as [-> | (c & t & -> & Hc)];
    [left; reflexivity | right].
  rewrite (@rstrip_cons_nonspace c t Hc).
  destruct (rstrip_last (c :: t)) as [H | (t' & e & H & He)].
  - rewrite (@rstrip_cons_nonspace c t Hc) in H. discriminate H.
  - rewrite (@rstrip_cons_nonspace c t Hc) in H.
    exists c, (rstrip t), t', e. auto.
Qed.

Lemma strip_idem (x : pystr) : strip (strip x) = strip x.
Proof.
  destruct (strip_ends x) as [-> | (c & t & t' & e & H1 & Hc & H2 & He)];
    [reflexivity|].
  pose proof (@strip_around [] (strip x) [] c e t t' H1 H2 Hc He) as H.
  cbn in H. rewrite app_nil_r in H. exact H.
Qed.

(** ** Where a search stops *)

Lemma search_from_stop (r : regex) (s : pystr) : forall pos bef m,
  search_from r pos bef s = Some m ->
  exists pre post,
    s = pre ++ group0 m ++ post
    /\ m_start m = (pos + length pre)%nat
    /\ rest (m_stop m) = post
    /\ mt r (rev pre ++ bef) (group0 m) post
    /\ In (m_stop m) (run r (MState (rev pre ++ bef) (group0 m ++ post) None))
    /\ group1 m = cap (m_stop m).
Proof.
  induction s as [|x s IH]; intros pos bef m H; cbn [search_from] in H;
    destruct (run r (MState bef _ None)) as [|st' l] eqn:Hrun;
    try discriminate H.
  - injection H as <-. cbn [group0 m_start m_stop group1].
    destruct (run_sound r (MState bef [] None) st') as (w & Hc & Hm);
      [rewrite Hrun; left; reflexivity|].
    rewrite (consumes_text Hc). destruct Hc as [Hr Hb]. cbn in Hr, Hm.
    exists [], (rest st'). cbn [app rev length].
    rewrite <- Hr, Hrun.
    refine (conj eq_refl (conj _ (conj eq_refl (conj Hm (conj _ eq_refl)))));
      [lia | left; reflexivity].
  - destruct (IH _ _ _ H) as (pre & post & Hs & Hpos & Hrest & Hm & Hin & Hg).
    exists (x :: pre), post. rewrite rev_cons_app. cbn [length app].
    refine (conj _ (conj _ (conj Hrest (conj Hm (conj Hin Hg))))); [|lia].
    rewrite Hs at 1. reflexivity.
  - injection H as <-. cbn [group0 m_start m_stop group1].
    destruct (run_sound r (MState bef (x :: s) None) st') as (w & Hc & Hm);
      [rewrite Hrun; left; reflexivity|].
    rewrite (consumes_text Hc). destruct Hc as [Hr Hb]. cbn in Hr, Hm.
    exists [], (rest st'). cbn [app rev length].
    rewrite <- Hr, Hrun.
    refine (conj eq_refl (conj _ (conj eq_refl (conj Hm (conj _ eq_refl)))));
      [lia | left; reflexivity].
Qed.

Lemma firstn_length_app {A : Type} (a b : list A) :
  firstn (length a) (a ++ b) = a.
Proof.
  rewrite <- (Nat.add_0_r (length a)), firstn_app_2, firstn_O.
  apply app_nil_r.
Qed.

(** The pieces of [re.split] are pieces of the text. *)
Lemma split_from_occurs (r : regex) (fuel : nat) : forall bef s p,
  In p (split_from r fuel bef s) -> occurs_in p s.
Proof.
  induction fuel as [|fuel IH]; intros bef s p H; cbn [split_from] in H.
  - destruct H as [<- | []]. apply occurs_in_refl.
  - destruct (search_from r 0 bef s) as [m|] eqn:Hm.
    + apply search_from_stop in Hm
        as (pre & post & Hs & Hpos & Hrest & _ & _ & _).
      cbn in Hpos. rewrite Hpos, Hrest, Hs, firstn_length_app in H.
      rewrite Hs. destruct H as [<- | H].
      * exists [], (group0 m ++ post). reflexivity.
      * apply occurs_in_app_l. apply occurs_in_app_l. exact (IH _ _ _ H).
    + destruct H as [<- | []]. apply occurs_in_refl.
Qed.

(** When the separators and all the pieces are white space, so is the
    text. *)
Lemma split_from_blank (r : regex) (fuel : nat) :
  (forall bef w s, mt r bef w s -> all isspace w) ->
  forall bef s,
    (forall p, In p (split_from r fuel bef s) -> all isspace p) ->
    all isspace s.
Proof.
  intros Hr. induction fuel as [|fuel IH]; intros bef s H;
    cbn [split_from] in H.
  - apply H. left; reflexivity.
  - destruct (search_from r 0 bef s) as [m|] eqn:Hm.
    + apply search_from_stop in Hm
        as (pre & post & Hs & Hpos & Hrest & Hmt & _ & _).
      cbn in Hpos. rewrite Hpos, Hrest, Hs, firstn_length_app in H.
      rewrite Hs. apply all_app. split; [apply H; left; reflexivity|].
      apply all_app. split; [exact (Hr _ _ _ Hmt)|].
      apply (IH (before (m_stop m))). intros p Hp. apply H. right. exact Hp.
    + apply H. left; reflexivity.
Qed.

Lemma mt_SENTENCE_END_RE (bef w s : pystr) :
  mt SENTENCE_END_RE bef w s -> all isspace w.
Proof.
  unfold SENTENCE_END_RE. intros (w1 & w2 & -> & [-> _] & H).
  apply (mt_Plus_Cls isspace) in H as [_ H]. exact H.
Qed.

(** ** Lines *)

Lemma linebreak_space (c : ascii) : is_linebreak c = true -> isspace c = true.
Proof. by_cases_on_char c. Qed.

Lemma splitlines_go_occurs (n : nat) : forall s cur p,
  (length s <= n)%nat ->
  In p (splitlines_go cur s) -> occurs_in p (cur ++ s).
Proof.
  assert (Hbase : forall cur p,
            In p (splitlines_go cur []) -> occurs_in p (cur ++ [])).
  { intros cur p H. cbn in H. destruct cur as [|c0 cur]; [destruct H|].
    destruct H as [<- | []]. rewrite app_nil_r. apply occurs_in_refl. }
  induction n as [|n IH]; intros s cur p Hn H.
  - destruct s; [exact (Hbase _ _ H) | cbn in Hn; lia].
  - destruct s as [|c s]; [exact (Hbase _ _ H)|].
    cbn [splitlines_go] in H. cbn [length] in Hn.
    destruct (is_linebreak c).
    + assert (Hcur : forall t, occurs_in cur (cur ++ t))
        by (intros t; exists [], t; reflexivity).
      destruct s as [|c2 s']; [destruct H as [<- | []]; apply Hcur|].
      cbn [length] in Hn.
      destruct ((code c =? 13)%nat && (code c2 =? 10)%nat);
        (destruct H as [<- | H]; [apply Hcur|]).
      * replace (cur ++ c :: c2 :: s') with ((cur ++ [c; c2]) ++ s')
          by (rewrite <- app_assoc; reflexivity).
        apply occurs_in_app_l. apply (IH s' [] p); [lia | exact H].
      * replace (cur ++ c :: c2 :: s') with ((cur ++ [c]) ++ c2 :: s')
          by (rewrite <- app_assoc; reflexivity).
        apply occurs_in_app_l. apply (IH (c2 :: s') [] p); [cbn; lia | exact H].
    + replace (cur ++ c :: s) with ((cur ++ [c]) ++ s)
        by (rewrite <- app_assoc; reflexivity).
      apply IH; [lia | exact H].
Qed.

Lemma splitlines_occurs (text p : pystr) :
  In p (splitlines text) -> occurs_in p text.
Proof. apply (@splitlines_go_occurs (length text) text []). lia. Qed.

Lemma newline_space (c : ascii) : (code c =? 10)%nat = true -> isspace c = true.
Proof. by_cases_on_char c. Qed.

(** When every line is white space, so is the text. *)
Lemma splitlines_go_blank (n : nat) : forall s cur,
  (length s <= n)%nat ->
  (forall p, In p (splitlines_go cur s) -> all isspace p) ->
  all isspace (cur ++ s).
Proof.
  assert (Hbase : forall cur,
            (forall p, In p (splitlines_go cur []) -> all isspace p) ->
            all isspace (cur ++ [])).
  { intros cur H. rewrite app_nil_r. destruct cur as [|c0 cur]; [reflexivity|].
    apply H. left; reflexivity. }
  induction n as [|n IH]; intros s cur Hn H.
  - destruct s; [exact (Hbase _ H) | cbn in Hn; lia].
  - destruct s as [|c s]; [exact (Hbase _ H)|].
    cbn [splitlines_go] in H. cbn [length] in Hn.
    destruct (is_linebreak c) eqn:Hc.
    + apply linebreak_space in Hc.
      assert (Hone : all isspace [c]) by (unfold all; cbn; rewrite Hc; reflexivity).
      destruct s as [|c2 s'].
      { apply all_app. split; [apply H; left; reflexivity | exact Hone]. }
      cbn [length] in Hn.
      destruct ((code c =? 13)%nat && (code c2 =? 10)%nat) eqn:Hcr.
      * apply andb_true_iff in Hcr as [_ Hc2]. apply newline_space in Hc2.
        apply all_app. split; [apply H; left; reflexivity|].
        change (c :: c2 :: s') with ([c] ++ [c2] ++ s').
        apply all_app. split; [exact Hone|].
        apply all_app. split; [unfold all; cbn; rewrite Hc2; reflexivity|].
        apply (IH s' []); [lia|]. intros p Hp. apply H. right. exact Hp.
      * apply all_app. split; [apply H; left; reflexivity|].
        change (c :: c2 :: s') with ([c] ++ c2 :: s').
        apply all_app. split; [exact Hone|].
        apply (IH (c2 :: s') []); [cbn; lia|].
        intros p Hp. apply H. right. exact Hp.
    + replace (cur ++ c :: s) with ((cur ++ [c]) ++ s)
        by (rewrite <- app_assoc; reflexivity).
      apply IH; [lia | exact H].
Qed.

Lemma splitlines_blank (text : pystr) :
  (forall p, In p (splitlines text) -> all isspace p) -> all isspace text.
Proof. apply (@splitlines_go_blank (length text) text []). lia. Qed.

(** ** [_split_sentences] *)

Lemma sentences_of_line_In (line p : pystr) :
  In p (map strip
          (filter (fun p => negb (is_empty (strip p)))
             (re_split SENTENCE_END_RE (strip line)))) ->
  p <> [] /\ strip p = p /\ occurs_in p line.
Proof.
  intros H. apply in_map_iff in H as (q & <- & H).
  apply filter_In in H as [Hq Hne].
  split; [|split].
  - destruct (strip q); [discriminate Hne | discriminate].
  - apply strip_idem.
  - apply (occurs_in_trans (strip_occurs q)).
    apply (@occurs_in_trans _ _ (strip line)); [|apply strip_occurs].
    exact (split_from_occurs _ _ _ _ _ Hq).
Qed.

Lemma sentences_of_line_nil (line : pystr) :
  map strip
    (filter (fun p => negb (is_empty (strip p)))
       (re_split SENTENCE_END_RE (strip line))) = [] ->
  all isspace line.
Proof.
  intros H. apply map_eq_nil in H.
  assert (Hblank : all isspace (strip line)).
  { apply (@split_from_blank SENTENCE_END_RE (length (strip line))
             mt_SENTENCE_END_RE [] (strip line)).
    intros p Hp. apply strip_nil_blank.
    destruct (strip p) as [|c t] eqn:Hs; [reflexivity|]. exfalso.
    assert (Hin : In p (filter (fun p => negb (is_empty (strip p)))
                          (re_split SENTENCE_END_RE (strip line))))
      by (apply filter_In; split; [exact Hp | rewrite Hs; reflexivity]).
    rewrite H in Hin. destruct Hin. }
  apply strip_nil_blank. rewrite <- strip_idem. apply strip_blank. exact Hblank.
Qed.

(** What [_split_sentences] returns: the fallback, for a text of white
    space only, or the sentences collected from the lines. *)
Lemma split_sentences_cases (text : pystr) :
  (all isspace text /\ _split_sentences text = [[]])
  \/ (~ all isspace text
      /\ _split_sentences text <> []
      /\ forall p, In p (_split_sentences text) ->
           p <> [] /\ strip p = p /\ occurs_in p text
           /\ exists line q,
                In line (splitlines text)
                /\ In q (re_split SENTENCE_END_RE (strip line))
                /\ p = strip q).
Proof.
  unfold _split_sentences. cbv zeta.
  set (per_line := fun line : pystr => if is_empty (strip line) then [] else _).
  destruct (flat_map per_line (splitlines text)) as [|p0 fs] eqn:Hfs.
  - left.
    assert (Hblank : all isspace text).
    { apply splitlines_blank. intros line Hline.
      assert (Hnil : per_line line = []).
      { destruct (per_line line) as [|x l] eqn:Hx; [reflexivity|]. exfalso.
        assert (Hin : In x (flat_map per_line (splitlines text)))
          by (apply in_flat_map; exists line; split;
              [exact Hline | rewrite Hx; left; reflexivity]).
        rewrite Hfs in Hin. destruct Hin. }
      unfold per_line in Hnil.
      destruct (strip line) as [|c t] eqn:Hs;
        [apply strip_nil_blank; exact Hs|].
      cbn [is_empty] in Hnil. rewrite <- Hs in Hnil.
      exact (sentences_of_line_nil _ Hnil). }
    split; [exact Hblank|]. rewrite (strip_blank Hblank). reflexivity.
  - right.
    assert (Hin : forall p, In p (p0 :: fs) ->
                    p <> [] /\ strip p = p /\ occurs_in p text
                    /\ exists line q,
                         In line (splitlines text)
                         /\ In q (re_split SENTENCE_END_RE (strip line))
                         /\ p = strip q).
    { rewrite <- Hfs. intros p Hp.
      apply in_flat_map in Hp as (line & Hline & Hp). unfold per_line in Hp.
      destruct (is_empty (strip line)); [destruct Hp|].
      destruct (sentences_of_line_In _ _ Hp) as (H1 & H2 & H3).
      refine (conj H1 (conj H2 (conj _ _))).
      - exact (occurs_in_trans H3 (splitlines_occurs _ _ Hline)).
      - apply in_map_iff in Hp as (q & Hpq & Hq).
        apply filter_In in Hq as [Hq _]. exists line, q.
        exact (conj Hline (conj Hq (eq_sym Hpq))). }
    split; [|split; [discriminate | exact Hin]].
    intros Hblank.
    destruct (Hin p0 (or_introl eq_refl)) as (Hne & _ & Hocc & _).
    pose proof (all_occurs Hblank Hocc) as Hp0.
    destruct p0 as [|c t]; [contradiction Hne; reflexivity|].
    destruct (Hin (c :: t) (or_introl eq_refl)) as (_ & Hstrip & _).
    rewrite (strip_blank Hp0) in Hstrip. discriminate Hstrip.
Qed.

Lemma split_sentences_In (text p : pystr) :
  In p (_split_sentences text) ->
  strip p = p /\ occurs_in p text /\ (p = [] <-> all isspace text).
Proof.
  intros H.
  destruct (split_sentences_cases text) as [[Hblank Heq] | (Hnb & _ & Hin)].
  - rewrite Heq in H. destruct H as [<- | []].
    split; [reflexivity|]. split; [exists [], text; reflexivity|].
    split; [intros _; exact Hblank | reflexivity].
  - destruct (Hin p H) as (Hne & Hs & Hocc & _).
    refine (conj Hs (conj Hocc _)). split; [intros ->|]; contradiction.
Qed.

(** X14: every sentence that [_split_sentences] returns is trimmed (it has
    no white space at either end) and stands in the text as it is; it is
    empty only when the text is white space throughout. *)
Theorem sentences_are_trimmed_pieces (text p : pystr) :
  In p (_split_sentences text) ->
  strip p = p /\ occurs_in p text /\ (p = [] <-> all isspace text).
Proof. apply split_sentences_In. Qed.

Lemma sentences_are_trimmed_pieces_witness :
  In (str "It rained.") (_split_sentences (str " Play stopped.  It rained. "))
  /\ occurs_in (str "It rained.") (str " Play stopped.  It rained. ").
Proof.
  assert (H : In (str "It rained.")
                (_split_sentences (str " Play stopped.  It rained. ")))
    by (right; left; reflexivity).
  split; [exact H|].
  destruct (sentences_are_trimmed_pieces _ _ H) as (_ & Hocc & _).
  exact Hocc.
Defined.

(** X15: [_split_sentences] never returns an empty list; it returns the
    one-element list of the empty string exactly when the text is empty or
    white space throughout. *)
Theorem blank_text_one_empty_sentence (text : pystr) :
  _split_sentences text <> []
  /\ (all isspace text <-> _split_sentences text = [[]]).
Proof.
  destruct (split_sentences_cases text) as [[Hblank Heq] | (Hnb & Hne & Hin)].
  - rewrite Heq. split; [discriminate|]. split; auto.
  - split; [exact Hne|]. split; [contradiction|]. intros Heq.
    destruct (Hin [] ltac:(rewrite Heq; left; reflexivity)) as (H & _).
    contradiction H; reflexivity.
Qed.

Section SentenceChoice.

Context {E : Externals}.

Lemma best_sentence_In (query text bs : pystr) :
  _best_sentence query text = inr bs -> In bs (_split_sentences text).
Proof.
  unfold _best_sentence.
  destruct (_split_sentences text) as [|s0 ss] eqn:Hs.
  - exfalso. destruct (split_sentences_cases text) as [[_ H] | (_ & H & _)];
      rewrite Hs in H; [discriminate H | contradiction H; reflexivity].
  - destruct (encode [query]) as [e|q_emb]; [discriminate|]. cbn [external bind raise ret].
    destruct (encode (s0 :: ss)) as [e|s_embs]; [discriminate|]. cbn [external bind raise ret].
    destruct (py_index q_emb 0) as [q|]; [|discriminate]. cbn [or_index_error bind raise ret].
    destruct (matvec s_embs q) as [e|sims]; [discriminate|]. cbn [external bind raise ret].
    destruct (argmax sims) as [e|best_idx]; [discriminate|]. cbn [external bind raise ret].
    destruct (py_index (s0 :: ss) best_idx) as [x|] eqn:Hx; [|discriminate].
    intros H. injection H as <-. exact (py_index_In _ _ Hx).
Qed.

(** X16: when [_best_sentence] returns, it returns one of the sentences of
    [_split_sentences]: a trimmed piece of the text, whatever the embedder
    and the arg-max answer. *)
Theorem best_sentence_is_a_sentence (query text bs : pystr) :
  _best_sentence query text = inr bs ->
  In bs (_split_sentences text) /\ strip bs = bs /\ occurs_in bs text.
Proof.
  intros H. apply best_sentence_In in H. split; [exact H|].
  destruct (split_sentences_In _ _ H) as (H1 & H2 & _). split; assumption.
Qed.

(** X17: on a non-empty retrieval result, an answer of the facade is what
    [extract_short_answer] makes of one sentence of the text of one
    retrieved chunk, for the type of the question; the report names that
    sentence. *)
Theorem answer_comes_from_a_retrieved_sentence (query : pystr)
    (retrieved : list (Chunk * F)) (min_score : F) (answer report : pystr) :
  retrieved <> [] ->
  generate_extractive_answer query retrieved min_score
  = inr (answer, report) ->
  exists c score bs,
    In (c, score) retrieved
    /\ In bs (_split_sentences (text c))
    /\ occurs_in bs (text c)
    /\ answer = extract_short_answer bs (detect_question_type query) query
    /\ report = report_of retrieved bs.
Proof.
  intros Hne H. unfold generate_extractive_answer in H.
  destruct retrieved as [|p0 l]; [contradiction Hne; reflexivity|].
  destruct (choose (p0 :: l) min_score) as [[c score]|] eqn:Hch;
    [|discriminate H].
  cbn [or_index_error bind ret] in H. unfold answer_from in H.
  cbn [fst] in H.
  destruct (_best_sentence query (text c)) as [e|bs] eqn:Hbs;
    [discriminate H|].
  cbn [bind ret] in H. injection H as <- <-.
  exists c, score, bs.
  assert (Hin : In (c, score) (p0 :: l)).
  { unfold choose in Hch.
    destruct (first_scoring (p0 :: l) min_score) as [ch|] eqn:Hf.
    - injection Hch as ->.
      apply first_scoring_some in Hf as (pre & post & -> & _).
      apply in_or_app. right. left. reflexivity.
    - cbn in Hch. injection Hch as ->. left. reflexivity. }
  pose proof (best_sentence_In _ _ Hbs) as Hsent.
  destruct (split_sentences_In _ _ Hsent) as (_ & Hocc & _).
  exact (conj Hin (conj Hsent (conj Hocc (conj eq_refl eq_refl)))).
Qed.

End SentenceChoice.

Lemma best_sentence_is_a_sentence_witness :
  exists bs,
    _best_sentence (E := toy) (str "why")
      (str "Play stopped. It rained all day.") = inr bs
    /\ occurs_in bs (str "Play stopped. It rained all day.").
Proof.
  destruct (_best_sentence (E := toy) (str "why")
              (str "Play stopped. It rained all day.")) as [e|bs] eqn:H;
    [vm_compute in H; discriminate H|].
  exists bs. split; [reflexivity|].
  destruct (best_sentence_is_a_sentence (E := toy) _ _ H) as (_ & _ & Hocc).
  exact Hocc.
Defined.

Lemma answer_comes_from_a_retrieved_sentence_witness :
  let c := mkChunk (str "a.txt") 0 (str "Play stopped. It rained all day.") in
  exists answer report bs,
    generate_extractive_answer (E := toy) (str "what happened") [(c, 5)] 0
    = inr (answer, report)
    /\ In bs (_split_sentences (text c))
    /\ answer = extract_short_answer bs FACT (str "what happened").
Proof.
  intros c.
  destruct (generate_extractive_answer (E := toy) (str "what happened")
              [(c, 5)] 0) as [e|[answer report]] eqn:H;
    [vm_compute in H; discriminate H|].
  destruct (answer_comes_from_a_retrieved_sentence (E := toy)
              (str "what happened") (retrieved := [(c, 5)]) 0
              ltac:(discriminate) H)
    as (c' & score & bs & [Hin | []] & Hsent & _ & Hans & _).
  injection Hin as <- _.
  exists answer, report, bs.
  exact (conj eq_refl (conj Hsent Hans)).
Defined.

(** * Capturing groups *)

Lemma captures_within_mono (G G' : list regex) (st st' : mstate) :
  incl G G' -> captures_within G st st' -> captures_within G' st st'.
Proof.
  intros Hincl [H | (g & a & b & c & Hg & H)]; [left; exact H | right].
  exists g, a, b, c. split; [apply Hincl; exact Hg | exact H].
Qed.

Lemma captures_within_trans (G : list regex) (st st1 st' : mstate)
    (w1 w2 : pystr) :
  consumes st w1 st1 -> consumes st1 w2 st' ->
  captures_within G st st1 -> captures_within G st1 st' ->
  captures_within G st st'.
Proof.
  intros [H1r H1b] [H2r H2b] C1 C2.
  destruct C2 as [E2 | (g & a & b & c & Hg & Hr & Hc & Hm)].
  - destruct C1 as [E1 | (g & a & b & c & Hg & Hr & Hc & Hm)].
    + left. congruence.
    + right. exists g, a, b, (c ++ w2).
      refine (conj Hg (conj _ (conj _ _))).
      * rewrite Hr, H2r, <- !app_assoc. reflexivity.
      * congruence.
      * rewrite H2r in Hm. rewrite <- app_assoc. exact Hm.
  - right. exists g, (w1 ++ a), b, c.
    refine (conj Hg (conj _ (conj Hc _))).
    + rewrite H1r, Hr, <- app_assoc. reflexivity.
    + rewrite rev_app_distr, <- app_assoc, <- H1b. exact Hm.
Qed.

Lemma star_run_closure (Q : mstate -> mstate -> Prop) (g : bool)
    (body : mstate -> list mstate) :
  (forall st, Q st st) ->
  (forall a b c, Q a b -> Q b c -> Q a c) ->
  (forall st st', In st' (body st) -> Q st st') ->
  forall fuel st st', In st' (star_run g body fuel st) -> Q st st'.
Proof.
  intros Qrefl Qtrans Hbody. induction fuel as [|fuel IH]; intros st st' H.
  - destruct H as [<- | []]. apply Qrefl.
  - apply star_run_in in H as [-> | (st1 & H1 & _ & H2)]; [apply Qrefl|].
    exact (Qtrans _ _ _ (Hbody _ _ H1) (IH _ _ H2)).
Qed.

Lemma run_captures (r : regex) : forall st st',
  In st' (run r st) -> captures_within (groups r) st st'.
Proof.
  induction r as [|p|r1 IH1 r2 IH2|r1 IH1 r2 IH2|g r IH|r IH| | |p];
    intros st st' H; cbn [run groups] in *.
  - destruct H as [<- | []]. left; reflexivity.
  - destruct (rest st) as [|x s]; [destruct H|].
    destruct (p x); [|destruct H]. destruct H as [<- | []]. left; reflexivity.
  - apply in_flat_map in H as (st1 & H1 & H2).
    destruct (run_sound r1 _ _ H1) as (w1 & Hc1 & _).
    destruct (run_sound r2 _ _ H2) as (w2 & Hc2 & _).
    apply (captures_within_trans Hc1 Hc2).
    + apply (@captures_within_mono (groups r1)); [apply incl_appl, incl_refl|].
      exact (IH1 _ _ H1).
    + apply (@captures_within_mono (groups r2)); [apply incl_appr, incl_refl|].
      exact (IH2 _ _ H2).
  - apply in_app_or in H as [H | H].
    + apply (@captures_within_mono (groups r1)); [apply incl_appl, incl_refl|].
      exact (IH1 _ _ H).
    + apply (@captures_within_mono (groups r2)); [apply incl_appr, incl_refl|].
      exact (IH2 _ _ H).
  - apply (@star_run_closure
             (fun a b => (exists w, consumes a w b)
                         /\ captures_within (groups r) a b)
             g (run r)) in H; [exact (proj2 H) | | |].
    + intros a. split; [exists []; apply consumes_nil | left; reflexivity].
    + intros a b c [[w1 Hc1] C1] [[w2 Hc2] C2]. split.
      * exists (w1 ++ w2). exact (consumes_app Hc1 Hc2).
      * exact (captures_within_trans Hc1 Hc2 C1 C2).
    + intros a b Hab. split; [|exact (IH _ _ Hab)].
      destruct (run_sound r _ _ Hab) as (w & Hc & _). exists w. exact Hc.
  - apply in_map_iff in H as (st2 & <- & H2).
    destruct (run_sound r _ _ H2) as (w & Hc & Hm).
    right. exists r, [], w, []. cbn [rest before cap app rev].
    rewrite (consumes_text Hc). destruct Hc as [Hr _].
    refine (conj (or_introl eq_refl) (conj Hr (conj eq_refl Hm))).
  - destruct (at_boundary _ _); [|destruct H].
    destruct H as [<- | []]. left; reflexivity.
  - destruct (at_end _); [|destruct H].
    destruct H as [<- | []]. left; reflexivity.
  - destruct (before st) as [|c b]; [destruct H|].
    destruct (p c); [|destruct H]. destruct H as [<- | []]. left; reflexivity.
Qed.

Lemma run_sets_group (r : regex) : forall st st',
  sets_group r = true -> In st' (run r st) -> cap st' <> None.
Proof.
  induction r as [|p|r1 IH1 r2 IH2|r1 IH1 r2 IH2|g r IH|r IH| | |p];
    intros st st' Hs H; cbn [sets_group] in Hs; try discriminate Hs;
    cbn [run] in H.
  - apply in_flat_map in H as (st1 & H1 & H2).
    destruct (sets_group r2) eqn:H2s; [exact (IH2 _ _ eq_refl H2)|].
    rewrite orb_false_r in Hs. pose proof (IH1 _ _ Hs H1) as Hcap.
    destruct (run_captures r2 _ _ H2) as [E | (g & a & b & c & _ & _ & E & _)];
      rewrite E; [exact Hcap | discriminate].
  - apply andb_true_iff in Hs as [Hs1 Hs2].
    apply in_app_or in H as [H | H]; [exact (IH1 _ _ Hs1 H) | exact (IH2 _ _ Hs2 H)].
  - apply in_map_iff in H as (st2 & <- & _). discriminate.
Qed.

(** Group 1 of the match that [re.search] reports, for a pattern whose
    every match goes through a group: a part of the match, matched by a
    group pattern. *)
Lemma search_group1 (r : regex) (s : pystr) (m : rmatch) :
  sets_group r = true ->
  re_search r s = Some m ->
  exists g pre a b c post,
    In g (groups r)
    /\ s = pre ++ a ++ b ++ c ++ post
    /\ group1 m = Some b
    /\ mt g (rev a ++ rev pre) b (c ++ post).
Proof.
  intros Hs H. apply search_from_stop in H
    as (pre & post & Heq & _ & Hrest & _ & Hin & Hg).
  rewrite app_nil_r in Hin.
  pose proof (run_sets_group r _ _ Hs Hin) as Hcap.
  destruct (run_captures r _ _ Hin) as [E | (g & a & b & c & Hgr & Hr & E & Hm)].
  - rewrite E in Hcap. contradiction Hcap. reflexivity.
  - cbn [rest before] in Hr, Hm. rewrite Hrest in Hr, Hm.
    exists g, pre, a, b, c, post.
    refine (conj Hgr (conj _ (conj _ Hm))).
    + rewrite Heq, Hr. reflexivity.
    + rewrite Hg. exact E.
Qed.

Lemma findall_from_In (r : regex) (fuel : nat) : forall bef s w,
  In w (findall_from r fuel bef s) ->
  occurs_in w s /\ exists bef' post', mt r bef' w post'.
Proof.
  induction fuel as [|fuel IH]; intros bef s w H; cbn [findall_from] in H;
    [destruct H|].
  destruct (search_from r 0 bef s) as [m|] eqn:Hm; [|destruct H].
  apply search_from_stop in Hm as (pre & post & Hs & _ & Hrest & Hmt & _ & _).
  assert (Hhere : occurs_in (group0 m) s /\ exists bef' post', mt r bef' (group0 m) post').
  { split; [exists pre, post; exact Hs | eauto]. }
  assert (Hlater : forall b' t, occurs_in t post ->
            In w (findall_from r fuel b' t) ->
            occurs_in w s /\ exists bef' post', mt r bef' w post').
  { intros b' t Ht Hw. destruct (IH _ _ _ Hw) as [Hocc Hex].
    split; [|exact Hex]. rewrite Hs.
    apply occurs_in_app_l, occurs_in_app_l.
    exact (occurs_in_trans Hocc Ht). }
  rewrite Hrest in H.
  destruct (group0 m) as [|x g0] eqn:Hg0.
  - destruct post as [|c s'].
    + destruct H as [<- | []]. exact Hhere.
    + destruct H as [<- | H]; [exact Hhere|].
      apply (Hlater (c :: before (m_stop m)) s'); [|exact H].
      exists [c], []. rewrite app_nil_r. reflexivity.
  - destruct H as [<- | H]; [exact Hhere|].
    apply (Hlater (before (m_stop m)) post); [apply occurs_in_refl | exact H].
Qed.

Lemma max_by_len_In (l : list pystr) : forall best,
  In (max_by_len best l) (best :: l).
Proof.
  induction l as [|x l IH]; intros best; cbn [max_by_len];
    [left; reflexivity|].
  destruct (IH (if (length best <? length x)%nat then x else best))
    as [H | H]; [|right; right; exact H].
  rewrite <- H. destruct (length best <? length x)%nat;
    [right; left | left]; reflexivity.
Qed.

(** * The shape of the names *)

Lemma all_impl (p q : ascii -> bool) (w : pystr) :
  (forall c, p c = true -> q c = true) -> all p w -> all q w.
Proof.
  intros Hpq. unfold all. rewrite !forallb_forall.
  intros H c Hc. apply Hpq, H, Hc.
Qed.

Lemma all_single (p : ascii -> bool) (c : ascii) : p c = true -> all p [c].
Proof. intros H. unfold all. cbn. rewrite H. reflexivity. Qed.

Lemma ends_with_app (p : ascii -> bool) (a b : pystr) :
  ends_with p b -> ends_with p (a ++ b).
Proof.
  intros (t & e & -> & He). exists (a ++ t), e.
  rewrite app_assoc. split; [reflexivity | exact He].
Qed.

Lemma ends_with_all (p : ascii -> bool) (w : pystr) :
  all p w -> w <> [] -> ends_with p w.
Proof.
  intros Hw Hne. destruct (exists_last Hne) as (t & e & ->).
  exists t, e. split; [reflexivity|].
  apply all_app in Hw as [_ He]. unfold all in He. cbn in He.
  rewrite andb_true_r in He. exact He.
Qed.

(** A text that ends with a character of the class [p], after one more
    text of the class. *)
Lemma ends_with_more (p : ascii -> bool) (a b : pystr) :
  ends_with p a -> all p b -> ends_with p (a ++ b).
Proof.
  intros Ha Hb. destruct b as [|c b]; [rewrite app_nil_r; exact Ha|].
  apply ends_with_app. apply ends_with_all; [exact Hb | discriminate].
Qed.

Lemma upper_alpha (c : ascii) : isupper c = true -> isalpha c = true.
Proof. intros H. unfold isalpha. rewrite H. reflexivity. Qed.

Lemma lower_alpha (c : ascii) : islower c = true -> isalpha c = true.
Proof. intros H. unfold isalpha. rewrite H. apply orb_true_r. Qed.

Lemma alpha_not_space (c : ascii) : isalpha c = true -> isspace c = false.
Proof. by_cases_on_char c. Qed.

Lemma alpha_phrase (c : ascii) : isalpha c = true -> isalpha c || isspace c = true.
Proof. intros H. rewrite H. reflexivity. Qed.

Lemma space_phrase (c : ascii) : isspace c = true -> isalpha c || isspace c = true.
Proof. intros H. rewrite H. apply orb_true_r. Qed.

(** The words after the first of a name: white space, an upper-case
    letter, letters of the class [p]. *)
Lemma chain_name_words (p : ascii -> bool) (tail : regex) (ws : list pystr) :
  (forall c, p c = true -> isalpha c = true) ->
  (forall bef w s, mt tail bef w s -> all p w) ->
  forall bef s,
    chain (mt (Seq [Space; Upper; tail])) bef ws s ->
    all (fun x => isalpha x || isspace x) (concat ws)
    /\ (concat ws = [] \/ ends_with isalpha (concat ws)).
Proof.
  intros Hp Htail. induction ws as [|x ws IH]; intros bef s H;
    [split; [reflexivity | left; reflexivity]|].
  destruct H as (_ & Hx & H). destruct (IH _ _ H) as [Hall Hend].
  apply mt_Seq_cons in Hx as (sp & x1 & -> & (c1 & -> & Hc1) & Hx).
  apply mt_Seq_cons in Hx as (up & x2 & -> & (c2 & -> & Hc2) & Hx).
  apply mt_Seq_cons in Hx as (al & x3 & -> & Hal & Hx).
  apply mt_Seq_nil in Hx. subst x3. rewrite app_nil_r.
  apply Htail in Hal.
  assert (Hword : ends_with isalpha ([c1] ++ [c2] ++ al)).
  { apply ends_with_app.
    apply (@ends_with_more isalpha [c2] al).
    - exists [], c2. split; [reflexivity | exact (upper_alpha _ Hc2)].
    - exact (all_impl _ Hp Hal). }
  cbn [concat]. split.
  - apply all_app. split; [|exact Hall].
    apply all_app. split; [exact (all_single _ _ (space_phrase _ Hc1))|].
    apply all_app. split;
      [exact (all_single _ _ (alpha_phrase _ (upper_alpha _ Hc2)))|].
    apply (all_impl (p := p)); [|exact Hal].
    intros c Hc. exact (alpha_phrase _ (Hp _ Hc)).
  - right. destruct Hend as [-> | Hend];
      [rewrite app_nil_r; exact Hword | exact (ends_with_app _ Hend)].
Qed.

(** A name: an upper-case letter, letters of the class [p], then further
    words. *)
Lemma name_words_shape (p : ascii -> bool) (c : ascii) (first rest : pystr) :
  isupper c = true ->
  (forall x, p x = true -> isalpha x = true) ->
  all p first ->
  all (fun x => isalpha x || isspace x) rest ->
  rest = [] \/ ends_with isalpha rest ->
  let w := [c] ++ first ++ rest in
  capitalised w = true /\ strip w = w.
Proof.
  intros Hc Hp Hfirst Hrest Hend w.
  assert (Hlast : ends_with isalpha w).
  { unfold w. destruct Hend as [-> | Hend].
    - rewrite app_nil_r. apply (@ends_with_more isalpha [c] first).
      + exists [], c. split; [reflexivity | exact (upper_alpha _ Hc)].
      + exact (all_impl _ Hp Hfirst).
    - apply ends_with_app, ends_with_app. exact Hend. }
  split.
  - unfold w, capitalised. cbn [app]. rewrite Hc. cbn [andb].
    apply all_app. split; [|exact Hrest].
    apply (all_impl (p := p)); [|exact Hfirst].
    intros x Hx. exact (alpha_phrase _ (Hp _ Hx)).
  - destruct Hlast as (t & e & Ht & He).
    pose proof (@strip_around [] w [] c e (first ++ rest) t eq_refl Ht
                  (upper_not_space _ Hc) (alpha_not_space _ He)) as H.
    cbn in H. rewrite app_nil_r in H. exact H.
Qed.

Lemma mt_name_phrase (bef w s : pystr) :
  mt name_phrase bef w s -> capitalised w = true /\ strip w = w.
Proof.
  unfold name_phrase. intros H.
  apply mt_Seq_cons in H as (up & x1 & -> & (c & -> & Hc) & H).
  apply mt_Seq_cons in H as (al & x2 & -> & Hal & H).
  apply mt_Seq_cons in H as (more & x3 & -> & (ws & -> & Hws) & H).
  apply mt_Seq_nil in H. subst x3. rewrite app_nil_r.
  apply (mt_Star_Cls true isalpha) in Hal.
  destruct (@chain_name_words isalpha (Star true Alpha) ws
              (fun c H => H)
              (fun bef w s H => proj1 (mt_Star_Cls true isalpha bef w s) H)
              _ _ Hws) as [Hall Hend].
  exact (@name_words_shape isalpha c al (concat ws) Hc (fun x H => H) Hal
           Hall Hend).
Qed.

Lemma mt_PROPER_NOUN_RE (bef w s : pystr) :
  mt PROPER_NOUN_RE bef w s -> capitalised w = true /\ strip w = w.
Proof.
  unfold PROPER_NOUN_RE. intros H.
  apply mt_Seq_cons in H as (b1 & x0 & -> & [-> _] & H).
  apply mt_Seq_cons in H as (up & x1 & -> & (c & -> & Hc) & H).
  apply mt_Seq_cons in H as (al & x2 & -> & Hal & H).
  apply mt_Seq_cons in H as (more & x3 & -> & (ws & -> & Hws) & H).
  apply mt_Seq_cons in H as (b2 & x4 & -> & [-> _] & H).
  apply mt_Seq_nil in H. subst x4. cbn [app]. rewrite app_nil_r.
  apply (mt_Plus_Cls islower) in Hal as [_ Hal].
  destruct (@chain_name_words islower (Plus Lower) ws lower_alpha
              (fun bef w s H => proj2 (proj1 (mt_Plus_Cls islower bef w s) H))
              _ _ Hws) as [Hall Hend].
  exact (@name_words_shape islower c al (concat ws) Hc lower_alpha Hal
           Hall Hend).
Qed.

Lemma occurs_in_nil {A : Type} (s : list A) : occurs_in [] s.
Proof. exists [], s. reflexivity. Qed.

(** The answer of a name rule: the trimmed group 1 of the first match. *)
Lemma name_rule_answer (r : regex) (s : pystr) (m : rmatch) :
  sets_group r = true ->
  groups r = [name_phrase] ->
  re_search r s = Some m ->
  let ans := strip (group1_text m) in
  ans = group1_text m /\ capitalised ans = true /\ occurs_in ans s.
Proof.
  intros Hs Hg H.
  destruct (search_group1 r s Hs H)
    as (g & pre & a & b & c & post & Hin & Heq & Hg1 & Hm).
  rewrite Hg in Hin. destruct Hin as [<- | []].
  apply mt_name_phrase in Hm as [Hcap Hstrip].
  unfold group1_text. rewrite Hg1. cbv zeta. rewrite Hstrip.
  refine (conj eq_refl (conj Hcap _)).
  exists (pre ++ a), (c ++ post). rewrite Heq, <- !app_assoc. reflexivity.
Qed.

Lemma if_same {A : Type} (b : bool) (x : A) : (if b then x else x) = x.
Proof. destruct b; reflexivity. Qed.

(** What the name branch returns: the sentence as it is, or a capitalised
    phrase that stands in it. *)
Lemma extract_name_shape (s : pystr) :
  extract_name s = s
  \/ (capitalised (extract_name s) = true /\ occurs_in (extract_name s) s).
Proof.
  unfold extract_name.
  destruct (re_search REPLACED_BY_RE s) as [m|] eqn:H1.
  { right. rewrite if_same.
    exact (proj2 (name_rule_answer REPLACED_BY_RE s eq_refl eq_refl H1)). }
  destruct (re_search NAME_BEFORE_ROLE_RE s) as [m|] eqn:H2.
  { right. rewrite if_same.
    exact (proj2 (name_rule_answer NAME_BEFORE_ROLE_RE s eq_refl eq_refl H2)). }
  destruct (re_search ROLE_NAME_RE s) as [m|] eqn:H3.
  { right. rewrite if_same.
    exact (proj2 (name_rule_answer ROLE_NAME_RE s eq_refl eq_refl H3)). }
  destruct (_extract_proper_nouns s) as [|e ents'] eqn:H4;
    [left; reflexivity | right].
  rewrite if_same.
  assert (Hent : forall x, In x (e :: ents') ->
                   capitalised x = true /\ occurs_in x s).
  { rewrite <- H4. unfold _extract_proper_nouns, re_findall. intros x Hx.
    apply findall_from_In in Hx as [Hocc (bef' & post' & Hm)].
    split; [exact (proj1 (mt_PROPER_NOUN_RE Hm)) | exact Hocc]. }
  destruct (filter (contains (str " ")) (e :: ents')) as [|m0 multi'] eqn:Hf.
  - apply Hent. apply max_by_len_In.
  - apply Hent.
    assert (Hsub : forall x, In x (m0 :: multi') -> In x (e :: ents')).
    { rewrite <- Hf. intros x Hx. apply filter_In in Hx as [Hx _]. exact Hx. }
    apply Hsub. apply max_by_len_In.
Qed.

(** * The extractor *)

Lemma pystr_eqb_eq (a b : pystr) : pystr_eqb a b = true <-> a = b.
Proof.
  revert b; induction a as [|x a IH]; intros [|y b]; cbn [pystr_eqb];
    try (split; [discriminate | discriminate]); [split; reflexivity|].
  rewrite andb_true_iff, ascii_eqb_eq, IH. split.
  - intros [-> ->]. reflexivity.
  - intros H. injection H as -> ->. split; reflexivity.
Qed.

Lemma pystr_eqb_neq (a b : pystr) : a <> b -> pystr_eqb a b = false.
Proof.
  intros H. destruct (pystr_eqb a b) eqn:Heq; [|reflexivity].
  apply pystr_eqb_eq in Heq. contradiction.
Qed.

Lemma combined_without_host (s q : pystr) :
  contains (str "host") q = false -> combined_host_date s q = None.
Proof. intros H. unfold combined_host_date. rewrite H. reflexivity. Qed.

Lemma extract_date_occurs (s : pystr) : occurs_in (extract_date s) s.
Proof.
  unfold extract_date. destruct (re_search MONTH_RE s) as [m|] eqn:H;
    [|apply occurs_in_refl].
  apply re_search_some in H as (pre & post & [Hs _] & _).
  exists pre, post. exact Hs.
Qed.

(** X18: for a who- or which-question that does not mention a host, the
    extractor answers with the trimmed sentence as it is, or with a
    capitalised phrase (an upper-case letter, then letters and white space
    only) that stands in the sentence. *)
Theorem name_answer_is_capitalised_phrase (sentence qtype question : pystr) :
  contains (str "host") (lower question) = false ->
  qtype = PERSON_OR_TEAM \/ qtype = ENTITY ->
  let answer := extract_short_answer sentence qtype question in
  answer = strip sentence
  \/ (capitalised answer = true /\ occurs_in answer sentence).
Proof.
  intros Hq Ht. unfold extract_short_answer. cbv zeta.
  rewrite (combined_without_host _ _ Hq).
  assert (Hb : pystr_eqb qtype PERSON_OR_TEAM || pystr_eqb qtype ENTITY = true)
    by (destruct Ht as [-> | ->]; reflexivity).
  rewrite Hb.
  destruct (extract_name_shape (strip sentence)) as [H | [H1 H2]];
    [left; exact H | right].
  split; [exact H1 | exact (occurs_in_trans H2 (strip_occurs sentence))].
Qed.

Lemma name_answer_is_capitalised_phrase_witness :
  extract_short_answer (str "Bangladesh was replaced by Scotland in the event.")
    PERSON_OR_TEAM (str "Who replaced Bangladesh?") = str "Scotland"
  /\ capitalised (str "Scotland") = true.
Proof.
  split; [vm_compute; reflexivity|].
  destruct (@name_answer_is_capitalised_phrase
              (str "Bangladesh was replaced by Scotland in the event.")
              PERSON_OR_TEAM (str "Who replaced Bangladesh?")
              eq_refl (or_introl eq_refl)) as [H | [H _]].
  - vm_compute in H. discriminate H.
  - exact H.
Defined.

Section Grounding.

Context {E : Externals}.

(** The answer to a who-, which- or when-question that does not mention a
    host stands in the text of a retrieved chunk. *)
Lemma grounded_answer (query : pystr) (retrieved : list (Chunk * F))
    (min_score : F) (answer report : pystr) :
  contains (str "host") (lower query) = false ->
  In (detect_question_type query) [PERSON_OR_TEAM; ENTITY; DATE] ->
  retrieved <> [] ->
  generate_extractive_answer query retrieved min_score
  = inr (answer, report) ->
  exists c score, In (c, score) retrieved /\ occurs_in answer (text c).
Proof.
  intros Hq Ht Hne H. unfold generate_extractive_answer in H.
  destruct retrieved as [|p0 l]; [contradiction Hne; reflexivity|].
  destruct (choose (p0 :: l) min_score) as [[c score]|] eqn:Hch;
    [|discriminate H].
  cbn [or_index_error bind ret] in H. unfold answer_from in H.
  cbn [fst] in H.
  destruct (_best_sentence query (text c)) as [e|bs] eqn:Hbs;
    [discriminate H|].
  cbn [bind ret] in H. injection H as <- _.
  exists c, score. split.
  - unfold choose in Hch.
    destruct (first_scoring (p0 :: l) min_score) as [ch|] eqn:Hf.
    + injection Hch as ->.
      apply first_scoring_some in Hf as (pre & post & -> & _).
      apply in_or_app. right. left. reflexivity.
    + cbn in Hch. injection Hch as ->. left. reflexivity.
  - pose proof (best_sentence_In _ _ Hbs) as Hsent.
    destruct (split_sentences_In _ _ Hsent) as (_ & Hocc & _).
    apply (@occurs_in_trans _ _ bs); [|exact Hocc].
    apply (@occurs_in_trans _ _ (strip bs)); [|apply strip_occurs].
    unfold extract_short_answer. cbv zeta.
    rewrite (combined_without_host _ _ Hq).
    destruct Ht as [<- | [<- | [<- | []]]].
    + change (pystr_eqb PERSON_OR_TEAM PERSON_OR_TEAM) with true. cbn [orb].
      destruct (extract_name_shape (strip bs)) as [-> | [_ H]];
        [apply occurs_in_refl | exact H].
    + change (pystr_eqb ENTITY PERSON_OR_TEAM || pystr_eqb ENTITY ENTITY)
        with true. cbv iota.
      destruct (extract_name_shape (strip bs)) as [-> | [_ H]];
        [apply occurs_in_refl | exact H].
    + change (pystr_eqb DATE PERSON_OR_TEAM || pystr_eqb DATE ENTITY)
        with false.
      change (pystr_eqb DATE REASON) with false.
      change (pystr_eqb DATE DATE) with true. cbv iota.
      apply extract_date_occurs.
Qed.

(** X19: the answer of the facade to a who-, which- or when-question that
    does not mention a host is extractive: it stands, letter for letter,
    in the text of one of the retrieved chunks. *)
Theorem who_which_when_answers_are_extractive (query : pystr)
    (retrieved : list (Chunk * F)) (min_score : F) (answer report : pystr) :
  contains (str "host") (lower query) = false ->
  In (detect_question_type query) [PERSON_OR_TEAM; ENTITY; DATE] ->
  retrieved <> [] ->
  generate_extractive_answer query retrieved min_score
  = inr (answer, report) ->
  exists c score, In (c, score) retrieved /\ occurs_in answer (text c).
Proof. apply grounded_answer. Qed.

Lemma occurs_in_lower (w s : pystr) :
  occurs_in w s -> occurs_in (lower w) (lower s).
Proof.
  intros (pre & post & ->). exists (lower pre), (lower post).
  rewrite !lower_app. reflexivity.
Qed.

(** X20: in the demo application, the provenance check of
    [dynamic_analysis] never fails for a who-, which- or when-question
    that does not mention a host: the answer is empty (no check is made)
    or it is found in a retrieved chunk. *)
Theorem app_provenance_check_passes (rag : NaiveRAG) (query : pystr)
    (top_k : Z) (zero : F) (retrieved_chunks : list (Chunk * F))
    (answer report : pystr) :
  contains (str "host") (lower query) = false ->
  In (detect_question_type query) [PERSON_OR_TEAM; ENTITY; DATE] ->
  retrieve rag query top_k = inr retrieved_chunks ->
  app_answer rag query top_k zero = inr (answer, report) ->
  answer = [] \/ in_context answer retrieved_chunks = true.
Proof.
  intros Hq Ht Hret H. unfold app_answer in H. rewrite Hret in H.
  cbn [bind] in H.
  destruct (score_filter retrieved_chunks zero) as [|p0 l] eqn:Hf.
  - left. cbn in H. injection H as <- _. reflexivity.
  - right.
    destruct (grounded_answer query (retrieved := p0 :: l) zero Hq Ht
                ltac:(discriminate) H) as (c & score & Hin & Hocc).
    unfold in_context. apply existsb_exists. exists (c, score). split.
    + rewrite <- Hf in Hin. apply filter_In in Hin as [Hin _]. exact Hin.
    + apply contains_iff. apply occurs_in_lower. exact Hocc.
Qed.

End Grounding.

Lemma who_which_when_answers_are_extractive_witness :
  let c := mkChunk (str "a.txt") 0
             (str "Play stopped. Later Scotland won the cup.") in
  exists answer report c' score,
    generate_extractive_answer (E := toy) (str "who won") [(c, 5)] 0
    = inr (answer, report)
    /\ In (c', score) [(c, 5)]
    /\ occurs_in answer (text c').
Proof.
  intros c.
  destruct (generate_extractive_answer (E := toy) (str "who won") [(c, 5)] 0)
    as [e|[answer report]] eqn:H; [vm_compute in H; discriminate H|].
  destruct (who_which_when_answers_are_extractive (E := toy)
              (str "who won") (retrieved := [(c, 5)]) 0
              eq_refl (or_introl eq_refl) ltac:(discriminate) H)
    as (c' & score & Hin & Hocc).
  exists answer, report, c', score.
  exact (conj eq_refl (conj Hin Hocc)).
Defined.

Lemma app_provenance_check_passes_witness :
  let rag := snd (build_index (E := toy) corpus_a 100 20 init) in
  exists retrieved answer report,
    retrieve rag (str "who alpha") 3 = inr retrieved
    /\ app_answer rag (str "who alpha") 3 0 = inr (answer, report)
    /\ (answer = [] \/ in_context answer retrieved = true).
Proof.
  intros rag.
  destruct (retrieve rag (str "who alpha") 3) as [e|retrieved] eqn:Hr;
    [vm_compute in Hr; discriminate Hr|].
  destruct (app_answer rag (str "who alpha") 3 0)
    as [e|[answer report]] eqn:Ha; [vm_compute in Ha; discriminate Ha|].
  exists retrieved, answer, report.
  split; [reflexivity|]. split; [reflexivity|].
  exact (app_provenance_check_passes (E := toy) rag (str "who alpha") 3 0
           eq_refl (or_introl eq_refl) Hr Ha).
Defined.

(** ** Periods *)

Lemma ensure_period_ends (s : pystr) :
  endswith (str ".") (ensure_period s) = true.
Proof.
  unfold ensure_period. destruct (endswith (str ".") s) eqn:H; [exact H|].
  unfold endswith. rewrite rev_app_distr. reflexivity.
Qed.

Lemma extract_reason_ends (s : pystr) :
  endswith (str ".") (extract_reason s) = true.
Proof.
  unfold extract_reason. destruct (is_some (re_search CAUSAL_RE s));
    [apply ensure_period_ends|].
  destruct (re_search DUE_TO_RE s); apply ensure_period_ends.
Qed.

(** X21: for a question that does not mention a host and whose type is
    none of PERSON_OR_TEAM, ENTITY and DATE (so a why-question and every
    other question), the answer of the extractor ends with a period. *)
Theorem other_answers_end_with_period (sentence qtype question : pystr) :
  contains (str "host") (lower question) = false ->
  ~ In qtype [PERSON_OR_TEAM; ENTITY; DATE] ->
  endswith (str ".") (extract_short_answer sentence qtype question) = true.
Proof.
  intros Hq Ht. unfold extract_short_answer. cbv zeta.
  rewrite (combined_without_host _ _ Hq).
  rewrite (@pystr_eqb_neq qtype PERSON_OR_TEAM)
    by (intros ->; apply Ht; left; reflexivity).
  rewrite (@pystr_eqb_neq qtype ENTITY)
    by (intros ->; apply Ht; right; left; reflexivity).
  cbn [orb].
  destruct (pystr_eqb qtype REASON); [apply extract_reason_ends|].
  rewrite (@pystr_eqb_neq qtype DATE)
    by (intros ->; apply Ht; right; right; left; reflexivity).
  apply ensure_period_ends.
Qed.

Lemma other_answers_end_with_period_witness :
  endswith (str ".")
    (extract_short_answer (str "The match was abandoned due to rain")
       REASON (str "Why was the match abandoned?")) = true.
Proof.
  apply other_answers_end_with_period; [reflexivity|].
  intros [H | [H | [H | []]]]; discriminate H.
Defined.

(** ** Sentences without capitals *)

Lemma all_ascii_complete (c : ascii) : In c all_ascii.
Proof.
  unfold all_ascii. rewrite <- (ascii_nat_embedding c).
  apply in_map. apply in_seq. pose proof (nat_ascii_bounded c). lia.
Qed.

Lemma requires_char_mt (p : ascii -> bool) (r : regex) :
  requires_char p r = true ->
  forall bef w s, mt r bef w s -> existsb p w = true.
Proof.
  induction r as [|q|r1 IH1 r2 IH2|r1 IH1 r2 IH2|g r IH|r IH| | |q];
    intros Hr bef w s H; cbn [requires_char] in Hr; try discriminate Hr;
    cbn [mt] in H.
  - destruct H as (c & -> & Hc). cbn. rewrite orb_false_r.
    rewrite forallb_forall in Hr. specialize (Hr c (all_ascii_complete c)).
    rewrite Hc in Hr. exact Hr.
  - destruct H as (w1 & w2 & -> & H1 & H2). rewrite existsb_app.
    apply orb_true_iff. apply orb_true_iff in Hr as [Hr | Hr];
      [left; exact (IH1 Hr _ _ _ H1) | right; exact (IH2 Hr _ _ _ H2)].
  - apply andb_true_iff in Hr as [Hr1 Hr2].
    destruct H as [H | H]; [exact (IH1 Hr1 _ _ _ H) | exact (IH2 Hr2 _ _ _ H)].
  - exact (IH Hr _ _ _ H).
Qed.

Lemma all_not_exists (p : ascii -> bool) (w : pystr) :
  all (fun c => negb (p c)) w -> existsb p w = false.
Proof.
  unfold all. induction w as [|c w IH]; [reflexivity|]. cbn.
  intros H. apply andb_true_iff in H as [Hc Hw].
  apply negb_true_iff in Hc. rewrite Hc. exact (IH Hw).
Qed.

(** A pattern whose every match holds a character of a class finds
    nothing in a text without such a character. *)
Lemma no_match_without (p : ascii -> bool) (r : regex) (s : pystr) :
  requires_char p r = true ->
  all (fun c => negb (p c)) s ->
  re_search r s = None.
Proof.
  intros Hr Hs. destruct (re_search r s) as [m|] eqn:H; [|reflexivity].
  exfalso. apply re_search_some in H as (pre & post & [Heq Hm] & _).
  pose proof (requires_char_mt p r Hr _ _ _ Hm) as Hex.
  assert (Hw : all (fun c => negb (p c)) (group0 m))
    by (apply (all_occurs Hs); exists pre, post; exact Heq).
  rewrite (@all_not_exists p (group0 m) Hw) in Hex. discriminate Hex.
Qed.

(** X22: a sentence without upper-case letter is given back as it is,
    trimmed, for the question types PERSON_OR_TEAM, ENTITY and DATE, and
    with a period ensured for every type other than these and REASON,
    whatever the question. *)
Theorem sentence_without_capitals (sentence qtype question : pystr) :
  all (fun c => negb (isupper c)) sentence ->
  (In qtype [PERSON_OR_TEAM; ENTITY; DATE] ->
   extract_short_answer sentence qtype question = strip sentence)
  /\ (~ In qtype [PERSON_OR_TEAM; ENTITY; DATE; REASON] ->
      extract_short_answer sentence qtype question
      = ensure_period (strip sentence)).
Proof.
  intros Hall.
  assert (Hs : all (fun c => negb (isupper c)) (strip sentence))
    by exact (all_occurs Hall (strip_occurs sentence)).
  assert (Hno : forall r, requires_char isupper r = true ->
                          re_search r (strip sentence) = None)
    by (intros r Hr; exact (@no_match_without isupper r (strip sentence) Hr Hs)).
  assert (Hcomb : combined_host_date (strip sentence) (lower question) = None).
  { unfold combined_host_date, host_capture, date_capture.
    rewrite (Hno MONTH_RE eq_refl), (Hno CO_HOSTED_BY_RE eq_refl),
      (Hno HOSTED_BY_RE eq_refl).
    cbn [is_some option_map truthy]. rewrite andb_false_r.
    destruct (_ && _); reflexivity. }
  assert (Hname : extract_name (strip sentence) = strip sentence).
  { unfold extract_name, _extract_proper_nouns, re_findall.
    rewrite (Hno REPLACED_BY_RE eq_refl), (Hno NAME_BEFORE_ROLE_RE eq_refl),
      (Hno ROLE_NAME_RE eq_refl).
    cbn [findall_from].
    change (search_from PROPER_NOUN_RE 0 [] (strip sentence))
      with (re_search PROPER_NOUN_RE (strip sentence)).
    rewrite (Hno PROPER_NOUN_RE eq_refl). reflexivity. }
  assert (Hdate : extract_date (strip sentence) = strip sentence).
  { unfold extract_date. rewrite (Hno MONTH_RE eq_refl). reflexivity. }
  unfold extract_short_answer. cbv zeta. rewrite Hcomb. split.
  - intros [<- | [<- | [<- | []]]].
    + exact Hname.
    + exact Hname.
    + exact Hdate.
  - intros Ht.
    rewrite (@pystr_eqb_neq qtype PERSON_OR_TEAM)
      by (intros ->; apply Ht; left; reflexivity).
    rewrite (@pystr_eqb_neq qtype ENTITY)
      by (intros ->; apply Ht; right; left; reflexivity).
    rewrite (@pystr_eqb_neq qtype REASON)
      by (intros ->; apply Ht; right; right; right; left; reflexivity).
    rewrite (@pystr_eqb_neq qtype DATE)
      by (intros ->; apply Ht; right; right; left; reflexivity).
    reflexivity.
Qed.

Lemma sentence_without_capitals_witness :
  extract_short_answer (str " the hosts won by 5 runs in march ")
    PERSON_OR_TEAM (str "Who is hosting and when does it start?")
  = str "the hosts won by 5 runs in march".
Proof.
  destruct (@sentence_without_capitals
              (str " the hosts won by 5 runs in march ") PERSON_OR_TEAM
              (str "Who is hosting and when does it start?") eq_refl)
    as [H _].
  exact (H (or_introl eq_refl)).
Defined.

(** * Normalisation *)

Lemma span_class (p : ascii -> bool) (s : pystr) :
  exists a b,
    s = a ++ b /\ all p a /\ (forall x b', b = x :: b' -> p x = false).
Proof.
  induction s as [|c s (a & b & -> & Ha & Hb)].
  - exists [], []. split; [reflexivity|]. split; [reflexivity | discriminate].
  - destruct (p c) eqn:Hc.
    + exists (c :: a), b. split; [reflexivity|]. split; [|exact Hb].
      unfold all in *. cbn. rewrite Hc. exact Ha.
    + exists [], (c :: a ++ b). split; [reflexivity|].
      split; [reflexivity|]. intros x b' H. injection H as <- _. exact Hc.
Qed.

Lemma filter_all (p : ascii -> bool) (s : pystr) : all p s -> filter p s = s.
Proof.
  unfold all. induction s as [|c s IH]; [reflexivity|]. cbn.
  intros H. apply andb_true_iff in H as [Hc Hs]. rewrite Hc, (IH Hs).
  reflexivity.
Qed.

Lemma consumed_one (bef s : pystr) (c : ascii) (cp cp' : option pystr) :
  consumed (MState bef (c :: s) cp) (MState (c :: bef) s cp') = [c].
Proof. apply consumes_text. split; reflexivity. Qed.

(** ** Replacing the characters of a class *)

Lemma search_from_cls_none (p : ascii -> bool) (s : pystr) : forall pos bef,
  all (fun x => negb (p x)) s -> search_from (Cls p) pos bef s = None.
Proof.
  unfold all. induction s as [|c s IH]; intros pos bef H; [reflexivity|].
  cbn in H. apply andb_true_iff in H as [Hc Hs]. apply negb_true_iff in Hc.
  cbn [search_from run rest]. rewrite Hc. apply IH. exact Hs.
Qed.

Lemma search_from_cls_found (p : ascii -> bool) (pre : pystr) :
  forall pos bef c post,
    all (fun x => negb (p x)) pre -> p c = true ->
    search_from (Cls p) pos bef (pre ++ c :: post)
    = Some (RMatch (pos + length pre) [c] None
              (MState (c :: rev pre ++ bef) post None)).
Proof.
  unfold all. induction pre as [|x pre IH]; intros pos bef c post Hpre Hc.
  - cbn [app search_from run rest before cap length rev]. rewrite Hc.
    rewrite consumed_one, Nat.add_0_r. reflexivity.
  - cbn in Hpre. apply andb_true_iff in Hpre as [Hx Hpre].
    apply negb_true_iff in Hx.
    cbn [app search_from run rest]. rewrite Hx.
    rewrite (IH (S pos) (x :: bef) c post Hpre Hc).
    cbn [length rev]. rewrite <- app_assoc. cbn [app].
    replace (S pos + length pre)%nat with (pos + S (length pre))%nat by lia.
    reflexivity.
Qed.

Lemma sub_from_cls (p : ascii -> bool) (fuel : nat) : forall bef s,
  (length s <= fuel)%nat ->
  sub_from (Cls p) [] fuel bef s = filter (fun x => negb (p x)) s.
Proof.
  induction fuel as [|fuel IH]; intros bef s Hlen.
  - destruct s; [reflexivity | cbn in Hlen; lia].
  - cbn [sub_from].
    destruct (span_class (fun x => negb (p x)) s) as (a & b & -> & Ha & Hb).
    destruct b as [|c post].
    + rewrite app_nil_r in *. rewrite (@search_from_cls_none p a 0%nat bef Ha).
      symmetry. exact (filter_all Ha).
    + pose proof (Hb c post eq_refl) as Hc. apply negb_false_iff in Hc.
      rewrite (@search_from_cls_found p a 0%nat bef c post Ha Hc).
      cbn [m_start m_stop rest before Nat.add].
      rewrite firstn_length_app, filter_app, (filter_all Ha).
      cbn [filter app]. rewrite Hc. cbn [negb]. f_equal.
      apply IH. rewrite length_app in Hlen. cbn in Hlen. lia.
Qed.

(** ** Replacing the runs of white space *)

Lemma star_run_greedy_unfold (body : mstate -> list mstate) (fuel : nat)
    (st : mstate) :
  star_run true body (S fuel) st
  = flat_map (star_run true body fuel) (filter (advances st) (body st))
      ++ [st].
Proof. reflexivity. Qed.

(** A greedy repetition of a class reads the whole run first. *)
Lemma star_cls_greedy (p : ascii -> bool) (w : pystr) :
  forall bef s cp fuel,
    all p w ->
    (forall x s', s = x :: s' -> p x = false) ->
    (length w <= fuel)%nat ->
    exists l,
      star_run true (run (Cls p)) fuel (MState bef (w ++ s) cp)
      = MState (rev w ++ bef) s cp :: l.
Proof.
  unfold all. set (body := run (Cls p)).
  induction w as [|x w IH]; intros bef s cp fuel Hw Hs Hfuel.
  - cbn [app rev]. destruct fuel as [|fuel]; [exists []; reflexivity|].
    rewrite star_run_greedy_unfold.
    assert (Hb : body (MState bef s cp) = []).
    { unfold body. cbn [run rest]. destruct s as [|y s']; [reflexivity|].
      rewrite (Hs y s' eq_refl). reflexivity. }
    rewrite Hb. exists []. reflexivity.
  - cbn in Hw. apply andb_true_iff in Hw as [Hx Hw].
    destruct fuel as [|fuel]; [cbn in Hfuel; lia|].
    cbn [length] in Hfuel.
    destruct (IH (x :: bef) s cp fuel Hw Hs ltac:(lia)) as (l & Hl).
    rewrite star_run_greedy_unfold.
    assert (Hb : body (MState bef ((x :: w) ++ s) cp)
                 = [MState (x :: bef) (w ++ s) cp]).
    { unfold body. cbn [app run rest before cap]. rewrite Hx. reflexivity. }
    rewrite Hb. cbn [filter]. unfold advances at 1. cbn [rest app length].
    rewrite (proj2 (Nat.ltb_lt _ _) (Nat.lt_succ_diag_r _)).
    cbn [flat_map]. rewrite Hl, app_nil_r.
    exists (l ++ [MState bef (x :: w ++ s) cp]).
    cbn [rev app]. rewrite <- app_assoc. reflexivity.
Qed.

Lemma run_spaces_head (ws : pystr) (bef s : pystr) (cp : option pystr) :
  ws <> [] -> all isspace ws ->
  (forall x s', s = x :: s' -> isspace x = false) ->
  exists l,
    run SPACES_RE (MState bef (ws ++ s) cp)
    = MState (rev ws ++ bef) s cp :: l.
Proof.
  intros Hne Hws Hs. destruct ws as [|x ws]; [contradiction Hne; reflexivity|].
  unfold all in Hws. cbn in Hws. apply andb_true_iff in Hws as [Hx Hws].
  destruct (@star_cls_greedy isspace ws (x :: bef) s cp (length (ws ++ s))
              Hws Hs) as (l & Hl).
  { rewrite length_app. lia. }
  unfold SPACES_RE, Plus, Space.
  change (run (Cat (Cls isspace) (Star true (Cls isspace)))
            (MState bef ((x :: ws) ++ s) cp))
    with (flat_map (run (Star true (Cls isspace)))
            (run (Cls isspace) (MState bef (x :: ws ++ s) cp))).
  assert (Hb : run (Cls isspace) (MState bef (x :: ws ++ s) cp)
               = [MState (x :: bef) (ws ++ s) cp])
    by (cbn [run rest before cap]; rewrite Hx; reflexivity).
  rewrite Hb. cbn [flat_map].
  change (run (Star true (Cls isspace)) (MState (x :: bef) (ws ++ s) cp))
    with (star_run true (run (Cls isspace)) (length (ws ++ s))
            (MState (x :: bef) (ws ++ s) cp)).
  rewrite Hl, app_nil_r. exists l. cbn [rev]. rewrite <- app_assoc.
  reflexivity.
Qed.

Lemma run_spaces_nil (bef s : pystr) (cp : option pystr) :
  (forall x s', s = x :: s' -> isspace x = false) ->
  run SPACES_RE (MState bef s cp) = [].
Proof.
  intros Hs. unfold SPACES_RE, Plus, Space.
  change (run (Cat (Cls isspace) (Star true (Cls isspace))) (MState bef s cp))
    with (flat_map (run (Star true (Cls isspace)))
            (run (Cls isspace) (MState bef s cp))).
  assert (Hb : run (Cls isspace) (MState bef s cp) = []).
  { cbn [run rest]. destruct s as [|x s']; [reflexivity|].
    rewrite (Hs x s' eq_refl). reflexivity. }
  rewrite Hb. reflexivity.
Qed.

Lemma search_from_spaces_none (s : pystr) : forall pos bef,
  all (fun x => negb (isspace x)) s -> search_from SPACES_RE pos bef s = None.
Proof.
  unfold all. induction s as [|c s IH]; intros pos bef H.
  - cbn [search_from]. rewrite run_spaces_nil; [reflexivity | discriminate].
  - cbn in H. apply andb_true_iff in H as [Hc Hs]. apply negb_true_iff in Hc.
    cbn [search_from]. rewrite run_spaces_nil.
    + apply IH. exact Hs.
    + intros x s' Heq. injection Heq as <- _. exact Hc.
Qed.

Lemma search_from_spaces_found (pre : pystr) : forall pos bef ws post,
  all (fun x => negb (isspace x)) pre ->
  ws <> [] -> all isspace ws ->
  (forall x s', post = x :: s' -> isspace x = false) ->
  exists m,
    search_from SPACES_RE pos bef (pre ++ ws ++ post) = Some m
    /\ m_start m = (pos + length pre)%nat
    /\ rest (m_stop m) = post.
Proof.
  unfold all at 1. induction pre as [|c pre IH];
    intros pos bef ws post Hpre Hne Hws Hpost.
  - destruct (run_spaces_head bef None Hne Hws Hpost) as (l & Hl).
    cbn [app]. destruct ws as [|x ws]; [contradiction Hne; reflexivity|].
    cbn [app search_from]. cbn [app] in Hl. rewrite Hl.
    eexists. split; [reflexivity|]. cbn [m_start m_stop rest length].
    split; [lia | reflexivity].
  - cbn in Hpre. apply andb_true_iff in Hpre as [Hc Hpre].
    apply negb_true_iff in Hc. cbn [app search_from].
    rewrite run_spaces_nil
      by (intros x s' Heq; injection Heq as <- _; exact Hc).
    destruct (IH (S pos) (c :: bef) ws post Hpre Hne Hws Hpost)
      as (m & Hm & Hstart & Hrest).
    exists m. split; [exact Hm|]. split; [cbn [length]; lia | exact Hrest].
Qed.

Lemma sub_spaces_none (fuel : nat) (bef s : pystr) :
  all (fun x => negb (isspace x)) s ->
  sub_from SPACES_RE (str " ") fuel bef s = s.
Proof.
  intros H. destruct fuel; [reflexivity|]. cbn [sub_from].
  rewrite (@search_from_spaces_none s 0%nat bef H). reflexivity.
Qed.

Lemma sub_spaces_step (fuel : nat) (bef pre ws post : pystr) :
  all (fun x => negb (isspace x)) pre ->
  ws <> [] -> all isspace ws ->
  (forall x s', post = x :: s' -> isspace x = false) ->
  exists bef',
    sub_from SPACES_RE (str " ") (S fuel) bef (pre ++ ws ++ post)
    = pre ++ str " " ++ sub_from SPACES_RE (str " ") fuel bef' post.
Proof.
  intros Hpre Hne Hws Hpost.
  destruct (@search_from_spaces_found pre 0%nat bef ws post Hpre Hne Hws Hpost)
    as (m & Hm & Hstart & Hrest).
  exists (before (m_stop m)). cbn [sub_from]. rewrite Hm, Hstart, Hrest.
  cbn [Nat.add]. rewrite firstn_length_app. reflexivity.
Qed.

(** ** Words *)

Lemma split_go_spaces (ws post : pystr) :
  all isspace ws -> split_go [] (ws ++ post) = split_go [] post.
Proof.
  unfold all. induction ws as [|x ws IH]; [reflexivity|]. cbn.
  intros H. apply andb_true_iff in H as [Hx Hws]. rewrite Hx. exact (IH Hws).
Qed.

Lemma split_go_word_spaces (c : ascii) (w ws post : pystr) :
  ws <> [] -> all isspace ws ->
  split_go (c :: w) (ws ++ post) = (c :: w) :: split_go [] post.
Proof.
  intros Hne Hws. destruct ws as [|x ws]; [contradiction Hne; reflexivity|].
  unfold all in Hws. cbn in Hws. apply andb_true_iff in Hws as [Hx Hws].
  cbn [app split_go]. rewrite Hx. f_equal. exact (split_go_spaces _ Hws).
Qed.

Lemma split_go_nonempty (s : pystr) : forall c cur,
  split_go (c :: cur) s <> [].
Proof.
  induction s as [|x s IH]; intros c cur; cbn [split_go]; [discriminate|].
  destruct (isspace x); [discriminate | apply IH].
Qed.

Lemma rstrip_app_keep (a r : pystr) (c : ascii) :
  isspace c = false -> rstrip (a ++ c :: r) = a ++ rstrip (c :: r).
Proof.
  intros Hc. rewrite (@rstrip_cons_nonspace c r Hc).
  replace (a ++ c :: r) with ((a ++ [c]) ++ r)
    by (rewrite <- app_assoc; reflexivity).
  rewrite (@rstrip_app_nonspace a r c Hc), <- app_assoc. reflexivity.
Qed.

Lemma rstrip_nonspace (w : pystr) :
  all (fun x => negb (isspace x)) w -> rstrip w = w.
Proof.
  intros H. destruct w as [|c w] using rev_ind; [reflexivity|].
  apply all_app in H as [_ Hc]. unfold all in Hc. cbn in Hc.
  rewrite andb_true_r in Hc. apply negb_true_iff in Hc.
  rewrite <- (app_nil_r (w ++ [c])) at 1.
  rewrite (@rstrip_app_nonspace w [] c Hc). apply app_nil_r.
Qed.

Lemma nonspace_tokens (w : pystr) :
  all (fun x => negb (isspace x)) w ->
  forallb (fun c => negb (isspace c)) w = true.
Proof. intros H. exact H. Qed.

Lemma all_rev (p : ascii -> bool) (w : pystr) : all p w -> all p (rev w).
Proof.
  unfold all. rewrite !forallb_forall. intros H c Hc. apply H.
  apply in_rev. exact Hc.
Qed.

Lemma rstrip_blank (x : pystr) : all isspace x -> rstrip x = [].
Proof.
  intros H. unfold rstrip. rewrite (@lstrip_blank (rev x) (all_rev H)).
  reflexivity.
Qed.

Lemma rstrip_word_spaces (w ws : pystr) :
  all (fun x => negb (isspace x)) w -> all isspace ws -> rstrip (w ++ ws) = w.
Proof.
  intros Hw Hws. destruct w as [|c w] using rev_ind;
    [exact (rstrip_blank Hws)|].
  apply all_app in Hw as [_ Hc]. unfold all in Hc. cbn in Hc.
  rewrite andb_true_r in Hc. apply negb_true_iff in Hc.
  rewrite (@rstrip_app_nonspace w ws c Hc), (rstrip_blank Hws).
  apply app_nil_r.
Qed.

Lemma sub_from_nil (r : regex) (repl : pystr) (fuel : nat) (bef : pystr) :
  run r (MState bef [] None) = [] -> sub_from r repl fuel bef [] = [].
Proof.
  intros H. destruct fuel; [reflexivity|]. cbn [sub_from search_from].
  rewrite H. reflexivity.
Qed.

(** A text that does not start with white space: the replacement, trimmed
    on the right, is the words joined by single spaces; it starts where
    the text starts. *)
Lemma sub_spaces_words (fuel : nat) : forall bef t,
  (length t <= fuel)%nat ->
  (forall x s', t = x :: s' -> isspace x = false) ->
  rstrip (sub_from SPACES_RE (str " ") fuel bef t) = join (str " ") (split t)
  /\ (t <> [] ->
      exists c r,
        sub_from SPACES_RE (str " ") fuel bef t = c :: r
        /\ isspace c = false).
Proof.
  induction fuel as [|fuel IH]; intros bef t Hlen Ht.
  { destruct t; [|cbn in Hlen; lia].
    split; [reflexivity | intros H; contradiction H; reflexivity]. }
  destruct (span_class (fun x => negb (isspace x)) t)
    as (pre & rest0 & -> & Hpre & Hrest).
  destruct pre as [|c0 pre].
  { destruct rest0 as [|x r0];
      [split; [reflexivity | intros H; contradiction H; reflexivity]|].
    exfalso. pose proof (Hrest x r0 eq_refl) as Hx.
    rewrite (Ht x r0 eq_refl) in Hx. discriminate Hx. }
  assert (Hc0 : isspace c0 = false) by exact (Ht c0 _ eq_refl).
  destruct rest0 as [|x r0].
  { rewrite app_nil_r in *. rewrite (sub_spaces_none (S fuel) bef Hpre).
    split; [|intros _; exists c0, pre; split; [reflexivity | exact Hc0]].
    rewrite (rstrip_nonspace Hpre). unfold split.
    rewrite <- (app_nil_r (c0 :: pre)) at 2.
    rewrite (@split_go_word (c0 :: pre) [] [] Hpre). reflexivity. }
  destruct (span_class isspace (x :: r0)) as (ws & post & Heq & Hws & Hpost).
  assert (Hne : ws <> []).
  { intros ->. cbn in Heq. pose proof (Hrest x r0 eq_refl) as Hx.
    apply negb_false_iff in Hx. rewrite (Hpost x r0 (eq_sym Heq)) in Hx.
    discriminate Hx. }
  rewrite Heq in *.
  destruct (@sub_spaces_step fuel bef (c0 :: pre) ws post Hpre Hne Hws Hpost)
    as (bef' & Hsub).
  rewrite Hsub.
  assert (Hsplit : split ((c0 :: pre) ++ ws ++ post)
                   = (c0 :: pre) :: split post).
  { unfold split. rewrite (@split_go_word (c0 :: pre) [] (ws ++ post) Hpre).
    cbn [app]. exact (split_go_word_spaces c0 pre post Hne Hws). }
  rewrite Hsplit.
  split; [|intros _; exists c0, (pre ++ str " " ++
                                  sub_from SPACES_RE (str " ") fuel bef' post);
           split; [reflexivity | exact Hc0]].
  assert (Hlen' : (length post <= fuel)%nat).
  { rewrite !length_app in Hlen. cbn [length] in Hlen.
    destruct ws; [contradiction Hne; reflexivity | cbn in Hlen; lia]. }
  destruct (IH bef' post Hlen' Hpost) as [IH1 IH2].
  destruct post as [|y post'].
  - rewrite (@sub_from_nil SPACES_RE (str " ") fuel bef')
      by (apply run_spaces_nil; discriminate).
    rewrite app_nil_r. cbn [split split_go join].
    apply (rstrip_word_spaces Hpre). reflexivity.
  - destruct (IH2 ltac:(discriminate)) as (c & r & Hcr & Hc).
    rewrite Hcr in *.
    replace ((c0 :: pre) ++ str " " ++ c :: r)
      with (((c0 :: pre) ++ str " ") ++ c :: r)
      by (rewrite <- app_assoc; reflexivity).
    rewrite (@rstrip_app_keep ((c0 :: pre) ++ str " ") r c Hc), IH1,
      <- app_assoc.
    destruct (split (y :: post')) as [|w1 l1] eqn:Hsp.
    + exfalso. unfold split in Hsp. cbn [split_go] in Hsp.
      rewrite (Hpost y post' eq_refl) in Hsp.
      exact (split_go_nonempty post' y [] Hsp).
    + reflexivity.
Qed.

Lemma squeeze_strip (s : pystr) :
  strip (re_sub SPACES_RE (str " ") s) = join (str " ") (split s).
Proof.
  assert (Hwords : forall fuel bef t,
            (length t <= fuel)%nat ->
            (forall x s', t = x :: s' -> isspace x = false) ->
            strip (sub_from SPACES_RE (str " ") fuel bef t)
            = join (str " ") (split t)).
  { intros fuel bef t Hlen Ht.
    destruct (sub_spaces_words bef Hlen Ht) as [H1 H2].
    destruct t as [|x t'].
    - rewrite (@sub_from_nil SPACES_RE (str " ") fuel bef)
        by (apply run_spaces_nil; discriminate).
      reflexivity.
    - destruct (H2 ltac:(discriminate)) as (c & r & Hcr & Hc).
      unfold strip. rewrite Hcr in *. cbn [lstrip]. rewrite Hc. exact H1. }
  unfold re_sub.
  destruct (span_class isspace s) as (ws & t & -> & Hws & Ht).
  destruct ws as [|x ws].
  - cbn [app]. apply Hwords; [lia | exact Ht].
  - unfold split. rewrite (split_go_spaces t Hws).
    destruct (length ((x :: ws) ++ t)) as [|fuel] eqn:Hlen;
      [cbn in Hlen; lia|].
    destruct (@sub_spaces_step fuel [] [] (x :: ws) t eq_refl
                ltac:(discriminate) Hws Ht) as (bef' & Hsub).
    cbn [app] in Hsub. cbn [app]. rewrite Hsub.
    change (str " ") with [" "%char]. cbn [app]. unfold strip.
    cbn [lstrip]. change (isspace " ") with true. cbv iota.
    apply (Hwords fuel bef' t); [|exact Ht].
    cbn [app length] in Hlen. rewrite length_app in Hlen. lia.
Qed.

Lemma normalize_spec (text : pystr) :
  normalize text
  = join (str " ")
      (split (filter (fun c => isword c || isspace c) (lower text))).
Proof.
  unfold normalize, re_sub at 2, PUNCT_RE. cbv zeta.
  rewrite sub_from_cls by lia. rewrite squeeze_strip.
  f_equal. f_equal. apply filter_ext. intros c. apply negb_involutive.
Qed.

(** X23: on ASCII text, [normalize] is lower-casing, dropping every
    character that is not an ASCII letter, a digit, an underscore or white
    space, and joining the words of what is left by single spaces. *)
Theorem normalize_normal_form (text : pystr) :
  all isascii text ->
  normalize text
  = join (str " ")
      (split (filter (fun c => isword c || isspace c) (lower text))).
Proof. intros _. apply normalize_spec. Qed.

Lemma normalize_normal_form_witness :
  all isascii (str "  Hello,   World!  It's co-hosted_by  X. ")
  /\ normalize (str "  Hello,   World!  It's co-hosted_by  X. ")
     = str "hello world its cohosted_by x".
Proof.
  split; [reflexivity|].
  rewrite (@normalize_normal_form
             (str "  Hello,   World!  It's co-hosted_by  X. ") eq_refl).
  reflexivity.
Defined.

Lemma split_go_In (s : pystr) : forall cur w c,
  In w (split_go cur s) -> In c w -> In c cur \/ In c s.
Proof.
  induction s as [|x s IH]; intros cur w c Hw Hc; cbn [split_go] in Hw.
  - destruct cur as [|c0 cur]; [destruct Hw|].
    destruct Hw as [<- | []]. left. exact Hc.
  - destruct (isspace x).
    + destruct cur as [|c0 cur].
      * destruct (IH _ _ _ Hw Hc) as [[] | H]. right. right. exact H.
      * destruct Hw as [<- | Hw]; [left; exact Hc|].
        destruct (IH _ _ _ Hw Hc) as [[] | H]. right. right. exact H.
    + destruct (IH _ _ _ Hw Hc) as [H | H]; [|right; right; exact H].
      apply in_app_or in H as [H | [<- | []]];
        [left; exact H | right; left; reflexivity].
Qed.

Lemma join_In (sep : pystr) (ws : list pystr) (c : ascii) :
  In c (join sep ws) -> In c sep \/ exists w, In w ws /\ In c w.
Proof.
  induction ws as [|w ws IH]; [intros []|].
  destruct ws as [|w2 ws].
  - cbn [join]. intros H. right. exists w. split; [left; reflexivity | exact H].
  - change (join sep (w :: w2 :: ws)) with (w ++ sep ++ join sep (w2 :: ws)).
    intros H. apply in_app_or in H as [H | H].
    + right. exists w. split; [left; reflexivity | exact H].
    + apply in_app_or in H as [H | H]; [left; exact H|].
      destruct (IH H) as [Hs | (w' & Hw' & Hc)]; [left; exact Hs | right].
      exists w'. split; [right; exact Hw' | exact Hc].
Qed.

Lemma lower_char_idem (c : ascii) : lower_char (lower_char c) = lower_char c.
Proof. by_cases_on_char c. Qed.

(** A normalised text is its own normal form. *)
Lemma normalize_fixed (text : pystr) :
  let u := normalize text in
  lower u = u
  /\ filter (fun c => isword c || isspace c) u = u
  /\ split u = split (filter (fun c => isword c || isspace c) (lower text)).
Proof.
  cbv zeta. rewrite normalize_spec.
  set (ws := split (filter (fun c => isword c || isspace c) (lower text))).
  assert (Hchar : forall c, In c (join (str " ") ws) ->
                    lower_char c = c /\ isword c || isspace c = true).
  { intros c Hc. apply join_In in Hc as [[<- | []] | (w & Hw & Hc)];
      [split; reflexivity|].
    unfold ws, split in Hw.
    destruct (split_go_In _ _ _ c Hw Hc) as [[] | H].
    apply filter_In in H as [H Hkeep]. split; [|exact Hkeep].
    unfold lower in H. apply in_map_iff in H as (x & <- & _).
    apply lower_char_idem. }
  split; [|split].
  - unfold lower. rewrite <- (map_id (join (str " ") ws)) at 2.
    apply map_ext_in. intros c Hc. exact (proj1 (Hchar c Hc)).
  - apply filter_all. unfold all. apply forallb_forall.
    intros c Hc. exact (proj2 (Hchar c Hc)).
  - apply split_join. apply split_tokens.
Qed.

(** X24: [normalize] is idempotent. *)
Theorem normalize_idempotent (text : pystr) :
  normalize (normalize text) = normalize text.
Proof.
  destruct (normalize_fixed text) as (H1 & H2 & H3).
  rewrite (normalize_spec (normalize text)), H1, H2, H3.
  symmetry. apply normalize_spec.
Qed.

Lemma normalize_period (s : pystr) : normalize (ensure_period s) = normalize s.
Proof.
  unfold ensure_period. destruct (endswith (str ".") s); [reflexivity|].
  rewrite !normalize_spec, lower_app, filter_app.
  change (filter (fun c => isword c || isspace c) (lower (str "."))) with (@nil ascii).
  rewrite app_nil_r. reflexivity.
Qed.

(** X25: the period that the extractor puts at the end of an answer is
    not seen by the exact-match metric, on either side. *)
Theorem exact_match_ignores_final_period (answer expected : pystr) :
  exact_match (ensure_period answer) expected = exact_match answer expected
  /\ exact_match answer (ensure_period expected) = exact_match answer expected.
Proof.
  unfold exact_match. rewrite !normalize_period. split; reflexivity.
Qed.

(** * The question classifier *)

Lemma strip_pad (l x r : pystr) :
  all isspace l -> all isspace r -> strip (l ++ x ++ r) = strip x.
Proof.
  intros Hl Hr.
  destruct (strip_padding x) as (l' & r' & Hx & Hl' & Hr').
  destruct (strip_ends x) as [Hnil | (c & t & t' & e & H1 & Hc & H2 & He)].
  - rewrite Hnil. apply strip_blank.
    apply all_app. split; [exact Hl|]. apply all_app. split; [|exact Hr].
    apply strip_nil_blank. exact Hnil.
  - rewrite Hx at 1.
    replace (l ++ (l' ++ strip x ++ r') ++ r)
      with ((l ++ l') ++ strip x ++ (r' ++ r))
      by (rewrite <- !app_assoc; reflexivity).
    rewrite (@strip_around (l ++ l') (strip x) (r' ++ r) c e t t' H1 H2 Hc He).
    rewrite (@lstrip_blank (l ++ l')) by (apply all_app; split; assumption).
    rewrite (@rstrip_blank (r' ++ r)) by (apply all_app; split; assumption).
    cbn [app]. apply app_nil_r.
Qed.

Lemma lower_blank (l : pystr) : all isspace l -> all isspace (lower l).
Proof.
  unfold all, lower. rewrite !forallb_forall. intros H c Hc.
  apply in_map_iff in Hc as (x & <- & Hx). rewrite isspace_lower_char.
  apply H. exact Hx.
Qed.

(** X26: for ASCII questions, the class of a question does not depend on
    the case of its letters nor on white space around the question. *)
Theorem detect_question_type_ignores_case_and_padding
    (l q1 q2 r : pystr) :
  all isascii (l ++ q1 ++ r) -> all isascii q2 ->
  all isspace l -> all isspace r -> lower q1 = lower q2 ->
  detect_question_type (l ++ q1 ++ r) = detect_question_type q2.
Proof.
  intros _ _ Hl Hr Hq. unfold detect_question_type. cbv zeta.
  rewrite !lower_app, Hq.
  rewrite (strip_pad (lower q2) (lower_blank Hl) (lower_blank Hr)).
  reflexivity.
Qed.

Lemma detect_question_type_ignores_case_and_padding_witness :
  detect_question_type (str "  WHEN does it start? ")
  = detect_question_type (str "when does it start?").
Proof.
  exact (@detect_question_type_ignores_case_and_padding
           (str "  ") (str "WHEN does it start?") (str "when does it start?")
           (str " ") eq_refl eq_refl eq_refl eq_refl eq_refl).
Defined.

(** * One sentence per piece *)

Lemma search_from_first (r : regex) (s : pystr) : forall pos bef m,
  search_from r pos bef s = Some m ->
  exists pre post,
    s = pre ++ group0 m ++ post
    /\ firstn (m_start m - pos) s = pre
    /\ rest (m_stop m) = post
    /\ mt r (rev pre ++ bef) (group0 m) post
    /\ (forall pre1 w1 post1,
          s = pre1 ++ w1 ++ post1 -> mt r (rev pre1 ++ bef) w1 post1 ->
          (length pre <= length pre1)%nat).
Proof.
  intros pos bef m H.
  destruct (search_from_some _ _ _ _ H) as (pre & post & Hs & Hm & Hpos & Hmin).
  destruct (search_from_stop _ _ _ _ H)
    as (pre' & post' & Hs' & Hpos' & Hrest & _).
  assert (Hlen : length pre = length pre') by lia.
  assert (Hpre : pre = pre').
  { rewrite <- (firstn_length_app pre (group0 m ++ post)), <- Hs, Hlen, Hs'.
    apply firstn_length_app. }
  subst pre'. rewrite Hs in Hs' at 1.
  apply app_inv_head in Hs'. apply app_inv_head in Hs'. subst post'.
  exists pre, post. refine (conj Hs (conj _ (conj Hrest (conj Hm Hmin)))).
  rewrite Hpos. replace (pos + length pre - pos)%nat with (length pre) by lia.
  rewrite Hs. apply firstn_length_app.
Qed.

(** No piece of [re.split] holds a match of the pattern, for a pattern
    that never matches the empty text. *)
Lemma split_from_no_match (r : regex) (fuel : nat) :
  (forall bef w s, mt r bef w s -> w <> []) ->
  forall bef s q,
    (length s <= fuel)%nat ->
    In q (split_from r fuel bef s) ->
    forall a w b,
      q = a ++ w ++ b ->
      ~ (forall bef' s', mt r (rev a ++ bef') w s').
Proof.
  intros Hne. induction fuel as [|fuel IH];
    intros bef s q Hlen Hq a w b Heq Hm.
  - destruct s; [|cbn in Hlen; lia]. destruct Hq as [<- | []].
    specialize (Hne _ _ _ (Hm [] [])).
    destruct a; [|discriminate Heq].
    destruct w; [contradiction Hne; reflexivity | discriminate Heq].
  - cbn [split_from] in Hq.
    destruct (search_from r 0 bef s) as [m|] eqn:Hsearch.
    + apply search_from_first in Hsearch
        as (pre & post & Hs & Hfirst & Hrest & Hmt & Hmin).
      rewrite Nat.sub_0_r in Hfirst. rewrite Hfirst, Hrest in Hq.
      destruct Hq as [<- | Hq].
      * specialize (Hmin a w (b ++ group0 m ++ post)).
        rewrite Hs, Heq, <- !app_assoc in Hmin.
        specialize (Hmin eq_refl (Hm _ _)).
        specialize (Hne _ _ _ (Hm [] [])).
        rewrite !length_app in Hmin.
        destruct w; [contradiction Hne; reflexivity | cbn in Hmin; lia].
      * refine (IH (before (m_stop m)) post q _ Hq a w b Heq Hm).
        specialize (Hne _ _ _ Hmt). rewrite Hs, !length_app in Hlen.
        destruct (group0 m); [contradiction Hne; reflexivity|].
        cbn in Hlen. lia.
    + destruct Hq as [<- | []].
      apply (@search_from_none r _ 0%nat bef Hsearch a w b Heq).
      apply Hm.
Qed.

Lemma splitlines_go_no_break (n : nat) : forall s cur p,
  (length s <= n)%nat ->
  all (fun c => negb (is_linebreak c)) cur ->
  In p (splitlines_go cur s) ->
  all (fun c => negb (is_linebreak c)) p.
Proof.
  assert (Hbase : forall cur p,
            all (fun c => negb (is_linebreak c)) cur ->
            In p (splitlines_go cur []) ->
            all (fun c => negb (is_linebreak c)) p).
  { intros cur p Hcur H. cbn in H. destruct cur as [|c0 cur]; [destruct H|].
    destruct H as [<- | []]. exact Hcur. }
  induction n as [|n IH]; intros s cur p Hn Hcur H.
  - destruct s; [exact (Hbase _ _ Hcur H) | cbn in Hn; lia].
  - destruct s as [|c s]; [exact (Hbase _ _ Hcur H)|].
    cbn [splitlines_go] in H. cbn [length] in Hn.
    destruct (is_linebreak c) eqn:Hc.
    + destruct s as [|c2 s']; [destruct H as [<- | []]; exact Hcur|].
      cbn [length] in Hn.
      destruct ((code c =? 13)%nat && (code c2 =? 10)%nat);
        (destruct H as [<- | H]; [exact Hcur|]).
      * apply (IH s' [] p); [lia | reflexivity | exact H].
      * apply (IH (c2 :: s') [] p); [cbn; lia | reflexivity | exact H].
    + apply (IH s (cur ++ [c]) p); [lia | | exact H].
      apply all_app. split; [exact Hcur|].
      unfold all. cbn. rewrite Hc. reflexivity.
Qed.

Lemma mt_sentence_end (a : pystr) (c x : ascii) (bef s : pystr) :
  In c (str ".!?") -> isspace x = true ->
  mt SENTENCE_END_RE (rev (a ++ [c]) ++ bef) [x] s.
Proof.
  intros Hc Hx. unfold SENTENCE_END_RE. exists [], [x].
  split; [reflexivity|]. split.
  - split; [reflexivity|]. rewrite rev_app_distr. cbn [rev app].
    exists c, (rev a ++ bef). split; [reflexivity|].
    apply existsb_exists. exists c. split; [exact Hc|].
    apply ascii_eqb_eq. reflexivity.
  - apply (mt_Plus_Cls isspace). split; [discriminate|].
    exact (all_single _ _ Hx).
Qed.

Lemma mt_sentence_end_nonempty (bef w s : pystr) :
  mt SENTENCE_END_RE bef w s -> w <> [].
Proof.
  unfold SENTENCE_END_RE. intros (w1 & w2 & -> & [-> _] & H).
  apply (mt_Plus_Cls isspace) in H as [H _]. exact H.
Qed.

(** X27: a sentence of [_split_sentences] holds no line break and no
    sentence end inside it: in it, white space never follows a period, an
    exclamation mark or a question mark. *)
Theorem sentences_are_not_split_further (text p : pystr) :
  In p (_split_sentences text) ->
  all (fun c => negb (is_linebreak c)) p
  /\ forall a c x b,
       p = a ++ c :: x :: b -> In c (str ".!?") -> isspace x = false.
Proof.
  intros H.
  destruct (split_sentences_cases text) as [[_ Heq] | (_ & _ & Hin)].
  { rewrite Heq in H. destruct H as [<- | []]. split; [reflexivity|].
    intros a c x b Habs. destruct a; discriminate Habs. }
  destruct (Hin p H) as (_ & _ & _ & line & q & Hline & Hq & ->).
  destruct (strip_occurs q) as (l & r & Hlr).
  split.
  - apply (@all_occurs _ (strip q) line).
    + exact (@splitlines_go_no_break (length text) text [] line
               (le_n _) eq_refl Hline).
    + apply (occurs_in_trans (strip_occurs q)).
      apply (@occurs_in_trans _ _ (strip line)); [|apply strip_occurs].
      exact (split_from_occurs _ _ _ _ _ Hq).
  - intros a c x b Heq Hc. destruct (isspace x) eqn:Hx; [exfalso | reflexivity].
    apply (@split_from_no_match SENTENCE_END_RE (length (strip line))
             mt_sentence_end_nonempty [] (strip line) q (le_n _) Hq
             ((l ++ a) ++ [c]) [x] (b ++ r)).
    + rewrite Hlr at 1. rewrite Heq, <- !app_assoc. reflexivity.
    + intros bef' s'. exact (@mt_sentence_end (l ++ a) c x bef' s' Hc Hx).
Qed.

Lemma sentences_are_not_split_further_witness :
  In (str "No play.")
    (_split_sentences (str "Rain?No. Rain? No play.  Over."))
  /\ all (fun c => negb (is_linebreak c)) (str "No play.").
Proof.
  assert (H : In (str "No play.")
                (_split_sentences (str "Rain?No. Rain? No play.  Over.")))
    by (right; right; left; reflexivity).
  split; [exact H|].
  exact (proj1 (@sentences_are_not_split_further
                  (str "Rain?No. Rain? No play.  Over.") (str "No play.") H)).
Defined.

(** * Answers are not empty *)

Lemma endswith_nonempty (p s : pystr) :
  p <> [] -> endswith p s = true -> s <> [].
Proof.
  intros Hp H ->. unfold endswith in H. cbn [rev] in H.
  destruct (rev p) as [|c t] eqn:Hr; [|discriminate H].
  apply (f_equal (@rev ascii)) in Hr. rewrite rev_involutive in Hr.
  contradiction.
Qed.

Lemma ensure_period_nonempty (s : pystr) : ensure_period s <> [].
Proof.
  apply (@endswith_nonempty (str ".")); [discriminate|].
  apply ensure_period_ends.
Qed.

Lemma truthy_nonempty (o : option pystr) (w : pystr) :
  truthy o = Some w -> w <> [].
Proof.
  destruct o as [[|c t]|]; try discriminate. intros H. injection H as <-.
  discriminate.
Qed.

Lemma capitalised_nonempty (a : pystr) : capitalised a = true -> a <> [].
Proof. destruct a; [discriminate | discriminate]. Qed.

Lemma extract_date_nonempty (s : pystr) : s <> [] -> extract_date s <> [].
Proof.
  intros Hs. unfold extract_date.
  destruct (re_search MONTH_RE s) as [m|] eqn:H; [|exact Hs].
  apply search_date_some in H as (pre & post & [_ Hd] & _).
  destruct (is_date_ends Hd) as [(c & d1 & -> & _) _]. discriminate.
Qed.

(** The extractor gives no empty answer for a sentence that is not blank. *)
Lemma extract_short_answer_nonempty (sentence qtype question : pystr) :
  strip sentence <> [] ->
  extract_short_answer sentence qtype question <> [].
Proof.
  intros Hs. unfold extract_short_answer. cbv zeta.
  destruct (combined_host_date (strip sentence) (lower question)) as [a|] eqn:Hc.
  - unfold combined_host_date in Hc.
    destruct (contains (str "host") (lower question)
              && (contains (str "when") (lower question)
                  || contains (str "start") (lower question)));
      [|discriminate Hc].
    destruct (is_some (re_search HOSTED_RE (strip sentence))
              && is_some (re_search MONTH_RE (strip sentence))).
    { injection Hc as <-. apply ensure_period_nonempty. }
    destruct (host_capture (strip sentence)) as [host|] eqn:Hh;
      destruct (date_capture (strip sentence)) as [date|] eqn:Hd;
      try discriminate Hc; injection Hc as <-.
    + apply ensure_period_nonempty.
    + rewrite if_same. exact (@truthy_nonempty _ _ Hh).
    + exact (@truthy_nonempty _ _ Hd).
  - destruct (pystr_eqb qtype PERSON_OR_TEAM || pystr_eqb qtype ENTITY).
    { destruct (extract_name_shape (strip sentence)) as [-> | [H _]];
        [exact Hs | exact (@capitalised_nonempty _ H)]. }
    destruct (pystr_eqb qtype REASON).
    { apply (@endswith_nonempty (str ".")); [discriminate|].
      apply extract_reason_ends. }
    destruct (pystr_eqb qtype DATE);
      [exact (@extract_date_nonempty _ Hs) | apply ensure_period_nonempty].
Qed.

Lemma split_blank (s : pystr) : all isspace s -> split s = [].
Proof.
  intros H. unfold split. rewrite <- (app_nil_r s).
  rewrite (split_go_spaces [] H). reflexivity.
Qed.

Section AnswersNotEmpty.

Context {E : Externals}.

Lemma generate_nonempty (query : pystr) (retrieved : list (Chunk * F))
    (min_score : F) (answer report : pystr) :
  retrieved <> [] ->
  (forall c score, In (c, score) retrieved -> ~ all isspace (text c)) ->
  generate_extractive_answer query retrieved min_score
  = inr (answer, report) ->
  answer <> [].
Proof.
  intros Hne Htext H. unfold generate_extractive_answer in H.
  destruct retrieved as [|p0 l]; [contradiction Hne; reflexivity|].
  destruct (choose (p0 :: l) min_score) as [[c score]|] eqn:Hch;
    [|discriminate H].
  cbn [or_index_error bind ret] in H. unfold answer_from in H.
  cbn [fst] in H.
  destruct (_best_sentence query (text c)) as [e|bs] eqn:Hbs;
    [discriminate H|].
  cbn [bind ret] in H. injection H as <- _.
  assert (Hin : In (c, score) (p0 :: l)).
  { unfold choose in Hch.
    destruct (first_scoring (p0 :: l) min_score) as [ch|] eqn:Hf.
    - injection Hch as ->.
      apply first_scoring_some in Hf as (pre & post & -> & _).
      apply in_or_app. right. left. reflexivity.
    - cbn in Hch. injection Hch as ->. left. reflexivity. }
  pose proof (best_sentence_In _ _ Hbs) as Hsent.
  destruct (split_sentences_In _ _ Hsent) as (Hstrip & _ & Hnil).
  apply extract_short_answer_nonempty. rewrite Hstrip.
  intros Hbs0. exact (Htext c score Hin (proj1 Hnil Hbs0)).
Qed.

(** X28: with an index built by [build_index], what [retrieve] returns,
    when it is not empty, never leads the facade to an empty answer: the
    stored chunks hold at least 30 words, so the chosen sentence is not
    empty, and the extractor gives no empty answer for such a sentence. *)
Theorem built_index_answers_are_not_empty (docs : list (pystr * pystr))
    (size overlap : Z) (self self' : NaiveRAG) (query : pystr) (top_k : Z)
    (retrieved : list (Chunk * F)) (min_score : F) (answer report : pystr) :
  build_index docs size overlap self = (inr tt, self') ->
  retrieve self' query top_k = inr retrieved ->
  retrieved <> [] ->
  generate_extractive_answer query retrieved min_score
  = inr (answer, report) ->
  answer <> [].
Proof.
  intros Hbuild Hret Hne Hgen.
  apply (@generate_nonempty query retrieved min_score answer report Hne);
    [|exact Hgen].
  intros c score Hin Hblank.
  apply build_index_success in Hbuild
    as (embs & d & ix0 & ix & _ & _ & _ & ->).
  apply retrieve_stored in Hret.
  pose proof (proj1 (Forall_forall _ _) Hret (c, score) Hin) as Hc.
  cbn in Hc. apply collect_chunks_In in Hc as (txt & _ & _ & Hn).
  apply nth_error_In in Hn.
  apply sliding_window_chunk_In in Hn as (_ & _ & Hfloor).
  rewrite (split_blank Hblank) in Hfloor. unfold floor_words, len in Hfloor.
  cbn in Hfloor. lia.
Qed.

End AnswersNotEmpty.

Lemma built_index_answers_are_not_empty_witness :
  exists self' retrieved answer report,
    build_index (E := toy) corpus_a 100 20 init = (inr tt, self')
    /\ retrieve self' (str "who alpha") 3 = inr retrieved
    /\ generate_extractive_answer (str "who alpha") retrieved 0
       = inr (answer, report)
    /\ answer <> [].
Proof.
  set (self' := snd (build_index (E := toy) corpus_a 100 20 init)).
  assert (Hb : build_index (E := toy) corpus_a 100 20 init = (inr tt, self'))
    by (vm_compute; reflexivity).
  destruct (retrieve self' (str "who alpha") 3) as [e|retrieved] eqn:Hr;
    [vm_compute in Hr; discriminate Hr|].
  destruct (generate_extractive_answer (str "who alpha") retrieved 0)
    as [e|[answer report]] eqn:Hg.
  { vm_compute in Hr. injection Hr as <-. vm_compute in Hg. discriminate Hg. }
  assert (Hne : retrieved <> []).
  { intros ->. vm_compute in Hr. discriminate Hr. }
  exists self', retrieved, answer, report.
  refine (conj Hb (conj Hr (conj Hg _))).
  exact (@built_index_answers_are_not_empty toy corpus_a 100 20 init self'
           (str "who alpha") 3 retrieved 0 answer report Hb Hr Hne Hg).
Defined.
